(** * PGMORL: prediction-guided multi-objective RL — task/weight selection core

    A shallow embedding of [morl_baselines/multi_policy/pgmorl/pgmorl.py]:
    the performance predictor's sample history and neighbourhood search, the
    weight generator, the angular performance buffer, the constructor of the
    scheduler, its training loop counter, the task/weight selection, and
    the scheduler's evaluation and training passes with the whole of
    [train].

    Conventions of the embedding.
    - numpy floats are read as exact rationals ([Qc], canonical fractions, so
      that Python's [==] on tuples of numbers is Leibniz equality);
      rounding, overflow to [inf] and [nan] are outside the model.
    - Python objects that are shared and mutated (the MOPPO agents) live in a
      store [gmap loc MOPPO]; [deepcopy] allocates a fresh location.
    - code that can raise returns an [outcome]; loops that Python runs with
      [while] take a fuel argument and answer [Timeout] when it runs out.
    - numpy's elementwise operations are modelled on arrays of one shape;
      on operands of different shapes numpy raises [ValueError] or
      broadcasts, which the vector operations below do not follow.  That
      the predictor's search returns, or raises nothing, is stated under
      the hypothesis that the recorded evaluations and weights have the
      shape of its arguments ([well_shaped]); the archive is read with
      evaluations of the shape of its reference point.
    - numeric library routines without a rational closed form (arccos,
      scipy's least squares, the hypervolume and sparsity indicators, the
      random shuffle) are the fields of the class [Externals]. *)

From Stdlib Require Import ZArith QArith Qcanon Qcabs Qround Lia.
From stdpp Require Import base numbers option list gmap.

Local Open Scope Qc_scope.

(** ** Numbers and vectors *)

(** An evaluation or weight vector: a one-dimensional numpy array. *)
Abbreviation vec := (list Qc).

Definition Qc_of_nat (n : nat) : Qc := Qc_of_Z (Z.of_nat n).

(** Elementwise [a + b], [a - b], [k * a], [a / k] on arrays of equal shape.
    On operands of different lengths numpy raises [ValueError] (or
    broadcasts an operand of length 1); [zip_with] stops at the shorter
    one instead, so these definitions say what the code computes only on
    equal lengths. *)
Definition vadd (a b : vec) : vec := zip_with Qcplus a b.
Definition vsub (a b : vec) : vec := zip_with Qcminus a b.
Definition vneg (a : vec) : vec := Qcopp <$> a.
Definition vscale (k : Qc) (a : vec) : vec := Qcmult k <$> a.
Definition vdiv (a : vec) (k : Qc) : vec := (λ x, x / k) <$> a.

(** [int(x)]: truncation toward zero. *)
Definition py_int (x : Qc) : Z := Z.quot (Qnum (this x)) (Zpos (Qden (this x))).

(** The square of [np.linalg.norm(v)].  The source only ever compares two
    norms with [<]; the square root is strictly increasing on non-negative
    numbers, so [norm_lt] below is that comparison. *)
Definition norm_sq (v : vec) : Qc := foldr (λ x acc, x * x + acc) 0 v.
Definition norm_lt (a b : vec) : bool := bool_decide (norm_sq a < norm_sq b).

(** ** Exceptions and non-termination *)

Inductive exn : Set :=
  | ValueError | TypeError | IndexError | ZeroDivisionError | AssertionError.

Inductive outcome (A : Type) : Type :=
  | Ret (a : A)
  | Raise (e : exn)
  | Timeout.
Arguments Ret {A} a.
Arguments Raise {A} e.
Arguments Timeout {A}.

#[global] Instance outcome_ret : MRet outcome := λ A a, Ret a.
#[global] Instance outcome_bind : MBind outcome := λ A B f m,
  match m with
  | Ret a => f a
  | Raise e => Raise e
  | Timeout => Timeout
  end.

#[global] Instance exn_eq_dec : EqDecision exn.
Proof. solve_decision. Defined.
#[global] Instance outcome_eq_dec {A} `{EqDecision A} : EqDecision (outcome A).
Proof. solve_decision. Defined.

(** [a // b] on Python integers. *)
Definition floordiv (a b : Z) : outcome Z :=
  if decide (b = 0%Z) then Raise ZeroDivisionError else Ret (a `div` b)%Z.

(** ** External numeric routines *)

Class Externals : Type := {
  (** [int(theta // dtheta)] of [PerformanceBuffer.add], where
      [theta = arccos(clip(c[1] / (norm(c) + 1e-3), -1, 1))] for the centred
      evaluation [c] and [dtheta = pi / 2 / num_bins]. *)
  angle_bin : nat → vec → Z;
  (** [PerformancePredictor.__build_model_and_predict]: the kernel-weighted
      soft-L1 fit of the hyperbolic model by [scipy.optimize.least_squares],
      evaluated at [weight_candidate[current_dim]]. *)
  build_model_and_predict :
    list vec → list vec → list vec → nat → vec → vec → Qc → Qc;
  (** [hypervolume(ref_point, front)] and [sparsity(front)]. *)
  hypervolume : vec → list vec → Qc;
  sparsity : list vec → Qc;
  (** The permutation [np.random.shuffle] applies. *)
  shuffle : list vec → list vec
}.

(** ** PerformancePredictor *)

Module PerformancePredictor.

Record t : Type := mk {
  previous_performance : list vec;
  next_performance : list vec;
  used_weight : list vec;
  neighborhood_threshold : Qc;
  A_bound_min : Qc;
  A_bound_max : Qc;
  f_scale : Qc;
  sigma : Qc
}.

(** [__init__] with its default arguments. *)
Definition init : t :=
  {| previous_performance := []; next_performance := []; used_weight := [];
     neighborhood_threshold := Q2Qc (1 # 10);
     A_bound_min := 1; A_bound_max := Qc_of_Z 500;
     f_scale := Qc_of_Z 20; sigma := Q2Qc (3 # 100) |}.

Definition add (p : t) (weight eval_before_pg eval_after_pg : vec) : t :=
  {| previous_performance := previous_performance p ++ [eval_before_pg];
     next_performance := next_performance p ++ [eval_after_pg];
     used_weight := used_weight p ++ [weight];
     neighborhood_threshold := neighborhood_threshold p;
     A_bound_min := A_bound_min p; A_bound_max := A_bound_max p;
     f_scale := f_scale p; sigma := sigma p |}.

(** The three lists the neighbour search of [predict_next_evaluation]
    accumulates. *)
Record neighbors : Type := mk_neighbors {
  neighbor_weights : list vec;
  neighbor_deltas : list vec;
  neighbor_next_perf : list vec
}.

Definition no_neighbors : neighbors := mk_neighbors [] [] [].

(** [np.all(np.abs(previous_perf - policy_eval)
            < current_neighb_threshold * np.abs(policy_eval))] *)
Definition in_neighborhood (threshold : Qc) (previous_perf policy_eval : vec) : bool :=
  forallb (λ '(d, e), bool_decide (Qcabs d < threshold * Qcabs e))
          (zip (vsub previous_perf policy_eval) policy_eval).

(** One pass of the inner [for ... in zip(...)] over the history. *)
Definition filter_neighbors (threshold : Qc) (policy_eval : vec) (p : t)
    (nb : neighbors) : neighbors :=
  foldl (λ nb '(previous_perf, next_perf, neighb_w),
           if in_neighborhood threshold previous_perf policy_eval
              && bool_decide (next_perf ∉ neighbor_next_perf nb)
           then {| neighbor_weights := neighbor_weights nb ++ [neighb_w];
                   neighbor_deltas := neighbor_deltas nb ++ [vsub next_perf previous_perf];
                   neighbor_next_perf := neighbor_next_perf nb ++ [next_perf] |}
           else nb)
        nb
        (zip (zip (previous_performance p) (next_performance p)) (used_weight p)).

(** [while len(neighbor_weights) < 4]: each iteration doubles sigma and the
    threshold and filters the whole history again.  The body has no
    [raise] and no [break]: the guard is the only way out. *)
Fixpoint expand_neighborhood (fuel : nat) (p : t) (policy_eval : vec)
    (current_sigma current_neighb_threshold : Qc) (nb : neighbors)
    : outcome (neighbors * Qc) :=
  if bool_decide (length (neighbor_weights nb) < 4)%nat then
    match fuel with
    | O => Timeout
    | S fuel' =>
        let current_sigma := current_sigma * Qc_of_Z 2 in
        let current_neighb_threshold := current_neighb_threshold * Qc_of_Z 2 in
        expand_neighborhood fuel' p policy_eval current_sigma current_neighb_threshold
          (filter_neighbors current_neighb_threshold policy_eval p nb)
    end
  else Ret (nb, current_sigma).

Definition predict_next_evaluation `{Externals} (fuel : nat) (p : t)
    (weight_candidate policy_eval : vec) : outcome (vec * vec) :=
  '(nb, current_sigma) ←
     expand_neighborhood fuel p policy_eval
       (sigma p / Qc_of_Z 2) (neighborhood_threshold p / Qc_of_Z 2) no_neighbors;
  let delta_predictions :=
    (λ obj_num,
       build_model_and_predict (neighbor_weights nb) (neighbor_deltas nb)
         (neighbor_next_perf nb) obj_num policy_eval weight_candidate current_sigma)
    <$> seq 0 (length weight_candidate) in
  mret (delta_predictions, vadd delta_predictions policy_eval).

End PerformancePredictor.

(** ** generate_weights *)

(** [np.linspace(start, stop, num)] on vectors, [endpoint=True]: [num]
    samples [start + i * step] with [step = (stop - start) / (num - 1)], the
    last one overwritten with [stop]; a negative [num] is a [ValueError]. *)
Definition linspace (start stop : vec) (num : Z) : outcome (list vec) :=
  if decide (num < 0)%Z then Raise ValueError
  else
    let n := Z.to_nat num in
    let div := Qc_of_nat (n - 1) in
    let step := vdiv (vsub stop start) div in
    let y := (λ i, vadd (vscale (Qc_of_nat i) step) start) <$> seq 0 n in
    Ret (if decide (1 < n)%nat then <[(n - 1)%nat := stop]> y else y).

Definition generate_weights (delta_weight : Qc) : outcome (list vec) :=
  if decide (delta_weight = 0) then Raise ZeroDivisionError
  else linspace [0; 1] [1; 0] (py_int (1 / delta_weight) + 1).

(** ** Agents and the object store *)

(** Modelled from the spec: the class MOPPO of [single_policy/ser/mo_ppo.py],
    which this development does not embed.  An individual is "an opaque
    policy handle with a mutable weight, a mutable training-step counter,
    and an identity label"; [networks] names the [MOPPONet] the agent was
    built with. *)
Record MOPPO : Type := mk_MOPPO {
  id : nat;
  networks : nat;
  weights : vec;
  global_step : Z
}.

#[global] Instance MOPPO_inhabited : Inhabited MOPPO := populate (mk_MOPPO 0 0 [] 0).

(** Modelled from the spec: the constructor of MOPPO, absent like its class,
    called as [MOPPO(i, self.networks[i], weights[i], ...)].  The spec
    gives the individual an identity label, a weight and a step counter
    but not the counter's initial value: the 0 below stands for it, and
    the properties stated of the constructor say nothing of the counter
    of a new individual. *)
Definition MOPPO_new (i net : nat) (w : vec) : MOPPO :=
  {| id := i; networks := net; weights := w; global_step := 0 |}.

Definition set_global_step (g : Z) (a : MOPPO) : MOPPO :=
  {| id := id a; networks := networks a; weights := weights a; global_step := g |}.
Definition set_id (i : nat) (a : MOPPO) : MOPPO :=
  {| id := i; networks := networks a; weights := weights a; global_step := global_step a |}.
(** Modelled from the spec: the method [change_weights] of MOPPO, absent like
    its class, "mutates scalarization weight in place" and nothing else. *)
Definition change_weights (w : vec) (a : MOPPO) : MOPPO :=
  {| id := id a; networks := networks a; weights := w; global_step := global_step a |}.

Definition loc : Type := positive.
Abbreviation store := (gmap loc MOPPO).

(** Creating an object puts it at a location no object occupies. *)
Definition alloc (σ : store) (a : MOPPO) : loc * store :=
  let l := fresh (dom σ) in (l, <[l := a]> σ).

(** [deepcopy(agent)]: a new object with the same contents.  Python
    references never dangle; the total lookup is there for typing only. *)
Definition deepcopy (σ : store) (l : loc) : loc * store := alloc σ (σ !!! l).

(** ** PerformanceBuffer *)

Module PerformanceBuffer.

(** [dtheta = pi / 2 / num_bins] is fixed by [num_bins] and enters only
    through [angle_bin]; it has no field of its own. *)
Record t : Type := mk {
  num_bins : nat;
  max_size : nat;
  origin : vec;
  bins : list (list loc);
  bins_evals : list (list vec)
}.

(** [__init__]; the division [np.pi / 2.0 / self.num_bins] raises for
    [num_bins = 0]. *)
Definition init (num_bins max_size : nat) (ref_point : vec) : outcome t :=
  if decide (num_bins = 0)%nat then Raise ZeroDivisionError
  else Ret {| num_bins := num_bins; max_size := max_size;
              origin := vneg ref_point;
              bins := replicate num_bins [];
              bins_evals := replicate num_bins [] |}.

Definition evaluations (b : t) : list vec := concat (bins_evals b).
Definition individuals (b : t) : list loc := concat (bins b).

(** [np.clip(eval + self.origin, 0.0, float("inf"))] *)
Definition center_eval (b : t) (eval : vec) : vec :=
  (λ x, if bool_decide (x < 0) then 0 else x) <$> vadd eval (origin b).

(** The scan of a full bin, [for i in range(len(self.bins[buffer_id]))]:
    the first index whose stored evaluation has a smaller centred norm
    than the candidate's, where the loop breaks. *)
Fixpoint first_weaker (b : t) (evals : list vec) (centered_eval : vec)
    (indices : list nat) : outcome (option nat) :=
  match indices with
  | [] => Ret None
  | i :: indices' =>
      match evals !! i with
      | None => Raise IndexError
      | Some stored =>
          if norm_lt (center_eval b stored) centered_eval then Ret (Some i)
          else first_weaker b evals centered_eval indices'
      end
  end.

Definition add `{Externals} (σ : store) (b : t) (candidate : loc) (evaluation : vec)
    : outcome (store * t) :=
  let centered_eval := center_eval b evaluation in
  let buffer_id := angle_bin (num_bins b) centered_eval in
  if decide (buffer_id < 0 ∨ Z.of_nat (num_bins b) ≤ buffer_id)%Z then Ret (σ, b)
  else
    let k := Z.to_nat buffer_id in
    match bins b !! k with
    | None => Raise IndexError
    | Some bin =>
        if decide (length bin < max_size b)%nat then
          let '(copy, σ') := deepcopy σ candidate in
          match bins_evals b !! k with
          | None => Raise IndexError
          | Some evals =>
              Ret (σ', {| num_bins := num_bins b; max_size := max_size b;
                          origin := origin b;
                          bins := <[k := bin ++ [copy]]> (bins b);
                          bins_evals := <[k := evals ++ [evaluation]]> (bins_evals b) |})
          end
        else
          match bins_evals b !! k with
          | None => if decide (bin = []) then Ret (σ, b) else Raise IndexError
          | Some evals =>
              found ← first_weaker b evals centered_eval (seq 0 (length bin));
              match found with
              | None => Ret (σ, b)
              | Some i =>
                  let '(copy, σ') := deepcopy σ candidate in
                  Ret (σ', {| num_bins := num_bins b; max_size := max_size b;
                              origin := origin b;
                              bins := <[k := <[i := copy]> bin]> (bins b);
                              bins_evals := <[k := <[i := evaluation]> evals]> (bins_evals b) |})
              end
          end
    end.

(** The same call as the specification words it: in a full bin, look for
    the occupant with the smallest centred norm and replace that one when
    its norm is smaller than the candidate's.  [weakest] is the index of
    the first occupant of minimal norm. *)
Fixpoint weakest_from (b : t) (i : nat) (cur : nat * vec) (evals : list vec) : nat * vec :=
  match evals with
  | [] => cur
  | e :: evals' =>
      weakest_from b (S i)
        (if norm_lt (center_eval b e) (center_eval b cur.2) then (i, e) else cur) evals'
  end.

Definition weakest (b : t) (evals : list vec) : option (nat * vec) :=
  match evals with
  | [] => None
  | e :: evals' => Some (weakest_from b 1 (0%nat, e) evals')
  end.

Definition spec_replace_weakest (b : t) (bin : list loc) (evals : list vec)
    (copy : loc) (evaluation : vec) : list loc * list vec :=
  match weakest b evals with
  | Some (i, e) =>
      if norm_lt (center_eval b e) (center_eval b evaluation)
      then (<[i := copy]> bin, <[i := evaluation]> evals)
      else (bin, evals)
  | None => (bin, evals)
  end.

End PerformanceBuffer.

(** ** PGMORL *)

Module PGMORL.

(** The constructor arguments the modelled code reads.  [env_given] says
    whether [env] is not [None]; [action_space_is_box] is what the
    environment made from [env_id] reports. *)
Record config : Type := mk_config {
  c_ref_point : vec;
  c_num_envs : Z;
  c_pop_size : Z;
  c_warmup_iterations : Z;
  c_steps_per_iteration : Z;
  c_limit_env_steps : Z;
  c_evolutionary_iterations : Z;
  c_num_performance_buffer : nat;
  c_performance_buffer_size : nat;
  c_delta_weight : Qc;
  c_num_minibatches : Z;
  env_given : bool;
  action_space_is_box : bool
}.

(** The default arguments of [__init__]. *)
Definition default_config : config :=
  {| c_ref_point := [0; Qc_of_Z (-5)];
     c_num_envs := 4;
     c_pop_size := 6;
     c_warmup_iterations := 80;
     c_steps_per_iteration := 2048;
     c_limit_env_steps := 5000000;
     c_evolutionary_iterations := 20;
     c_num_performance_buffer := 100;
     c_performance_buffer_size := 2;
     c_delta_weight := Q2Qc (1 # 5);
     c_num_minibatches := 32;
     env_given := false;
     action_space_is_box := true |}.

Record t : Type := mk {
  ref_point : vec;
  num_envs : Z;
  pop_size : Z;
  warmup_iterations : Z;
  steps_per_iteration : Z;
  evolutionary_iterations : Z;
  delta_weight : Qc;
  limit_env_steps : Z;
  max_iterations : Z;
  iteration : Z;
  (** [self.archive.evaluations]: what is read of the Pareto archive. *)
  archive_evaluations : list vec;
  population : PerformanceBuffer.t;
  predictor : PerformancePredictor.t;
  batch_size : Z;
  minibatch_size : Z;
  nets : list nat;
  heap : store;
  agents : list loc
}.

(** [[MOPPO(i, self.networks[i], weights[i], ...) for i in range(self.pop_size)]] *)
Fixpoint make_agents (nets : list nat) (weights : list vec) (indices : list nat)
    (σ : store) : outcome (list loc * store) :=
  match indices with
  | [] => Ret ([], σ)
  | i :: indices' =>
      match nets !! i, weights !! i with
      | Some net, Some w =>
          let '(l, σ') := alloc σ (MOPPO_new i net w) in
          '(ls, σ'') ← make_agents nets weights indices' σ';
          mret (l :: ls, σ'')
      | _, _ => Raise IndexError
      end
  end.

Definition init (c : config) : outcome t :=
  if negb (action_space_is_box c) then Raise AssertionError else
  q ← floordiv (c_limit_env_steps c) (c_steps_per_iteration c);
  max_iterations ← floordiv q (c_num_envs c);
  population ← PerformanceBuffer.init (c_num_performance_buffer c)
                 (c_performance_buffer_size c) (c_ref_point c);
  let batch_size := (c_num_envs c * c_steps_per_iteration c)%Z in
  minibatch_size ← floordiv batch_size (c_num_minibatches c);
  if env_given c then Raise ValueError else
  let nets := seq 0 (Z.to_nat (c_pop_size c)) in
  weights ← generate_weights (c_delta_weight c);
  let pop_size := length weights in
  '(agents, σ) ← make_agents nets weights (seq 0 pop_size) ∅;
  mret {| ref_point := c_ref_point c;
          num_envs := c_num_envs c;
          pop_size := Z.of_nat pop_size;
          warmup_iterations := c_warmup_iterations c;
          steps_per_iteration := c_steps_per_iteration c;
          evolutionary_iterations := c_evolutionary_iterations c;
          delta_weight := c_delta_weight c;
          limit_env_steps := c_limit_env_steps c;
          max_iterations := max_iterations;
          iteration := 0;
          archive_evaluations := [];
          population := population;
          predictor := PerformancePredictor.init;
          batch_size := batch_size;
          minibatch_size := minibatch_size;
          nets := nets;
          heap := σ;
          agents := agents |}.

(** *** The iteration counter of [train]

    [train] restricted to [self.iteration].  The calls it makes
    ([__eval_all_agents], [__train_all_agents], [__task_weight_selection])
    do not assign [self.iteration] and are taken to return. *)

(** [for _ in range(n): ...; self.iteration += 1] *)
Definition run_iterations (n : Z) (iteration : Z) : Z :=
  Nat.iter (Z.to_nat n) Z.succ iteration.

Definition remaining_iterations (s : t) : Z :=
  (max_iterations s - warmup_iterations s) `max` evolutionary_iterations s.

(** [while self.iteration < remaining_iterations]: one generation per turn. *)
Fixpoint evolution_loop (fuel : nat) (s : t) (iteration : Z) : outcome Z :=
  if decide (iteration < remaining_iterations s)%Z then
    match fuel with
    | O => Timeout
    | S fuel' =>
        evolution_loop fuel' s (run_iterations (evolutionary_iterations s) iteration)
    end
  else Ret iteration.

(** The value of [self.iteration] when [train] prints "Done training!". *)
Definition train (fuel : nat) (s : t) : outcome Z :=
  evolution_loop fuel s (run_iterations (warmup_iterations s) (iteration s)).

(** *** [__task_weight_selection] *)

(** The method's local variables and what it mutates: the agents (and the
    objects behind them), the tasks selected so far and the speculative
    front. *)
Record selection : Type := mk_selection {
  sel_heap : store;
  sel_agents : list loc;
  selected_tasks : list (vec * vec);
  current_front : list vec
}.

(** [best_candidate], [best_eval], [best_predicted_eval] and [max_improv];
    the whole record is absent while [max_improv] is [-inf] and the three
    others are [None]. *)
Record best : Type := mk_best {
  best_candidate : loc * vec;
  best_eval : vec;
  best_predicted_eval : vec;
  max_improv : Qc
}.

(** [np.argmax] and [np.max] of a non-empty array: the first index of the
    largest entry, and that entry. *)
Fixpoint argmax_from (i : nat) (cur : nat * Qc) (l : list Qc) : nat * Qc :=
  match l with
  | [] => cur
  | x :: l' => argmax_from (S i) (if bool_decide (cur.2 < x) then (i, x) else cur) l'
  end.

Definition argmax (l : list Qc) : option (nat * Qc) :=
  match l with
  | [] => None
  | x :: l' => Some (argmax_from 1 (0%nat, x) l')
  end.

(** The pairs of one archived evaluation with the weights not yet selected
    for it. *)
Definition candidate_tuples (selected_tasks : list (vec * vec))
    (last_candidate_eval : vec) (candidate_weights : list vec) : list (vec * vec) :=
  (λ weight, (last_candidate_eval, weight))
  <$> filter (λ weight, (last_candidate_eval, weight) ∉ selected_tasks) candidate_weights.

(** The body of the loop over the population, up to the comparison with
    [max_improv]: the best weight for one candidate, its predicted
    evaluation and its score.  Unpacking the transposed predictions of an
    empty [candidate_tuples] is a [ValueError]. *)
Definition best_weight_for `{Externals} (fuel : nat) (s : t) (st : selection)
    (candidate_weights : list vec) (last_candidate_eval : vec)
    : outcome (vec * vec * Qc) :=
  let tuples := candidate_tuples (selected_tasks st) last_candidate_eval candidate_weights in
  predictions ←
    mapM (λ '(candidate_eval, weight),
            PerformancePredictor.predict_next_evaluation fuel (predictor s)
              weight candidate_eval) tuples;
  match predictions with
  | [] => Raise ValueError
  | _ =>
      let predicted_evals := snd <$> predictions in
      let mixture_metrics :=
        (λ predicted_eval,
           hypervolume (ref_point s) (current_front st ++ [predicted_eval])
           - sparsity (current_front st ++ [predicted_eval]))
        <$> predicted_evals in
      match argmax mixture_metrics with
      | None => Raise ValueError
      | Some (current_candidate_weight, current_candidate_improv) =>
          match tuples !! current_candidate_weight,
                predicted_evals !! current_candidate_weight with
          | Some (_, weight), Some predicted_eval =>
              Ret (weight, predicted_eval, current_candidate_improv)
          | _, _ => Raise IndexError
          end
      end
  end.

(** [for candidate, last_candidate_eval in zip(population, population_eval)] *)
Fixpoint best_over_population `{Externals} (fuel : nat) (s : t) (st : selection)
    (candidate_weights : list vec) (pop : list (loc * vec)) (acc : option best)
    : outcome (option best) :=
  match pop with
  | [] => Ret acc
  | (candidate, last_candidate_eval) :: pop' =>
      '(weight, predicted_eval, current_candidate_improv) ←
        best_weight_for fuel s st candidate_weights last_candidate_eval;
      let improves :=
        match acc with
        | None => true
        | Some b => bool_decide (max_improv b < current_candidate_improv)
        end in
      best_over_population fuel s st candidate_weights pop'
        (if improves
         then Some {| best_candidate := (candidate, weight);
                      best_eval := last_candidate_eval;
                      best_predicted_eval := predicted_eval;
                      max_improv := current_candidate_improv |}
         else acc)
  end.

(** The assignment at the end of the body for worker [i]: the copy of the
    winner takes the counter of the agent it replaces, the worker's index
    and the winning weight, and is stored in slot [i]. *)
Definition install (i : nat) (b : best) (σ : store) (agents : list loc)
    : outcome (store * list loc) :=
  let '(copied_agent, σ) := deepcopy σ (best_candidate b).1 in
  match agents !! i with
  | None => Raise IndexError
  | Some previous =>
      let σ := alter (set_global_step (global_step (σ !!! previous))) copied_agent σ in
      let σ := alter (set_id i) copied_agent σ in
      let σ := alter (change_weights (best_candidate b).2) copied_agent σ in
      Ret (σ, <[i := copied_agent]> agents)
  end.

(** The body of [for i in range(len(self.agents))].  With no winner,
    [tuple(best_eval)] is [tuple(None)], a [TypeError]. *)
Definition select_for_worker `{Externals} (fuel : nat) (s : t)
    (candidate_weights : list vec) (i : nat) (st : selection) : outcome selection :=
  winner ←
    best_over_population fuel s st candidate_weights
      (zip (PerformanceBuffer.individuals (population s))
           (PerformanceBuffer.evaluations (population s))) None;
  match winner with
  | None => Raise TypeError
  | Some b =>
      let selected_tasks := selected_tasks st ++ [(best_eval b, (best_candidate b).2)] in
      let current_front := current_front st ++ [best_predicted_eval b] in
      '(σ, agents) ← install i b (sel_heap st) (sel_agents st);
      mret {| sel_heap := σ; sel_agents := agents;
              selected_tasks := selected_tasks; current_front := current_front |}
  end.

Fixpoint workers_loop `{Externals} (fuel : nat) (s : t) (candidate_weights : list vec)
    (workers : list nat) (st : selection) : outcome selection :=
  match workers with
  | [] => Ret st
  | i :: workers' =>
      st' ← select_for_worker fuel s candidate_weights i st;
      workers_loop fuel s candidate_weights workers' st'
  end.

(** The shuffled candidate weights, at half the spacing. *)
Definition selection_weights `{Externals} (s : t) : outcome (list vec) :=
  candidate_weights ← generate_weights (delta_weight s / Qc_of_Z 2);
  mret (shuffle candidate_weights).

Definition selection_start (s : t) : selection :=
  {| sel_heap := heap s; sel_agents := agents s;
     selected_tasks := []; current_front := archive_evaluations s |}.

(** The state of the method when the first [k] workers have been served. *)
Definition selection_prefix `{Externals} (fuel : nat) (s : t) (k : nat) : outcome selection :=
  candidate_weights ← selection_weights s;
  workers_loop fuel s candidate_weights (seq 0 k) (selection_start s).

Definition task_weight_selection `{Externals} (fuel : nat) (s : t) : outcome selection :=
  selection_prefix fuel s (length (agents s)).

End PGMORL.

(** ** Scripted externals and sample data

    Stand-ins for the external routines, used to run the model on concrete
    inputs.  [single_sector_bin] is the value of [int(theta // dtheta)] in
    real arithmetic for an archive of one bin: the angle is below a quarter
    turn exactly when the second centred component is positive. *)

Definition single_sector_bin (num_bins : nat) (c : vec) : Z :=
  if bool_decide (0 < default 0 (c !! 1%nat)) then 0%Z else Z.of_nat num_bins.

Definition vsum (v : vec) : Qc := foldr Qcplus 0 v.

Definition scripted_fit (ws ds nps : list vec) (dim : nat) (current_eval w : vec) (σ : Qc) : Qc :=
  default 0 (w !! dim) * vsum ((λ d : vec, default 0 (d !! dim)) <$> ds).

Definition box_volume (ref_point : vec) (front : list vec) : Qc :=
  vsum ((λ p : vec, foldr Qcmult 1 (vsub p ref_point)) <$> front).

Definition scripted : Externals :=
  {| angle_bin := single_sector_bin;
     build_model_and_predict := scripted_fit;
     hypervolume := box_volume;
     sparsity := λ front, Qc_of_nat (length front);
     shuffle := reverse |}.

Definition q (n : Z) (d : positive) : Qc := Q2Qc (n # d).

(** Four samples around the evaluation [[10; 10]], with distinct
    post-evaluations. *)
Definition four_samples : PerformancePredictor.t :=
  foldl (λ p '(w, before, after), PerformancePredictor.add p w before after)
    PerformancePredictor.init
    [ ([0; 1],           [q 10 1; q 10 1], [q 10 1; q 12 1]);
      ([q 1 2; q 1 2],   [q 10 1; q 10 1], [q 11 1; q 11 1]);
      ([1; 0],           [q 10 1; q 10 1], [q 12 1; q 10 1]);
      ([q 1 4; q 3 4],   [q 11 1; q 10 1], [q 11 1; q 12 1]) ].

(** Three samples only. *)
Definition three_samples : PerformancePredictor.t :=
  foldl (λ p '(w, before, after), PerformancePredictor.add p w before after)
    PerformancePredictor.init
    [ ([0; 1],           [q 10 1; q 10 1], [q 10 1; q 12 1]);
      ([q 1 2; q 1 2],   [q 10 1; q 10 1], [q 11 1; q 11 1]);
      ([1; 0],           [q 10 1; q 10 1], [q 12 1; q 10 1]) ].

(** A store with two agents and a one-bin archive of capacity 2. *)
Definition two_agents : store :=
  <[2%positive := MOPPO_new 1 1 [1; 0]]> (<[1%positive := MOPPO_new 0 0 [0; 1]]> ∅).

Definition one_bin : PerformanceBuffer.t :=
  {| PerformanceBuffer.num_bins := 1; PerformanceBuffer.max_size := 2;
     PerformanceBuffer.origin := [0; 0];
     PerformanceBuffer.bins := [[]]; PerformanceBuffer.bins_evals := [[]] |}.

(** A scheduler between two generations: two workers, two archived
    individuals (copies, at locations 3 and 4), four recorded samples. *)
Definition sample_heap : store :=
  <[4%positive := set_global_step 700 (MOPPO_new 1 1 [1; 0])]>
    (<[3%positive := set_global_step 700 (MOPPO_new 0 0 [0; 1])]>
       (<[2%positive := set_global_step 900 (MOPPO_new 1 1 [1; 0])]>
          (<[1%positive := set_global_step 800 (MOPPO_new 0 0 [0; 1])]> ∅))).

Definition sample_state : PGMORL.t :=
  {| PGMORL.ref_point := [0; 0];
     PGMORL.num_envs := 4;
     PGMORL.pop_size := 2;
     PGMORL.warmup_iterations := 80;
     PGMORL.steps_per_iteration := 2048;
     PGMORL.evolutionary_iterations := 20;
     PGMORL.delta_weight := 1;
     PGMORL.limit_env_steps := 5000000;
     PGMORL.max_iterations := 610;
     PGMORL.iteration := 80;
     PGMORL.archive_evaluations := [[q 10 1; q 10 1]];
     PGMORL.population :=
       {| PerformanceBuffer.num_bins := 1; PerformanceBuffer.max_size := 2;
          PerformanceBuffer.origin := [0; 0];
          PerformanceBuffer.bins := [[3%positive; 4%positive]];
          PerformanceBuffer.bins_evals := [[[q 10 1; q 10 1]; [q 11 1; q 10 1]]] |};
     PGMORL.predictor := four_samples;
     PGMORL.batch_size := 8192;
     PGMORL.minibatch_size := 256;
     PGMORL.nets := [0%nat; 1%nat];
     PGMORL.heap := sample_heap;
     PGMORL.agents := [1%positive; 2%positive] |}.

(** The scheduler built from the default arguments. *)
Definition default_scheduler : PGMORL.t :=
  Eval vm_compute in
    match PGMORL.init PGMORL.default_config with
    | Ret s => s
    | _ => sample_state
    end.

(** The default arguments but for [pop_size=9], and the scheduler built
    from them. *)
Definition wide_config : PGMORL.config :=
  {| PGMORL.c_ref_point := [0; Qc_of_Z (-5)];
     PGMORL.c_num_envs := 4;
     PGMORL.c_pop_size := 9;
     PGMORL.c_warmup_iterations := 80;
     PGMORL.c_steps_per_iteration := 2048;
     PGMORL.c_limit_env_steps := 5000000;
     PGMORL.c_evolutionary_iterations := 20;
     PGMORL.c_num_performance_buffer := 100;
     PGMORL.c_performance_buffer_size := 2;
     PGMORL.c_delta_weight := q 1 5;
     PGMORL.c_num_minibatches := 32;
     PGMORL.env_given := false;
     PGMORL.action_space_is_box := true |}.

Definition wide_scheduler : PGMORL.t :=
  Eval vm_compute in
    match PGMORL.init wide_config with
    | Ret s => s
    | _ => sample_state
    end.

(** The archive [PerformanceBuffer(1, 2, [0, -5])]. *)
Definition constructed_bin : PerformanceBuffer.t :=
  Eval vm_compute in
    match PerformanceBuffer.init 1 2 [0; Qc_of_Z (-5)] with
    | Ret b => b
    | _ => one_bin
    end.

(** A one-bin archive that is full: the occupants are the copies at
    locations 3 and 4, with centred norms 2 and 1. *)
Definition full_bin : PerformanceBuffer.t :=
  {| PerformanceBuffer.num_bins := 1; PerformanceBuffer.max_size := 2;
     PerformanceBuffer.origin := [0; 0];
     PerformanceBuffer.bins := [[3%positive; 4%positive]];
     PerformanceBuffer.bins_evals := [[[0; q 2 1]; [0; 1]]] |}.

(** The selection run on [sample_state]: its candidate weights, the state
    after the first worker, and the state at the end. *)
Definition sample_weights : list vec :=
  Eval vm_compute in
    match PGMORL.selection_weights (H := scripted) sample_state with
    | Ret ws => ws
    | _ => []
    end.

Definition sample_first_worker : PGMORL.selection :=
  Eval vm_compute in
    match PGMORL.selection_prefix (H := scripted) 5 sample_state 1 with
    | Ret st => st
    | _ => PGMORL.selection_start sample_state
    end.

Definition sample_result : PGMORL.selection :=
  Eval vm_compute in
    match PGMORL.task_weight_selection (H := scripted) 5 sample_state with
    | Ret st => st
    | _ => PGMORL.selection_start sample_state
    end.

(** ** Derived notions used in the statements *)

(** Every reference of the list is to an object of the store. *)
Definition allocated (σ : store) (ls : list loc) : Prop :=
  Forall (λ l, is_Some (σ !! l)) ls.

(** The predictor after recording a list of samples, oldest first. *)
Definition record_all (p : PerformancePredictor.t) (samples : list (vec * vec * vec))
    : PerformancePredictor.t :=
  foldl (λ p '(weight, before, after), PerformancePredictor.add p weight before after)
        p samples.

(** How many pairwise-distinct post-evaluations the history holds. *)
Definition distinct_posts (p : PerformancePredictor.t) : nat :=
  length (remove_dups (PerformancePredictor.next_performance p)).

(** The recorded evaluations and weights all have [dim] components: the
    shape the elementwise operations of [predict_next_evaluation] need of
    the history when [policy_eval] and [weight_candidate] have [dim]
    components. *)
Definition well_shaped (dim : nat) (p : PerformancePredictor.t) : Prop :=
  Forall (λ v : vec, length v = dim) (PerformancePredictor.previous_performance p)
  ∧ Forall (λ v : vec, length v = dim) (PerformancePredictor.next_performance p)
  ∧ Forall (λ v : vec, length v = dim) (PerformancePredictor.used_weight p).

(** What the neighbour search keeps true of its accumulators: the
    post-evaluations collected so far are pairwise distinct, all come from
    the history, and there is one weight per collected post-evaluation. *)
Definition search_inv (p : PerformancePredictor.t)
    (nb : PerformancePredictor.neighbors) : Prop :=
  NoDup (PerformancePredictor.neighbor_next_perf nb)
  ∧ (∀ x, x ∈ PerformancePredictor.neighbor_next_perf nb
          → x ∈ PerformancePredictor.next_performance p)
  ∧ length (PerformancePredictor.neighbor_weights nb)
    = length (PerformancePredictor.neighbor_next_perf nb).

(** The shape every archive built by the constructor and [add] has: one
    bin and one list of evaluations per sector, of equal lengths, none
    longer than the capacity. *)
Definition buffer_wf (b : PerformanceBuffer.t) : Prop :=
  length (PerformanceBuffer.bins b) = PerformanceBuffer.num_bins b
  ∧ Forall2 (λ (bin : list loc) (evals : list vec),
               length bin = length evals
               ∧ (length bin ≤ PerformanceBuffer.max_size b)%nat)
            (PerformanceBuffer.bins b) (PerformanceBuffer.bins_evals b).

(** An occupant is weaker than the candidate when its centred norm is the
    smaller one. *)
Definition weaker_than (b : PerformanceBuffer.t) (evaluation stored : vec) : Prop :=
  norm_sq (PerformanceBuffer.center_eval b stored)
  < norm_sq (PerformanceBuffer.center_eval b evaluation).

#[global] Instance weaker_than_dec b evaluation stored :
  Decision (weaker_than b evaluation stored).
Proof. unfold weaker_than. apply _. Defined.

(** A sequence of [add] calls on the archive. *)
Fixpoint add_all `{Externals} (σ : store) (b : PerformanceBuffer.t)
    (calls : list (loc * vec)) : outcome (store * PerformanceBuffer.t) :=
  match calls with
  | [] => Ret (σ, b)
  | (candidate, evaluation) :: calls' =>
      '(σ', b') ← PerformanceBuffer.add σ b candidate evaluation;
      add_all σ' b' calls'
  end.

(** [round(x)] as the specification writes it: to the nearest integer, a
    tie going to the even neighbour. *)
Definition py_round (x : Qc) : Z :=
  let f := (Qnum (this x) `div` Zpos (Qden (this x)))%Z in
  let r := x - Qc_of_Z f in
  if bool_decide (r < q 1 2) then f
  else if bool_decide (q 1 2 < r) then (f + 1)%Z
  else if Z.even f then f else (f + 1)%Z.

(** The [i]-th point between [[0; 1]] and [[1; 0]] when the segment is cut
    into [div] equal parts. *)
Definition interpolate (div : Qc) (i : nat) : vec :=
  [Qc_of_nat i / div; 1 - Qc_of_nat i / div].

(** ** The scheduler's passes over its agents

    What the scheduler asks of its collaborators, as functions of an
    opaque [world] (the vectorised environment, the random generators, the
    clock) that they may advance. *)
Class Collaborators (world : Type) : Type := {
  (** [self.reward_dim], read from the environment. *)
  reward_dim : nat;
  (** [agent.policy_eval(env, weights=agent.weights, writer)]: the
      discounted reward vector, its fourth result. *)
  policy_eval : world → MOPPO → vec * world;
  (** [agent.train(start_time, iteration, max_iterations)], which updates
      the agent in place. *)
  agent_train : world → Z → Z → MOPPO → MOPPO * world;
  (** [self.archive.evaluations] after [self.archive.add(agent, evaluation)]. *)
  pareto_add : list vec → MOPPO → vec → list vec
}.

Module Scheduler.

Import PGMORL.

(** The scheduler with new values for the attributes its passes assign. *)
Definition update (s : PGMORL.t) (σ : store) (ags : list loc)
    (pop : PerformanceBuffer.t) (archive : list vec)
    (pred : PerformancePredictor.t) (it : Z) : PGMORL.t :=
  {| ref_point := ref_point s; num_envs := num_envs s; pop_size := pop_size s;
     warmup_iterations := warmup_iterations s;
     steps_per_iteration := steps_per_iteration s;
     evolutionary_iterations := evolutionary_iterations s;
     delta_weight := delta_weight s; limit_env_steps := limit_env_steps s;
     max_iterations := max_iterations s;
     iteration := it;
     archive_evaluations := archive;
     population := pop;
     predictor := pred;
     batch_size := batch_size s; minibatch_size := minibatch_size s;
     nets := nets s;
     heap := σ;
     agents := ags |}.

(** [__train_all_agents]: [for i, agent in enumerate(self.agents):
    agent.train(...)]. *)
Fixpoint train_agents {world} `{Collaborators world} (ls : list loc)
    (s : PGMORL.t) (w : world) : PGMORL.t * world :=
  match ls with
  | [] => (s, w)
  | agent :: ls' =>
      let '(trained, w) :=
        agent_train w (iteration s) (max_iterations s) (heap s !!! agent) in
      train_agents ls'
        (update s (<[agent := trained]> (heap s)) (agents s) (population s)
           (archive_evaluations s) (predictor s) (iteration s)) w
  end.

Definition train_all_agents {world} `{Collaborators world} (s : PGMORL.t) (w : world)
    : PGMORL.t * world :=
  train_agents (agents s) s w.

(** The body of the loop of [__eval_all_agents], over
    [enumerate(self.agents)]. *)
Fixpoint eval_agents {world} `{Externals} `{Collaborators world}
    (add_to_prediction : bool) (indexed : list (nat * loc))
    (s : PGMORL.t) (w : world) (evaluations_before_train : list vec)
    : outcome (PGMORL.t * world * list vec) :=
  match indexed with
  | [] => Ret (s, w, evaluations_before_train)
  | (i, agent) :: indexed' =>
      let '(discounted_reward, w) := policy_eval w (heap s !!! agent) in
      '(σ, pop) ← PerformanceBuffer.add (heap s) (population s) agent discounted_reward;
      let archive := pareto_add (archive_evaluations s) (σ !!! agent) discounted_reward in
      pred ←
        (if add_to_prediction then
           match evaluations_before_train !! i with
           | Some before =>
               Ret (PerformancePredictor.add (predictor s) (weights (σ !!! agent))
                      before discounted_reward)
           | None => Raise IndexError
           end
         else Ret (predictor s));
      if decide (i < length evaluations_before_train)%nat then
        eval_agents add_to_prediction indexed'
          (update s σ (agents s) pop archive pred (iteration s)) w
          (<[i := discounted_reward]> evaluations_before_train)
      else Raise IndexError
  end.

Definition eval_all_agents {world} `{Externals} `{Collaborators world}
    (add_to_prediction : bool) (s : PGMORL.t) (w : world)
    (evaluations_before_train : list vec) : outcome (PGMORL.t * world * list vec) :=
  eval_agents add_to_prediction (zip (seq 0 (length (agents s))) (agents s))
    s w evaluations_before_train.

(** [for ...: self.__train_all_agents(); self.iteration += 1], [n] times. *)
Definition train_iterations {world} `{Collaborators world} (n : Z)
    (s : PGMORL.t) (w : world) : PGMORL.t * world :=
  Nat.iter (Z.to_nat n)
    (λ '(s, w),
       let '(s, w) := train_all_agents s w in
       (update s (heap s) (agents s) (population s) (archive_evaluations s)
          (predictor s) (iteration s + 1), w))
    (s, w).

(** One turn of the [while] loop of [train]: selection, a burst of
    training, an evaluation pass. *)
Definition generation {world} `{Externals} `{Collaborators world} (pfuel : nat)
    (s : PGMORL.t) (w : world) (current_evaluations : list vec)
    : outcome (PGMORL.t * world * list vec) :=
  sel ← task_weight_selection pfuel s;
  let s := update s (sel_heap sel) (sel_agents sel) (population s)
             (archive_evaluations s) (predictor s) (iteration s) in
  let '(s, w) := train_iterations (evolutionary_iterations s) s w in
  eval_all_agents true s w current_evaluations.

Fixpoint evolution {world} `{Externals} `{Collaborators world} (fuel pfuel : nat)
    (remaining : Z) (s : PGMORL.t) (w : world) (current_evaluations : list vec)
    : outcome (PGMORL.t * world * list vec) :=
  if decide (iteration s < remaining)%Z then
    match fuel with
    | O => Timeout
    | S fuel' =>
        '(s, w, current_evaluations) ← generation pfuel s w current_evaluations;
        evolution fuel' pfuel remaining s w current_evaluations
    end
  else Ret (s, w, current_evaluations).

(** [train], with a bound [fuel] on the turns of its [while] loop and a
    bound [pfuel] on the expansions of each neighbour search. *)
Definition train {world} `{Externals} `{Collaborators world} (fuel pfuel : nat)
    (s : PGMORL.t) (w : world) : outcome (PGMORL.t * world * list vec) :=
  let current_evaluations :=
    replicate (length (agents s)) (replicate reward_dim (0 : Qc)) in
  '(s, w, current_evaluations) ← eval_all_agents false s w current_evaluations;
  let '(s, w) := train_iterations (warmup_iterations s) s w in
  '(s, w, current_evaluations) ← eval_all_agents true s w current_evaluations;
  evolution fuel pfuel (remaining_iterations s) s w current_evaluations.

End Scheduler.

(** ** More derived notions *)

(** A width or threshold after [k] doublings. *)
Definition doubled (k : nat) (x : Qc) : Qc := Nat.iter k (λ y, y * Qc_of_Z 2) x.

(** Every prior evaluation on record is within the threshold of
    [policy_eval]. *)
Definition all_within (p : PerformancePredictor.t) (policy_eval : vec) (threshold : Qc)
    : Prop :=
  Forall (λ previous_perf,
            PerformancePredictor.in_neighborhood threshold previous_perf policy_eval = true)
         (PerformancePredictor.previous_performance p).

(** The neighbours are samples of the history: one weight, one delta and
    one post-evaluation each, the delta being post minus prior. *)
Definition neighbours_from_history (p : PerformancePredictor.t)
    (nb : PerformancePredictor.neighbors) : Prop :=
  length (PerformancePredictor.neighbor_weights nb)
  = length (PerformancePredictor.neighbor_deltas nb)
  ∧ length (PerformancePredictor.neighbor_deltas nb)
    = length (PerformancePredictor.neighbor_next_perf nb)
  ∧ Forall (λ '(w, delta, next_perf),
              ∃ previous_perf,
                (previous_perf, next_perf, w)
                ∈ zip (zip (PerformancePredictor.previous_performance p)
                           (PerformancePredictor.next_performance p))
                      (PerformancePredictor.used_weight p)
                ∧ delta = vsub next_perf previous_perf)
           (zip (zip (PerformancePredictor.neighbor_weights nb)
                     (PerformancePredictor.neighbor_deltas nb))
                (PerformancePredictor.neighbor_next_perf nb)).

(** The archive holds copies only: its individuals are pairwise distinct
    objects of the store, none of which existed in the store [σ0] the
    agents were in before the first [add]; and the store has only grown. *)
Definition archive_owns_copies (σ0 σ : store) (b : PerformanceBuffer.t) : Prop :=
  σ0 ⊆ σ
  ∧ NoDup (PerformanceBuffer.individuals b)
  ∧ Forall (λ l, is_Some (σ !! l) ∧ σ0 !! l = None) (PerformanceBuffer.individuals b).

(** The score of a predicted evaluation against the speculative front:
    hypervolume minus sparsity of the front extended with it. *)
Definition mixture_metric `{Externals} (s : PGMORL.t) (st : PGMORL.selection)
    (predicted_eval : vec) : Qc :=
  hypervolume (PGMORL.ref_point s) (PGMORL.current_front st ++ [predicted_eval])
  - sparsity (PGMORL.current_front st ++ [predicted_eval]).

(** What holds when the first [k] workers of a generation have been served:
    nothing that was in the store has changed, the slots from [k] on still
    hold their agents, and each slot below [k] holds a new object, a copy
    of an archived individual with the slot's index as identity, a
    candidate weight, and the step counter of the agent that was there. *)
Definition generation_inv (s : PGMORL.t) (candidate_weights : list vec)
    (k : nat) (st : PGMORL.selection) : Prop :=
  PGMORL.heap s ⊆ PGMORL.sel_heap st
  ∧ length (PGMORL.sel_agents st) = length (PGMORL.agents s)
  ∧ (∀ i, (k ≤ i)%nat → PGMORL.sel_agents st !! i = PGMORL.agents s !! i)
  ∧ NoDup (take k (PGMORL.sel_agents st))
  ∧ ∀ (i : nat) (previous : loc) (previous_obj : MOPPO),
      (i < k)%nat → PGMORL.agents s !! i = Some previous →
      PGMORL.heap s !! previous = Some previous_obj →
      ∃ (copy archived : loc) (archived_obj : MOPPO) (w : vec),
        PGMORL.sel_agents st !! i = Some copy
        ∧ PGMORL.heap s !! copy = None
        ∧ archived ∈ PerformanceBuffer.individuals (PGMORL.population s)
        ∧ PGMORL.heap s !! archived = Some archived_obj
        ∧ w ∈ candidate_weights
        ∧ PGMORL.sel_heap st !! copy
          = Some {| id := i; networks := networks archived_obj; weights := w;
                    global_step := global_step previous_obj |}.

(** The agents [ls] evaluated one after the other, as they are in the
    store [σ]: their evaluations and the world after the last one. *)
Fixpoint policy_evals {world} `{Collaborators world} (σ : store) (ls : list loc)
    (w : world) : list vec * world :=
  match ls with
  | [] => ([], w)
  | agent :: ls' =>
      let '(discounted_reward, w) := policy_eval w (σ !!! agent) in
      let '(rewards, w) := policy_evals σ ls' w in
      (discounted_reward :: rewards, w)
  end.

(** [self.archive.evaluations] after a sequence of [self.archive.add] calls
    with agents of the store [σ]. *)
Definition pareto_add_all {world} `{Collaborators world} (σ : store)
    (front : list vec) (calls : list (loc * vec)) : list vec :=
  foldl (λ front '(agent, evaluation), pareto_add front (σ !!! agent) evaluation)
        front calls.

(** The attributes no pass assigns. *)
Definition same_settings (s s' : PGMORL.t) : Prop :=
  PGMORL.max_iterations s' = PGMORL.max_iterations s
  ∧ PGMORL.warmup_iterations s' = PGMORL.warmup_iterations s
  ∧ PGMORL.evolutionary_iterations s' = PGMORL.evolutionary_iterations s
  ∧ PGMORL.delta_weight s' = PGMORL.delta_weight s
  ∧ PGMORL.ref_point s' = PGMORL.ref_point s.

(** ** Scripted collaborators and sample runs

    Stand-ins for the agents' evaluation and training and for the Pareto
    archive, over a world that counts the policy evaluations: an agent's
    evaluation is its weight plus [[1 + global_step; 1]], a training
    iteration adds 1 to [global_step], and the archive keeps every
    evaluation. *)

Definition scripted_collaborators : Collaborators nat :=
  {| reward_dim := 2;
     policy_eval := λ w a,
       (vadd (weights a) [1 + Qc_of_Z (global_step a); 1], S w);
     agent_train := λ w iteration max_iterations a,
       (set_global_step (global_step a + 1) a, w);
     pareto_add := λ front a e, front ++ [e] |}.

(** [PGMORL(delta_weight=1/3, pop_size=4, warmup_iterations=2,
    evolutionary_iterations=2, ...)] with a budget of 6 iterations and a
    one-bin archive: four agents, one generation. *)
Definition small_config : PGMORL.config :=
  {| PGMORL.c_ref_point := [0; 0];
     PGMORL.c_num_envs := 1;
     PGMORL.c_pop_size := 4;
     PGMORL.c_warmup_iterations := 2;
     PGMORL.c_steps_per_iteration := 1;
     PGMORL.c_limit_env_steps := 6;
     PGMORL.c_evolutionary_iterations := 2;
     PGMORL.c_num_performance_buffer := 1;
     PGMORL.c_performance_buffer_size := 2;
     PGMORL.c_delta_weight := q 1 3;
     PGMORL.c_num_minibatches := 1;
     PGMORL.env_given := false;
     PGMORL.action_space_is_box := true |}.

Definition small_scheduler : PGMORL.t :=
  Eval vm_compute in
    match PGMORL.init small_config with
    | Ret s => s
    | _ => sample_state
    end.

(** The same with [delta_weight=1/2]: three agents. *)
Definition narrow_config : PGMORL.config :=
  {| PGMORL.c_ref_point := [0; 0];
     PGMORL.c_num_envs := 1;
     PGMORL.c_pop_size := 3;
     PGMORL.c_warmup_iterations := 2;
     PGMORL.c_steps_per_iteration := 1;
     PGMORL.c_limit_env_steps := 6;
     PGMORL.c_evolutionary_iterations := 2;
     PGMORL.c_num_performance_buffer := 1;
     PGMORL.c_performance_buffer_size := 2;
     PGMORL.c_delta_weight := q 1 2;
     PGMORL.c_num_minibatches := 1;
     PGMORL.env_given := false;
     PGMORL.action_space_is_box := true |}.

Definition narrow_scheduler : PGMORL.t :=
  Eval vm_compute in
    match PGMORL.init narrow_config with
    | Ret s => s
    | _ => sample_state
    end.

(** [sample_state] with one sample fewer on record. *)
Definition starved_state : PGMORL.t :=
  Scheduler.update sample_state (PGMORL.heap sample_state) (PGMORL.agents sample_state)
    (PGMORL.population sample_state) (PGMORL.archive_evaluations sample_state)
    three_samples (PGMORL.iteration sample_state).

(** The first evaluation pass of [small_scheduler] with sampling on, and
    its whole training run. *)
Definition small_evaluated : PGMORL.t * nat * list vec :=
  Eval vm_compute in
    match Scheduler.eval_all_agents (H := scripted) (H0 := scripted_collaborators)
            true small_scheduler 0%nat (replicate 4 [0; 0]) with
    | Ret r => r
    | _ => (small_scheduler, 0%nat, [])
    end.

Definition small_trained : PGMORL.t * nat * list vec :=
  Eval vm_compute in
    match Scheduler.train (H := scripted) (H0 := scripted_collaborators)
            3 10 small_scheduler 0%nat with
    | Ret r => r
    | _ => (small_scheduler, 0%nat, [])
    end.

(** The weights at spacing 1/3, a prediction from [four_samples], and the
    archives after one and three [add] calls. *)
Definition third_weights : list vec :=
  Eval vm_compute in
    match generate_weights (q 1 3) with
    | Ret ws => ws
    | _ => []
    end.

Definition sample_prediction : vec * vec :=
  Eval vm_compute in
    match PerformancePredictor.predict_next_evaluation (H := scripted) 6 four_samples
            [q 1 2; q 1 2] [q 10 1; q 10 1] with
    | Ret r => r
    | _ => ([], [])
    end.

Definition one_bin_added : store * PerformanceBuffer.t :=
  Eval vm_compute in
    match PerformanceBuffer.add (H := scripted) two_agents one_bin 1%positive
            [q 3 1; q 4 1] with
    | Ret r => r
    | _ => (two_agents, one_bin)
    end.

Definition full_bin_added : store * PerformanceBuffer.t :=
  Eval vm_compute in
    match PerformanceBuffer.add (H := scripted) sample_heap full_bin 1%positive
            [0; q 3 1] with
    | Ret r => r
    | _ => (sample_heap, full_bin)
    end.

Definition sample_calls : list (loc * vec) :=
  [(1%positive, [q 3 1; q 4 1]); (2%positive, [q 6 1; q 1 1]);
   (1%positive, [q 7 1; q 2 1])].

Definition constructed_bin_filled : store * PerformanceBuffer.t :=
  Eval vm_compute in
    match add_all (H := scripted) two_agents constructed_bin sample_calls with
    | Ret r => r
    | _ => (two_agents, constructed_bin)
    end.

(** [small_config] with [evolutionary_iterations=0]. *)
Definition stalled_config : PGMORL.config :=
  {| PGMORL.c_ref_point := [0; 0];
     PGMORL.c_num_envs := 1;
     PGMORL.c_pop_size := 4;
     PGMORL.c_warmup_iterations := 2;
     PGMORL.c_steps_per_iteration := 1;
     PGMORL.c_limit_env_steps := 6;
     PGMORL.c_evolutionary_iterations := 0;
     PGMORL.c_num_performance_buffer := 1;
     PGMORL.c_performance_buffer_size := 2;
     PGMORL.c_delta_weight := q 1 3;
     PGMORL.c_num_minibatches := 1;
     PGMORL.env_given := false;
     PGMORL.action_space_is_box := true |}.

Definition stalled_scheduler : PGMORL.t :=
  Eval vm_compute in
    match PGMORL.init stalled_config with
    | Ret s => s
    | _ => sample_state
    end.

(** Two training iterations of [small_scheduler]. *)
Definition small_warmed : PGMORL.t * nat :=
  Eval vm_compute in
    Scheduler.train_iterations (H := scripted_collaborators) 2 small_scheduler 0%nat.

(** * Properties *)

Import PerformancePredictor.

(** ** The predictor's history *)

Section predictor_history.

Lemma record_all_snoc p samples weight before after :
  record_all p (samples ++ [(weight, before, after)])
  = add (record_all p samples) weight before after.
Proof. unfold record_all. by rewrite foldl_app. Qed.

Lemma record_all_lengths samples :
  let p := record_all init samples in
  length (previous_performance p) = length samples
  ∧ length (next_performance p) = length samples
  ∧ length (used_weight p) = length samples.
Proof.
  induction samples as [|[[w b] a] samples IH] using rev_ind; [done|].
  rewrite record_all_snoc. cbn in *. rewrite !length_app. cbn. lia.
Qed.

(** C9. The three histories of the predictor stay parallel: after any
    sequence of [add] calls on a new predictor they have one entry per
    call; a further [add] appends its three arguments, one to each
    history, keeps every earlier entry and every hyperparameter, and
    accepts any vectors (it is a total function that checks nothing). *)
Theorem add_keeps_histories_parallel :
  ∀ (samples : list (vec * vec * vec)) (weight before after : vec),
    let p := record_all init samples in
    let p' := add p weight before after in
    (length (previous_performance p) = length samples
     ∧ length (next_performance p) = length samples
     ∧ length (used_weight p) = length samples)
    ∧ (previous_performance p' = previous_performance p ++ [before]
       ∧ next_performance p' = next_performance p ++ [after]
       ∧ used_weight p' = used_weight p ++ [weight])
    ∧ (length (previous_performance p') = length (next_performance p')
       ∧ length (next_performance p') = length (used_weight p'))
    ∧ (neighborhood_threshold p' = neighborhood_threshold p
       ∧ A_bound_min p' = A_bound_min p ∧ A_bound_max p' = A_bound_max p
       ∧ f_scale p' = f_scale p ∧ sigma p' = sigma p).
Proof.
  intros samples weight before after p p'.
  destruct (record_all_lengths samples) as (Hprev & Hnext & Hused).
  fold p in Hprev, Hnext, Hused.
  repeat split; try done.
  all: subst p'; cbn; rewrite !length_app; cbn; lia.
Qed.

End predictor_history.

(** ** The neighbour search *)

Section neighbour_search.

Lemma zip3_middle (xs ys zs : list vec) a b c :
  (a, b, c) ∈ zip (zip xs ys) zs → b ∈ ys.
Proof.
  intros Hin. apply elem_of_zip_l in Hin. by apply elem_of_zip_r in Hin.
Qed.

Lemma filter_neighbors_inv threshold policy_eval p nb :
  search_inv p nb → search_inv p (filter_neighbors threshold policy_eval p nb).
Proof.
  unfold filter_neighbors.
  assert (Hsub : ∀ x, x ∈ zip (zip (previous_performance p) (next_performance p))
                            (used_weight p) → x.1.2 ∈ next_performance p).
  { intros [[a b] c] Hin. by eapply zip3_middle. }
  revert Hsub nb.
  generalize (zip (zip (previous_performance p) (next_performance p)) (used_weight p)).
  intros l. induction l as [|[[previous_perf next_perf] w] l IH]; intros Hsub nb Hinv; [done|].
  cbn. apply IH.
  { intros x Hx. apply Hsub. by right. }
  destruct (in_neighborhood _ _ _); cbn; [|done].
  case_bool_decide as Hnew; cbn; [|done].
  destruct Hinv as (Hnd & Hin & Hlen). repeat split; cbn.
  - apply NoDup_app. repeat split; [done| |apply NoDup_singleton].
    intros x Hx ->%list_elem_of_singleton. done.
  - intros x [Hx| ->%list_elem_of_singleton]%elem_of_app; [by apply Hin|].
    apply (Hsub (previous_perf, next_perf, w)). by left.
  - rewrite !length_app, Hlen. done.
Qed.

Lemma search_inv_bound p nb :
  search_inv p nb → (length (neighbor_weights nb) ≤ distinct_posts p)%nat.
Proof.
  intros (Hnd & Hin & ->). unfold distinct_posts.
  apply submseteq_length, NoDup_submseteq; [done|].
  intros x Hx. apply elem_of_remove_dups. by apply Hin.
Qed.

(** With fewer than four distinct post-evaluations in the history, the
    guard of the loop holds after every pass. *)
Lemma expand_neighborhood_timeout fuel p policy_eval s threshold nb :
  (distinct_posts p < 4)%nat → search_inv p nb →
  expand_neighborhood fuel p policy_eval s threshold nb = Timeout.
Proof.
  intros Hfew. revert s threshold nb.
  induction fuel as [|fuel IH]; intros s threshold nb Hinv; cbn.
  - rewrite bool_decide_eq_true_2; [done|].
    pose proof (search_inv_bound _ _ Hinv). lia.
  - rewrite bool_decide_eq_true_2.
    + apply IH. by apply filter_neighbors_inv.
    + pose proof (search_inv_bound _ _ Hinv). lia.
Qed.

Lemma search_inv_start p : search_inv p no_neighbors.
Proof. repeat split; cbn; [apply NoDup_nil_2|by intros x ?%elem_of_nil]. Qed.

Lemma predict_timeout `{Externals} fuel p weight_candidate policy_eval :
  (distinct_posts p < 4)%nat →
  predict_next_evaluation fuel p weight_candidate policy_eval = Timeout.
Proof.
  intros Hfew. unfold predict_next_evaluation.
  by rewrite expand_neighborhood_timeout by auto using search_inv_start.
Qed.

(** C1 (as the code has it).  With fewer than four pairwise-distinct
    post-evaluations in a history whose evaluations and weights have the
    shape of [policy_eval], [predict_next_evaluation] raises nothing and
    returns nothing: whatever the number of neighbourhood expansions
    allowed, the search is still running when they are used up.  (On a
    prior of another shape the subtraction in the neighbourhood test
    raises [ValueError], which the shape hypothesis excludes.) *)
Theorem predict_never_stops_below_four_samples `{Externals} :
  ∀ (fuel : nat) (p : t) (weight_candidate policy_eval : vec),
    well_shaped (length policy_eval) p →
    (distinct_posts p < 4)%nat →
    predict_next_evaluation fuel p weight_candidate policy_eval = Timeout.
Proof. intros fuel p weight_candidate policy_eval _ Hfew. by apply predict_timeout. Qed.

End neighbour_search.

Lemma predict_never_stops_witness :
  predict_next_evaluation (H := scripted) 1000 three_samples [q 1 2; q 1 2]
    [q 10 1; q 10 1]
  = Timeout.
Proof.
  apply (predict_never_stops_below_four_samples (H := scripted)
           1000 three_samples [q 1 2; q 1 2] [q 10 1; q 10 1]).
  - apply (bool_decide_unpack _). by vm_compute.
  - vm_compute. lia.
Defined.

(** C1, the claim as stated fails: with the three recorded samples of
    [three_samples], no number of expansions makes the call stop, be it
    with an error or with a result. *)
Lemma predict_three_samples_never_raises :
  ¬ ∃ fuel : nat,
      predict_next_evaluation (H := scripted) fuel three_samples
        [q 1 2; q 1 2] [q 10 1; q 10 1] ≠ Timeout.
Proof.
  intros [fuel Hstop]. apply Hstop, predict_timeout. vm_compute. lia.
Qed.

(** ** The outcome monad *)

Lemma bind_Ret {A B} (m : outcome A) (f : A → outcome B) (b : B) :
  m ≫= f = Ret b → ∃ a, m = Ret a ∧ f a = Ret b.
Proof. destruct m as [a| |]; cbn; [eauto|done|done]. Qed.

Tactic Notation "inv_bind" hyp(H) "as" simple_intropattern(a) ident(Hm) :=
  apply bind_Ret in H as (a & Hm & H); cbn beta iota in H.

(** ** generate_weights *)

Section weights.

Lemma py_int_ge_1 (x : Qc) : 1 ≤ x → (1 ≤ py_int x)%Z.
Proof.
  intros Hx. unfold py_int. destruct x as [[n d] Hc]. cbn in *.
  unfold Qcle, Qle in Hx. cbn in Hx.
  change (Qnum (Qred 1)) with 1%Z in Hx. change (QDen (Qred 1)) with 1%Z in Hx.
  apply Z.quot_le_lower_bound; lia.
Qed.

Lemma Qc_inv_ge_1 (d : Qc) : 0 < d → d ≤ 1 → 1 ≤ 1 / d.
Proof.
  intros H0 H1. unfold Qcdiv.
  rewrite <- (Qcmult_inv_r d) at 1.
  - apply Qcmult_le_mono_nonneg_r; [|done]. apply Qclt_le_weak, Qcinv_pos, H0.
  - by apply not_eq_sym, Qclt_not_eq.
Qed.

Lemma Qc_of_nat_lt (n m : nat) : (n < m)%nat → Qc_of_nat n < Qc_of_nat m.
Proof. intros. apply (Z2Qc_inj_lt (Z.of_nat n) (Z.of_nat m)). lia. Qed.

Lemma Qc_of_nat_pos (n : nat) : (0 < n)%nat → 0 < Qc_of_nat n.
Proof. apply (Qc_of_nat_lt 0 n). Qed.

Lemma Qc_of_nat_nonzero (n : nat) : (0 < n)%nat → Qc_of_nat n ≠ 0.
Proof. intros. by apply not_eq_sym, Qclt_not_eq, Qc_of_nat_pos. Qed.

(** With at least two samples, [linspace] between the two pure weights is
    the list of interpolation points: the overwritten last sample is the
    value the formula gives. *)
Lemma linspace_unit (n : nat) :
  (2 ≤ n)%nat →
  linspace [0; 1] [1; 0] (Z.of_nat n)
  = Ret (interpolate (Qc_of_nat (n - 1)) <$> seq 0 n).
Proof.
  intros Hn. unfold linspace.
  rewrite decide_False by lia. rewrite Nat2Z.id.
  rewrite decide_True by lia. f_equal.
  pose proof (Qc_of_nat_nonzero (n - 1) ltac:(lia)) as Hdiv.
  apply list_eq. intros i.
  destruct (decide (i = n - 1)%nat) as [->|Hne].
  - rewrite list_lookup_insert_eq by (rewrite length_fmap, length_seq; lia).
    rewrite list_lookup_fmap, lookup_seq_lt by lia. cbn.
    unfold interpolate. do 2 f_equal; [|f_equal]; field; done.
  - rewrite list_lookup_insert_ne by done.
    rewrite !list_lookup_fmap. destruct (seq 0 n !! i) as [k|]; [|done]. cbn.
    unfold interpolate. do 2 f_equal; [|f_equal]; unfold Qcdiv; ring.
Qed.

Lemma linspace_length start stop num ws :
  linspace start stop num = Ret ws → Z.of_nat (length ws) = num.
Proof.
  unfold linspace. case_decide; [done|]. intros [= <-].
  case_decide; rewrite ?length_insert, length_fmap, length_seq; lia.
Qed.

Lemma generate_weights_length d ws :
  generate_weights d = Ret ws → Z.of_nat (length ws) = (py_int (1 / d) + 1)%Z.
Proof. unfold generate_weights. case_decide; [done|]. apply linspace_length. Qed.

Lemma generate_weights_unit (d : Qc) :
  0 < d → d ≤ 1 →
  ∃ n : nat, (2 ≤ n)%nat ∧ Z.of_nat n = (py_int (1 / d) + 1)%Z
    ∧ generate_weights d = Ret (interpolate (Qc_of_nat (n - 1)) <$> seq 0 n).
Proof.
  intros Hpos Hle.
  pose proof (py_int_ge_1 _ (Qc_inv_ge_1 d Hpos Hle)) as Hint.
  exists (Z.to_nat (py_int (1 / d) + 1)). split; [lia|]. split; [lia|].
  unfold generate_weights.
  rewrite decide_False by (by apply not_eq_sym, Qclt_not_eq).
  rewrite <- linspace_unit by lia. f_equal. lia.
Qed.

(** C3 (as the code has it).  For a spacing [0 < d ≤ 1], [generate_weights]
    returns [int(1/d) + 1] weight vectors (the quotient is truncated, not
    rounded); each has two components that sum to 1 within the tolerance,
    whatever positive tolerance is chosen; the first is [[0; 1]], the last
    is [[1; 0]], and the first components increase along the sequence. *)
Theorem generate_weights_interpolates :
  ∀ d tolerance : Qc, 0 < d → d ≤ 1 → 0 < tolerance →
    ∃ ws : list vec,
      generate_weights d = Ret ws
      ∧ Z.of_nat (length ws) = (py_int (1 / d) + 1)%Z
      ∧ Forall (λ w : vec, ∃ a b, w = [a; b] ∧ Qcabs (a + b - 1) < tolerance) ws
      ∧ head ws = Some [0; 1]
      ∧ last ws = Some [1; 0]
      ∧ ∀ (i j : nat) (wi wj : vec),
          (i < j)%nat → ws !! i = Some wi → ws !! j = Some wj →
          default 0 (head wi) < default 0 (head wj).
Proof.
  intros d tolerance Hpos Hle Htol.
  destruct (generate_weights_unit d Hpos Hle) as (n & Hn & Hlen & Hgen).
  pose proof (Qc_of_nat_nonzero (n - 1) ltac:(lia)) as Hdiv.
  eexists. split; [exact Hgen|].
  split; [rewrite length_fmap, length_seq; done|].
  split; [|split; [|split]].
  - apply Forall_fmap, Forall_forall. intros i _. cbn.
    eexists _, _. split; [reflexivity|].
    match goal with |- Qcabs ?x < _ => replace x with (Q2Qc 0) by ring end.
    by rewrite (Qcabs_pos 0) by apply Qcle_refl.
  - destruct n as [|n]; [lia|]. cbn. unfold interpolate.
    change (Qc_of_nat 0) with (Qc_of_Z 0). rewrite Z2Qc_inj_0.
    do 2 f_equal; unfold Qcdiv; ring.
  - rewrite last_lookup, length_fmap, length_seq, list_lookup_fmap.
    rewrite lookup_seq_lt by lia. cbn. replace (Nat.pred n) with (n - 1)%nat by lia.
    unfold interpolate. do 2 f_equal; [|f_equal]; field; done.
  - intros i j wi wj Hij Hi Hj.
    rewrite list_lookup_fmap in Hi, Hj.
    destruct (seq 0 n !! i) as [i'|] eqn:Ei; [|done].
    destruct (seq 0 n !! j) as [j'|] eqn:Ej; [|done].
    apply lookup_seq in Ei as [-> _]. apply lookup_seq in Ej as [-> _].
    cbn in Hi, Hj. injection Hi as <-. injection Hj as <-. cbn.
    unfold Qcdiv. apply Qcmult_lt_compat_r.
    + apply Qcinv_pos, Qc_of_nat_pos. lia.
    + apply Qc_of_nat_lt. lia.
Qed.

End weights.

Lemma generate_weights_interpolates_witness :
  ∃ ws : list vec,
    generate_weights (q 1 5) = Ret ws
    ∧ Z.of_nat (length ws) = (py_int (1 / q 1 5) + 1)%Z
    ∧ Forall (λ w : vec, ∃ a b, w = [a; b] ∧ Qcabs (a + b - 1) < q 1 1000000) ws
    ∧ head ws = Some [0; 1]
    ∧ last ws = Some [1; 0]
    ∧ ∀ (i j : nat) (wi wj : vec),
        (i < j)%nat → ws !! i = Some wi → ws !! j = Some wj →
        default 0 (head wi) < default 0 (head wj).
Proof.
  apply (generate_weights_interpolates (q 1 5) (q 1 1000000)); by vm_compute.
Defined.

(** The spacing 0.5 gives the three weights [[0, 1], [0.5, 0.5], [1, 0]]. *)
Example generate_weights_half :
  generate_weights (q 1 2) = Ret [[0; 1]; [q 1 2; q 1 2]; [1; 0]].
Proof. apply (bool_decide_unpack _). by vm_compute. Qed.

(** C3, the claim as stated fails: for the spacing 0.6 the quotient 1/0.6
    truncates to 1 and rounds to 2, and [generate_weights] returns the two
    vectors of the truncation, not the three of the rounding. *)
Lemma generate_weights_truncates_not_rounds :
  ¬ ∀ ws : list vec,
      generate_weights (q 3 5) = Ret ws →
      Z.of_nat (length ws) = (py_round (1 / q 3 5) + 1)%Z.
Proof.
  intros Hclaim.
  destruct (generate_weights (q 3 5)) as [ws| |] eqn:Hgen; [|by vm_compute in Hgen..].
  specialize (Hclaim ws eq_refl).
  apply generate_weights_length in Hgen. rewrite Hgen in Hclaim.
  by vm_compute in Hclaim.
Qed.

(** ** The constructor *)

Section constructor.

Import PGMORL.

Lemma make_agents_length nets weights indices σ ls σ' :
  make_agents nets weights indices σ = Ret (ls, σ') → length ls = length indices.
Proof.
  revert σ ls σ'. induction indices as [|i indices IH]; intros σ ls σ' Hrun; cbn in Hrun.
  - by injection Hrun as <- <-.
  - destruct (nets !! i); [|done]. destruct (weights !! i); [|done].
    inv_bind Hrun as [ls' σ''] Hrest. injection Hrun as <- <-.
    cbn. f_equal. by eapply IH.
Qed.

Lemma init_agents c s :
  init c = Ret s →
  ∃ weights : list vec,
    generate_weights (c_delta_weight c) = Ret weights
    ∧ length (agents s) = length weights
    ∧ pop_size s = Z.of_nat (length weights).
Proof.
  unfold init. intros Hrun.
  destruct (action_space_is_box c); [cbn in Hrun|done].
  inv_bind Hrun as steps Hsteps. inv_bind Hrun as max_it Hmax.
  inv_bind Hrun as buffer Hbuffer. inv_bind Hrun as minibatch Hminibatch.
  destruct (env_given c); [done|].
  inv_bind Hrun as weights Hweights. inv_bind Hrun as [ls σ] Hagents.
  injection Hrun as <-. cbn.
  exists weights. split; [done|]. split; [|done].
  apply make_agents_length in Hagents. by rewrite Hagents, length_seq.
Qed.

(** C10. After construction the population has as many agents as
    [generate_weights(delta_weight)] has weights, that is
    [int(1 / delta_weight) + 1]; [self.pop_size] holds that count, and two
    constructions that differ in the [pop_size] argument (or in anything
    but [delta_weight]) have the same number of agents. *)
Theorem init_population_follows_delta_weight :
  ∀ (c : config) (s : t),
    init c = Ret s →
    Z.of_nat (length (agents s)) = (py_int (1 / c_delta_weight c) + 1)%Z
    ∧ pop_size s = Z.of_nat (length (agents s))
    ∧ ∀ (c' : config) (s' : t),
        c_delta_weight c' = c_delta_weight c → init c' = Ret s' →
        length (agents s') = length (agents s).
Proof.
  intros c s Hinit.
  destruct (init_agents c s Hinit) as (ws & Hgen & Hlen & Hpop).
  apply generate_weights_length in Hgen.
  split; [by rewrite Hlen|]. split; [by rewrite Hlen|].
  intros c' s' Hdelta Hinit'.
  destruct (init_agents c' s' Hinit') as (ws' & Hgen' & Hlen' & _).
  apply generate_weights_length in Hgen'. rewrite Hdelta in Hgen'. lia.
Qed.

End constructor.

Lemma init_population_witness :
  Z.of_nat (length (PGMORL.agents wide_scheduler))
  = (py_int (1 / PGMORL.c_delta_weight wide_config) + 1)%Z
  ∧ PGMORL.pop_size wide_scheduler
    = Z.of_nat (length (PGMORL.agents wide_scheduler))
  ∧ ∀ (c' : PGMORL.config) (s' : PGMORL.t),
      PGMORL.c_delta_weight c' = PGMORL.c_delta_weight wide_config →
      PGMORL.init c' = Ret s' →
      length (PGMORL.agents s') = length (PGMORL.agents wide_scheduler).
Proof.
  apply (init_population_follows_delta_weight wide_config wide_scheduler).
  by vm_compute.
Defined.

(** With [pop_size=9] and the default [delta_weight=0.2] the constructor
    builds nine networks and six agents, and [self.pop_size] ends as 6. *)
Example init_overwrites_pop_size :
  PGMORL.c_pop_size wide_config = 9%Z
  ∧ length (PGMORL.nets wide_scheduler) = 9%nat
  ∧ length (PGMORL.agents wide_scheduler) = 6%nat
  ∧ PGMORL.pop_size wide_scheduler = 6%Z.
Proof. by vm_compute. Qed.

(** With [pop_size=3] the constructor fails on [self.networks[3]]. *)
Example init_too_few_networks :
  PGMORL.init
    {| PGMORL.c_ref_point := [0; Qc_of_Z (-5)]; PGMORL.c_num_envs := 4;
       PGMORL.c_pop_size := 3; PGMORL.c_warmup_iterations := 80;
       PGMORL.c_steps_per_iteration := 2048; PGMORL.c_limit_env_steps := 5000000;
       PGMORL.c_evolutionary_iterations := 20;
       PGMORL.c_num_performance_buffer := 100;
       PGMORL.c_performance_buffer_size := 2;
       PGMORL.c_delta_weight := q 1 5; PGMORL.c_num_minibatches := 32;
       PGMORL.env_given := false; PGMORL.action_space_is_box := true |}
  = Raise IndexError.
Proof. by vm_compute. Qed.

(** ** The iteration counter of [train] *)

Section train_counter.

Import PGMORL.

Lemma run_iterations_add n iteration :
  run_iterations n iteration = (iteration + 0 `max` n)%Z.
Proof.
  unfold run_iterations.
  replace (0 `max` n)%Z with (Z.of_nat (Z.to_nat n)) by lia.
  induction (Z.to_nat n) as [|k IH]; [cbn; lia|].
  rewrite Nat.iter_succ, IH. lia.
Qed.

(** With a positive number of iterations per generation the loop ends: it
    returns the first counter value, counted in whole generations from
    its start, that is not below [remaining_iterations]. *)
Lemma evolution_loop_terminates s fuel iteration :
  (0 < evolutionary_iterations s)%Z →
  (remaining_iterations s - iteration ≤ Z.of_nat fuel)%Z →
  ∃ n : Z,
    evolution_loop fuel s iteration = Ret n
    ∧ (remaining_iterations s ≤ n)%Z
    ∧ (remaining_iterations s ≤ iteration ∧ n = iteration
       ∨ iteration < remaining_iterations s
         ∧ n < remaining_iterations s + evolutionary_iterations s)%Z.
Proof.
  intros Hevo. revert iteration.
  induction fuel as [|fuel IH]; intros iteration Hfuel; cbn.
  - rewrite decide_False by lia. exists iteration. split; [done|]. lia.
  - case_decide as Hguard.
    + destruct (IH (run_iterations (evolutionary_iterations s) iteration))
        as (n & Hrun & Hge & Hlt).
      { rewrite run_iterations_add. lia. }
      exists n. split; [done|]. split; [done|].
      rewrite run_iterations_add in Hlt. lia.
    + exists iteration. split; [done|]. lia.
Qed.

(** The guard compares the absolute counter, warm-up included, with the
    budget less the warm-up: when a generation is no longer than the
    warm-up, [train] is over strictly before the counter reaches
    [max_iterations]. *)
Lemma train_exits_below_budget s :
  iteration s = 0%Z →
  (0 < evolutionary_iterations s ≤ warmup_iterations s)%Z →
  (warmup_iterations s < max_iterations s)%Z →
  ∃ (fuel : nat) (n : Z), train fuel s = Ret n ∧ (n < max_iterations s)%Z.
Proof.
  intros Hstart [Hevo Hle] Hbudget. unfold train.
  rewrite Hstart, run_iterations_add.
  set (start := (0 + 0 `max` warmup_iterations s)%Z).
  destruct (evolution_loop_terminates s
              (Z.to_nat (remaining_iterations s - start)) start)
    as (n & Hrun & Hge & Hlt); [done|lia|].
  exists (Z.to_nat (remaining_iterations s - start)), n. split; [done|].
  subst start. unfold remaining_iterations in *. lia.
Qed.

(** C4, the defect.  With the default arguments the step budget is
    [5000000 // 2048 // 4 = 610] iterations; [train] leaves its loop with
    the counter at 540, seventy iterations short of the budget. *)
Theorem train_stops_before_budget :
  max_iterations default_scheduler = 610%Z
  ∧ remaining_iterations default_scheduler = 530%Z
  ∧ train 23 default_scheduler = Ret 540%Z.
Proof. by vm_compute. Qed.

End train_counter.

(** ** The performance buffer *)

Section performance_buffer.

Import PerformanceBuffer.
Context `{Externals}.

(** The scan of a whole bin finds what [list_find] finds: the first
    occupant weaker than the candidate. *)
Lemma first_weaker_from b evaluation (before evals : list vec) :
  first_weaker b (before ++ evals) (center_eval b evaluation)
    (seq (length before) (length evals))
  = Ret ((λ hit : nat * vec, (length before + hit.1)%nat)
         <$> list_find (weaker_than b evaluation) evals).
Proof.
  revert before. induction evals as [|e evals IH]; intros before; [done|].
  cbn [length seq first_weaker list_find].
  rewrite lookup_app_r, Nat.sub_diag by done. cbn [lookup list_lookup].
  unfold norm_lt. destruct (decide (weaker_than b evaluation e)) as [Hw|Hw].
  - rewrite bool_decide_eq_true_2 by done. cbn. do 2 f_equal. lia.
  - rewrite bool_decide_eq_false_2 by done.
    specialize (IH (before ++ [e])).
    rewrite <- app_assoc, length_app in IH. cbn in IH.
    rewrite Nat.add_1_r in IH. rewrite IH.
    destruct (list_find _ evals) as [[i x]|]; cbn; [|done]. do 2 f_equal. lia.
Qed.

Lemma first_weaker_find b evaluation (evals : list vec) :
  first_weaker b evals (center_eval b evaluation) (seq 0 (length evals))
  = Ret (fst <$> list_find (weaker_than b evaluation) evals).
Proof.
  etrans; [exact (first_weaker_from b evaluation [] evals)|].
  by destruct (list_find _ evals) as [[i x]|].
Qed.

(** C7. An [add] whose bin index falls outside [[0, num_bins)] returns
    normally and leaves the store and the whole archive as they were. *)
Theorem add_out_of_range_is_noop :
  ∀ (σ : store) (b : t) (candidate : loc) (evaluation : vec),
    (angle_bin (num_bins b) (center_eval b evaluation) < 0
     ∨ Z.of_nat (num_bins b) ≤ angle_bin (num_bins b) (center_eval b evaluation))%Z →
    add σ b candidate evaluation = Ret (σ, b).
Proof. intros σ b candidate evaluation Hout. unfold add. by rewrite decide_True. Qed.

Lemma init_wf num_bins max_size ref_point b :
  init num_bins max_size ref_point = Ret b →
  buffer_wf b ∧ PerformanceBuffer.num_bins b = num_bins
  ∧ PerformanceBuffer.max_size b = max_size.
Proof.
  unfold init. case_decide; [done|]. intros [= <-]. cbn.
  repeat split; cbn; [by rewrite length_replicate|].
  apply Forall2_replicate. cbn. split; [done|lia].
Qed.

(** On a well-formed archive [add] never raises, and the archive it
    returns is well formed, with the same sectors and capacity. *)
Lemma add_wf σ b candidate evaluation :
  buffer_wf b →
  ∃ σ' b', add σ b candidate evaluation = Ret (σ', b')
    ∧ buffer_wf b' ∧ num_bins b' = num_bins b ∧ max_size b' = max_size b.
Proof.
  intros [Hlen Hbins]. unfold add.
  set (buffer_id := angle_bin _ _).
  case_decide as Hrange; [by exists σ, b|].
  set (k := Z.to_nat buffer_id).
  destruct (lookup_lt_is_Some_2 (bins b) k) as [bin Hbin]; [lia|].
  destruct (Forall2_lookup_l _ _ _ _ _ Hbins Hbin) as (evals & Hevals & Hsame & Hcap).
  rewrite Hbin, Hevals.
  case_decide as Hspare.
  - destruct (deepcopy σ candidate) as [copy σ'].
    eexists _, _. split; [done|]. split; [|done].
    split; cbn; [by rewrite length_insert|].
    apply Forall2_insert; [done|]. rewrite !length_app. cbn. lia.
  - rewrite Hsame, first_weaker_find.
    destruct (list_find _ evals) as [[i x]|]; cbn; [|by exists σ, b].
    destruct (deepcopy σ candidate) as [copy σ'].
    eexists _, _. split; [done|]. split; [|done].
    split; cbn; [by rewrite length_insert|].
    apply Forall2_insert; [done|]. rewrite !length_insert. lia.
Qed.

Lemma add_all_wf σ b calls :
  buffer_wf b →
  ∃ σ' b', add_all σ b calls = Ret (σ', b')
    ∧ buffer_wf b' ∧ num_bins b' = num_bins b ∧ max_size b' = max_size b.
Proof.
  revert σ b. induction calls as [|[candidate evaluation] calls IH]; intros σ b Hwf.
  - by exists σ, b.
  - destruct (add_wf σ b candidate evaluation Hwf) as (σ1 & b1 & Hadd & Hwf1 & Hn & Hm).
    destruct (IH σ1 b1 Hwf1) as (σ2 & b2 & Hrest & Hwf2 & Hn2 & Hm2).
    exists σ2, b2. cbn. rewrite Hadd. cbn. split; [done|]. split; [done|].
    split; congruence.
Qed.

(** C6. An archive constructed with [num_bins] bins of capacity
    [max_size] takes any sequence of [add] calls without raising, and
    afterwards still has [num_bins] bins, none of which (nor its list of
    evaluations) holds more than [max_size] entries. *)
Theorem bins_never_exceed_max_size :
  ∀ (num_bins max_size : nat) (ref_point : vec) (b0 : t) (σ : store)
    (calls : list (loc * vec)),
    init num_bins max_size ref_point = Ret b0 →
    ∃ (σ' : store) (b' : t),
      add_all σ b0 calls = Ret (σ', b')
      ∧ length (bins b') = num_bins
      ∧ length (bins_evals b') = num_bins
      ∧ Forall (λ bin, (length bin ≤ max_size)%nat) (bins b')
      ∧ Forall (λ evals, (length evals ≤ max_size)%nat) (bins_evals b').
Proof.
  intros num_bins max_size ref_point b0 σ calls Hinit.
  destruct (init_wf _ _ _ _ Hinit) as (Hwf0 & Hn0 & Hm0).
  destruct (add_all_wf σ b0 calls Hwf0) as (σ' & b' & Hrun & [Hlen Hbins] & Hn & Hm).
  exists σ', b'. split; [done|].
  split; [congruence|].
  split; [rewrite <- (Forall2_length _ _ _ Hbins); congruence|].
  rewrite <- Hm0, <- Hm. split.
  - eapply Forall2_Forall_l; [exact Hbins|]. apply Forall_true. by intros ?? [_ ?].
  - eapply Forall2_Forall_r; [exact Hbins|]. apply Forall_true. by intros ?? [<- ?].
Qed.

Lemma weakest_from_min b i cur evals :
  let r := weakest_from b i cur evals in
  (r.2 = cur.2 ∨ r.2 ∈ evals)
  ∧ norm_sq (center_eval b r.2) ≤ norm_sq (center_eval b cur.2)
  ∧ ∀ y, y ∈ evals → norm_sq (center_eval b r.2) ≤ norm_sq (center_eval b y).
Proof.
  revert i cur. induction evals as [|e evals IH]; intros i cur; cbn.
  - split; [by left|]. split; [apply Qcle_refl|]. by intros y ?%elem_of_nil.
  - unfold norm_lt. case_bool_decide as Hlt.
    + destruct (IH (S i) (i, e)) as (Hin & Hle & Hmin). cbn in *.
      split; [right; destruct Hin as [->|Hin]; [by left|by right]|].
      split; [by eapply Qcle_trans, Qclt_le_weak|].
      intros y [->|Hy]%elem_of_cons; [done|by apply Hmin].
    + destruct (IH (S i) cur) as (Hin & Hle & Hmin).
      split; [destruct Hin as [Heq|Hin]; [by left|by right; right]|].
      split; [done|].
      intros y [->|Hy]%elem_of_cons; [|by apply Hmin].
      eapply Qcle_trans; [exact Hle|]. by apply Qcnot_lt_le.
Qed.

(** The occupant [weakest] returns is in the bin and has the smallest
    centred norm there. *)
Lemma weakest_min b evals i e :
  weakest b evals = Some (i, e) →
  e ∈ evals
  ∧ ∀ y, y ∈ evals → norm_sq (center_eval b e) ≤ norm_sq (center_eval b y).
Proof.
  destruct evals as [|e0 evals]; [done|]. cbn. intros [= Hr].
  destruct (weakest_from_min b 1 (0%nat, e0) evals) as (Hin & Hle & Hmin).
  rewrite Hr in Hin, Hle, Hmin. cbn in *. split.
  - destruct Hin as [->|Hin]; [by left|by right].
  - intros y [->|Hy]%elem_of_cons; [done|by apply Hmin].
Qed.

(** C2 (as the code has it).  When the target bin [k] is full, [add]
    replaces the first occupant, in bin order, whose centred norm is
    smaller than the candidate's, by a copy of the candidate with its
    evaluation; when no occupant has a smaller norm, the store and the
    archive are unchanged.  A replacement happens exactly when the
    smallest centred norm in the bin is smaller than the candidate's. *)
Theorem add_full_bin_replaces_first_weaker :
  ∀ (σ : store) (b : t) (candidate : loc) (evaluation : vec)
    (k : nat) (bin : list loc) (evals : list vec),
    angle_bin (num_bins b) (center_eval b evaluation) = Z.of_nat k →
    (k < num_bins b)%nat →
    bins b !! k = Some bin →
    bins_evals b !! k = Some evals →
    length evals = length bin →
    (max_size b ≤ length bin)%nat →
    (∀ (i : nat) (e : vec),
       evals !! i = Some e → weaker_than b evaluation e →
       (∀ (j : nat) (y : vec), evals !! j = Some y → (j < i)%nat →
                               ¬ weaker_than b evaluation y) →
       add σ b candidate evaluation
       = Ret ((deepcopy σ candidate).2,
              {| num_bins := num_bins b; max_size := max_size b; origin := origin b;
                 bins := <[k := <[i := (deepcopy σ candidate).1]> bin]> (bins b);
                 bins_evals := <[k := <[i := evaluation]> evals]> (bins_evals b) |}))
    ∧ ((∀ e : vec, e ∈ evals → ¬ weaker_than b evaluation e) →
       add σ b candidate evaluation = Ret (σ, b))
    ∧ ((∃ e : vec, e ∈ evals ∧ weaker_than b evaluation e)
       ↔ (∃ (i : nat) (e : vec),
            weakest b evals = Some (i, e) ∧ weaker_than b evaluation e)).
Proof.
  intros σ b candidate evaluation k bin evals Hid Hk Hbin Hevals Hsame Hfull.
  assert (Hadd : add σ b candidate evaluation
                 = found ← Ret (fst <$> list_find (weaker_than b evaluation) evals);
                   match found with
                   | None => Ret (σ, b)
                   | Some i =>
                       let '(copy, σ') := deepcopy σ candidate in
                       Ret (σ', {| num_bins := num_bins b; max_size := max_size b;
                                   origin := origin b;
                                   bins := <[k := <[i := copy]> bin]> (bins b);
                                   bins_evals :=
                                     <[k := <[i := evaluation]> evals]> (bins_evals b) |})
                   end).
  { unfold add. rewrite Hid, decide_False by lia.
    rewrite Nat2Z.id, Hbin, Hevals, decide_False by lia.
    by rewrite <- Hsame, first_weaker_find. }
  split; [|split].
  - intros i e Hi Hweak Hfirst.
    assert (list_find (weaker_than b evaluation) evals = Some (i, e)) as Hfind.
    { apply list_find_Some. eauto. }
    rewrite Hadd, Hfind. cbn. by destruct (deepcopy σ candidate).
  - intros Hnone.
    assert (list_find (weaker_than b evaluation) evals = None) as Hfind.
    { apply list_find_None, Forall_forall. eauto. }
    by rewrite Hadd, Hfind.
  - split.
    + intros (e & Hin & Hweak).
      destruct (weakest b evals) as [[i m]|] eqn:Hm.
      * exists i, m. split; [done|].
        destruct (weakest_min b evals i m Hm) as [_ Hmin].
        unfold weaker_than in *. eapply Qcle_lt_trans; [by apply Hmin|done].
      * destruct evals; [by apply elem_of_nil in Hin|done].
    + intros (i & e & Hm & Hweak).
      exists e. split; [|done]. by destruct (weakest_min b evals i e Hm).
Qed.

End performance_buffer.

Lemma add_out_of_range_witness :
  PerformanceBuffer.add (H := scripted) two_agents one_bin 1%positive [q 3 1; 0]
  = Ret (two_agents, one_bin).
Proof.
  apply (add_out_of_range_is_noop (H := scripted) two_agents one_bin 1%positive [q 3 1; 0]).
  right. by vm_compute.
Defined.

Lemma bins_never_exceed_witness :
  ∃ (σ' : store) (b' : PerformanceBuffer.t),
    add_all (H := scripted) two_agents constructed_bin
      [(1%positive, [q 3 1; q 4 1]); (2%positive, [q 6 1; q 1 1]);
       (1%positive, [q 7 1; q 2 1]); (2%positive, [q 1 1; q (-6) 1])]
    = Ret (σ', b')
    ∧ length (PerformanceBuffer.bins b') = 1%nat
    ∧ length (PerformanceBuffer.bins_evals b') = 1%nat
    ∧ Forall (λ bin, (length bin ≤ 2)%nat) (PerformanceBuffer.bins b')
    ∧ Forall (λ evals, (length evals ≤ 2)%nat) (PerformanceBuffer.bins_evals b').
Proof.
  apply (bins_never_exceed_max_size (H := scripted) 1 2 [0; Qc_of_Z (-5)]
           constructed_bin two_agents).
  by vm_compute.
Defined.

Lemma add_full_bin_witness :
  PerformanceBuffer.add (H := scripted) sample_heap full_bin 1%positive [0; q 3 1]
  = Ret ((deepcopy sample_heap 1%positive).2,
         {| PerformanceBuffer.num_bins := 1; PerformanceBuffer.max_size := 2;
            PerformanceBuffer.origin := [0; 0];
            PerformanceBuffer.bins :=
              <[0%nat := <[0%nat := (deepcopy sample_heap 1%positive).1]>
                           [3%positive; 4%positive]]>
                (PerformanceBuffer.bins full_bin);
            PerformanceBuffer.bins_evals :=
              <[0%nat := <[0%nat := [0; q 3 1]]> [[0; q 2 1]; [0; 1]]]>
                (PerformanceBuffer.bins_evals full_bin) |}).
Proof.
  destruct (add_full_bin_replaces_first_weaker (H := scripted) sample_heap full_bin
              1%positive [0; q 3 1] 0 [3%positive; 4%positive] [[0; q 2 1]; [0; 1]])
    as (Hreplace & _ & _).
  - by vm_compute.
  - cbn. lia.
  - reflexivity.
  - reflexivity.
  - reflexivity.
  - cbn. lia.
  - apply (Hreplace 0%nat [0; q 2 1]).
    + reflexivity.
    + by vm_compute.
    + intros j y _ Hj. lia.
Defined.

(** C2, the claim as stated fails: in [full_bin] the occupants have centred
    norms 2 and 1 and the candidate has norm 3.  The specification's words
    replace the weakest occupant, the second; [add] replaces the first. *)
Lemma add_full_bin_spares_weakest :
  ¬ ∀ (σ' : store) (b' : PerformanceBuffer.t),
      PerformanceBuffer.add (H := scripted) sample_heap full_bin 1%positive [0; q 3 1]
      = Ret (σ', b') →
      ∃ copy : loc,
        PerformanceBuffer.bins b' !! 0%nat
        = Some (PerformanceBuffer.spec_replace_weakest full_bin
                  [3%positive; 4%positive] [[0; q 2 1]; [0; 1]] copy [0; q 3 1]).1
        ∧ PerformanceBuffer.bins_evals b' !! 0%nat
          = Some (PerformanceBuffer.spec_replace_weakest full_bin
                    [3%positive; 4%positive] [[0; q 2 1]; [0; 1]] copy [0; q 3 1]).2.
Proof.
  intros Hclaim.
  destruct (PerformanceBuffer.add (H := scripted) sample_heap full_bin 1%positive [0; q 3 1])
    as [[σ' b']| |] eqn:Hadd; [|by vm_compute in Hadd..].
  destruct (Hclaim σ' b' eq_refl) as (copy & _ & Hevals).
  vm_compute in Hadd. injection Hadd as _ <-.
  vm_compute in Hevals. done.
Qed.

(** ** Task and weight selection *)

Section selection.

Import PGMORL.
Context `{Externals}.

Lemma candidate_tuples_unselected selected last_candidate_eval candidate_weights e w :
  (e, w) ∈ candidate_tuples selected last_candidate_eval candidate_weights →
  e = last_candidate_eval ∧ w ∈ candidate_weights
  ∧ (last_candidate_eval, w) ∉ selected.
Proof.
  unfold candidate_tuples.
  intros (w' & [= -> ->] & [Hnew Hin]%list_elem_of_filter)%list_elem_of_fmap.
  done.
Qed.

(** The weight chosen for a candidate is one not yet selected with that
    candidate's evaluation. *)
Lemma best_weight_for_unselected fuel s st candidate_weights last_candidate_eval w pe m :
  best_weight_for fuel s st candidate_weights last_candidate_eval = Ret (w, pe, m) →
  w ∈ candidate_weights ∧ (last_candidate_eval, w) ∉ selected_tasks st.
Proof.
  unfold best_weight_for. intros Hrun.
  inv_bind Hrun as predictions Hpred.
  destruct predictions as [|p predictions]; [done|].
  destruct (argmax _) as [[k improv]|]; [|done].
  destruct (candidate_tuples _ _ _ !! k) as [[e w']|] eqn:Hk; [|done].
  destruct (_.*2 !! k); [|done]. injection Hrun as -> _ _.
  apply list_elem_of_lookup_2, candidate_tuples_unselected in Hk. tauto.
Qed.

(** What holds of the best pair found so far: its weight has not been
    selected with its evaluation, and it pairs a member of the population
    with a candidate weight. *)
Lemma best_over_population_chosen fuel s st candidate_weights pop acc winner
    (known : loc * vec → Prop) :
  (∀ candidate e w, (candidate, e) ∈ pop → w ∈ candidate_weights →
                    known (candidate, w)) →
  (∀ b, acc = Some b →
        ((best_eval b, (best_candidate b).2) ∉ selected_tasks st)
        ∧ known (best_candidate b)) →
  best_over_population fuel s st candidate_weights pop acc = Ret winner →
  ∀ b, winner = Some b →
       ((best_eval b, (best_candidate b).2) ∉ selected_tasks st)
       ∧ known (best_candidate b).
Proof.
  revert acc. induction pop as [|[candidate e] pop IH]; intros acc Hpop Hacc Hrun; cbn in Hrun.
  - by injection Hrun as <-.
  - inv_bind Hrun as [[w pe] m] Hbest.
    apply best_weight_for_unselected in Hbest as [Hw Hnew].
    eapply IH; [|..|exact Hrun].
    + intros c e' w' Hin. eapply Hpop. by right.
    + intros b Hb. case_match; [|by apply Hacc].
      injection Hb as <-. cbn. split; [done|]. eapply Hpop; [by left|done].
Qed.

(** The effect of the assignment on the store and the list of agents. *)
Lemma install_spec i b σ agents σ' agents' :
  install i b σ agents = Ret (σ', agents') →
  ∃ previous : loc,
    agents !! i = Some previous
    ∧ agents' = <[i := fresh (dom σ)]> agents
    ∧ σ' !! fresh (dom σ)
      = Some {| id := i;
                networks := networks (σ !!! (best_candidate b).1);
                weights := (best_candidate b).2;
                global_step :=
                  global_step
                    (<[fresh (dom σ) := σ !!! (best_candidate b).1]> σ !!! previous) |}
    ∧ ∀ l, l ≠ fresh (dom σ) → σ' !! l = σ !! l.
Proof.
  unfold install, deepcopy, alloc. cbn. intros Hrun.
  destruct (agents !! i) as [previous|]; [|done].
  injection Hrun as <- <-. exists previous.
  split; [done|]. split; [done|]. split.
  - by rewrite !lookup_alter_eq, lookup_insert_eq.
  - intros l Hl. by rewrite !lookup_alter_ne, lookup_insert_ne.
Qed.

Lemma select_for_worker_spec fuel s candidate_weights i st st' :
  select_for_worker fuel s candidate_weights i st = Ret st' →
  ∃ b : best,
    best_over_population fuel s st candidate_weights
      (zip (PerformanceBuffer.individuals (population s))
           (PerformanceBuffer.evaluations (population s))) None
    = Ret (Some b)
    ∧ selected_tasks st' = selected_tasks st ++ [(best_eval b, (best_candidate b).2)]
    ∧ current_front st' = current_front st ++ [best_predicted_eval b]
    ∧ install i b (sel_heap st) (sel_agents st) = Ret (sel_heap st', sel_agents st').
Proof.
  unfold select_for_worker. intros Hrun.
  inv_bind Hrun as winner Hwinner. destruct winner as [b|]; [|done].
  inv_bind Hrun as [σ agents] Hinstall. injection Hrun as <-. cbn.
  by exists b.
Qed.

Lemma select_for_worker_distinct fuel s candidate_weights i st st' :
  select_for_worker fuel s candidate_weights i st = Ret st' →
  NoDup (selected_tasks st) →
  NoDup (selected_tasks st')
  ∧ length (selected_tasks st') = S (length (selected_tasks st))
  ∧ length (current_front st') = S (length (current_front st))
  ∧ length (sel_agents st') = length (sel_agents st).
Proof.
  intros (b & Hbest & -> & -> & Hinstall)%select_for_worker_spec Hnd.
  eapply (best_over_population_chosen _ _ _ _ _ _ _ (λ _, True)) in Hbest
    as [Hnew _]; [|done|done|done].
  apply install_spec in Hinstall as (previous & _ & -> & _).
  rewrite !length_app, length_insert. cbn.
  repeat split; try lia.
  apply NoDup_app. repeat split; [done| |apply NoDup_singleton].
  by intros x Hx ->%list_elem_of_singleton.
Qed.

Lemma workers_loop_distinct fuel s candidate_weights workers st st' :
  workers_loop fuel s candidate_weights workers st = Ret st' →
  NoDup (selected_tasks st) →
  NoDup (selected_tasks st')
  ∧ length (selected_tasks st') = (length (selected_tasks st) + length workers)%nat
  ∧ length (current_front st') = (length (current_front st) + length workers)%nat
  ∧ length (sel_agents st') = length (sel_agents st).
Proof.
  revert st. induction workers as [|i workers IH]; intros st Hrun Hnd; cbn in Hrun.
  - injection Hrun as <-. cbn. repeat split; [done|lia..].
  - inv_bind Hrun as st1 Hstep.
    destruct (select_for_worker_distinct _ _ _ _ _ _ Hstep Hnd) as (Hnd1 & Hs1 & Hf1 & Ha1).
    destruct (IH _ Hrun Hnd1) as (Hnd' & Hs' & Hf' & Ha').
    cbn. repeat split; [done|lia..].
Qed.

Lemma workers_loop_app fuel s candidate_weights workers1 workers2 st :
  workers_loop fuel s candidate_weights (workers1 ++ workers2) st
  = workers_loop fuel s candidate_weights workers1 st
    ≫= workers_loop fuel s candidate_weights workers2.
Proof.
  revert st. induction workers1 as [|i workers1 IH]; intros st; cbn; [done|].
  destruct (select_for_worker _ _ _ _ _); cbn; [apply IH|done..].
Qed.

(** A generation that completes has served every shorter prefix of the
    workers, and worker [i] starts from the state its predecessors left. *)
Lemma workers_loop_prefix fuel s candidate_weights (n i : nat) st result :
  workers_loop fuel s candidate_weights (seq 0 n) st = Ret result →
  (i < n)%nat →
  ∃ before : selection,
    workers_loop fuel s candidate_weights (seq 0 i) st = Ret before
    ∧ workers_loop fuel s candidate_weights (seq 0 (S i)) st
      = select_for_worker fuel s candidate_weights i before.
Proof.
  intros Hrun Hi.
  replace n with (i + (n - i))%nat in Hrun by lia.
  rewrite seq_app, workers_loop_app in Hrun.
  inv_bind Hrun as before Hbefore. exists before. split; [done|].
  rewrite seq_S, workers_loop_app, Hbefore. cbn.
  by destruct (select_for_worker _ _ _ _ _).
Qed.

(** *** When a generation completes

    A generation serves all its workers when the archive is not empty, the
    candidate weights are pairwise distinct and at least as many as the
    workers, and the predictor answers, within the fuel, for every archived
    evaluation and candidate weight. *)

Lemma mapM_returns {A B} (f : A → outcome B) (l : list A) :
  (∀ x, x ∈ l → ∃ r, f x = Ret r) →
  ∃ rs, mapM f l = Ret rs ∧ length rs = length l.
Proof.
  induction l as [|x l IH]; intros Hf; cbn; [by exists []|].
  destruct (Hf x) as [r ->]; [by left|].
  destruct IH as (rs & -> & Hlen); [intros y Hy; apply Hf; by right|].
  cbn. exists (r :: rs). split; [done|]. cbn. by rewrite Hlen.
Qed.

Lemma argmax_from_bound i cur l :
  (cur.1 < i)%nat → ((argmax_from i cur l).1 < i + length l)%nat.
Proof.
  revert i cur. induction l as [|x l IH]; intros i cur Hcur; cbn; [lia|].
  specialize (IH (S i) (if bool_decide (cur.2 < x) then (i, x) else cur)).
  case_bool_decide; cbn in IH; lia.
Qed.

Lemma argmax_bound l k m : argmax l = Some (k, m) → (k < length l)%nat.
Proof.
  destruct l as [|x l]; [done|]. cbn. intros [= Hr].
  pose proof (argmax_from_bound 1 (0%nat, x) l ltac:(cbn; lia)) as Hb.
  rewrite Hr in Hb. cbn in Hb. lia.
Qed.

Lemma candidate_tuples_nonempty (selected : list (vec * vec)) e candidate_weights :
  NoDup candidate_weights →
  (length selected < length candidate_weights)%nat →
  candidate_tuples selected e candidate_weights ≠ [].
Proof.
  intros Hnd Hlt Hnil. unfold candidate_tuples in Hnil. apply fmap_nil_inv in Hnil.
  assert (Hall : ∀ w, w ∈ candidate_weights → (e, w) ∈ selected).
  { intros w Hw. destruct (decide ((e, w) ∈ selected)) as [|Hnew]; [done|].
    by destruct (filter_nil_not_elem_of _ _ w Hnil Hnew). }
  assert (length candidate_weights ≤ length selected)%nat; [|lia].
  rewrite <- (length_fmap (λ w : vec, (e, w))).
  apply submseteq_length, NoDup_submseteq.
  - apply NoDup_fmap_2; [|done]. by intros w1 w2 [= ->].
  - intros x (w & -> & Hw)%list_elem_of_fmap. by apply Hall.
Qed.

Lemma best_weight_for_returns fuel s st candidate_weights e :
  candidate_tuples (selected_tasks st) e candidate_weights ≠ [] →
  (∀ w, w ∈ candidate_weights →
        ∃ r, predict_next_evaluation fuel (predictor s) w e = Ret r) →
  ∃ r, best_weight_for fuel s st candidate_weights e = Ret r.
Proof.
  intros Hne Hpred. unfold best_weight_for.
  set (tuples := candidate_tuples (selected_tasks st) e candidate_weights) in *.
  destruct (mapM_returns
              (λ '(candidate_eval, weight),
                 predict_next_evaluation fuel (predictor s) weight candidate_eval)
              tuples) as (rs & -> & Hlen).
  { intros [e' w] (-> & Hw & _)%candidate_tuples_unselected. by apply Hpred. }
  cbn. destruct rs as [|r rs]; [by destruct tuples|].
  destruct (argmax _) as [[k m]|] eqn:Hmax; [|done].
  apply argmax_bound in Hmax. rewrite !length_fmap in Hmax.
  destruct (lookup_lt_is_Some_2 tuples k) as [[e' w'] ->]; [lia|].
  destruct (lookup_lt_is_Some_2 ((r :: rs).*2) k) as [pe ->]; [by rewrite length_fmap|].
  eauto.
Qed.

Lemma best_over_population_returns fuel s st candidate_weights pop acc :
  (∀ candidate e, (candidate, e) ∈ pop →
     candidate_tuples (selected_tasks st) e candidate_weights ≠ []
     ∧ ∀ w, w ∈ candidate_weights →
            ∃ r, predict_next_evaluation fuel (predictor s) w e = Ret r) →
  (pop ≠ [] ∨ is_Some acc) →
  ∃ b, best_over_population fuel s st candidate_weights pop acc = Ret (Some b).
Proof.
  revert acc. induction pop as [|[candidate e] pop IH]; intros acc Hpop Hsome; cbn.
  - destruct Hsome as [|[b ->]]; [done|by exists b].
  - destruct (Hpop candidate e) as [Hne Hpred]; [by left|].
    destruct (best_weight_for_returns _ _ _ _ _ Hne Hpred) as [[[w pe] m] ->]. cbn.
    apply IH; [intros c e' Hin; apply (Hpop c e'); by right|].
    right. destruct acc as [b|]; [|done]. by case_bool_decide.
Qed.

Lemma select_for_worker_returns fuel s candidate_weights i st :
  zip (PerformanceBuffer.individuals (population s))
      (PerformanceBuffer.evaluations (population s)) ≠ [] →
  NoDup candidate_weights →
  (length (selected_tasks st) < length candidate_weights)%nat →
  (i < length (sel_agents st))%nat →
  (∀ e w, e ∈ PerformanceBuffer.evaluations (population s) → w ∈ candidate_weights →
          ∃ r, predict_next_evaluation fuel (predictor s) w e = Ret r) →
  ∃ st', select_for_worker fuel s candidate_weights i st = Ret st'.
Proof.
  intros Hpop Hnd Hlt Hi Hpred. unfold select_for_worker.
  destruct (best_over_population_returns fuel s st candidate_weights
              (zip (PerformanceBuffer.individuals (population s))
                   (PerformanceBuffer.evaluations (population s))) None)
    as [b ->]; [|by left|].
  { intros c e Hin. split; [by apply candidate_tuples_nonempty|].
    intros w Hw. apply Hpred; [by apply elem_of_zip_r in Hin|done]. }
  cbn. unfold install, deepcopy, alloc. cbn.
  destruct (lookup_lt_is_Some_2 (sel_agents st) i Hi) as [previous ->]. cbn. eauto.
Qed.

Lemma workers_loop_returns fuel s candidate_weights workers st :
  zip (PerformanceBuffer.individuals (population s))
      (PerformanceBuffer.evaluations (population s)) ≠ [] →
  NoDup candidate_weights →
  NoDup (selected_tasks st) →
  (length (selected_tasks st) + length workers ≤ length candidate_weights)%nat →
  Forall (λ i, (i < length (sel_agents st))%nat) workers →
  (∀ e w, e ∈ PerformanceBuffer.evaluations (population s) → w ∈ candidate_weights →
          ∃ r, predict_next_evaluation fuel (predictor s) w e = Ret r) →
  ∃ st', workers_loop fuel s candidate_weights workers st = Ret st'.
Proof.
  intros Hpop Hnd. revert st.
  induction workers as [|i workers IH]; intros st Hsel Hlen Hws Hpred; cbn; [eauto|].
  apply Forall_cons in Hws as [Hi Hws]. cbn in Hlen.
  destruct (select_for_worker_returns fuel s candidate_weights i st) as [st1 Hstep];
    [done|done|lia|done|done|].
  rewrite Hstep. cbn.
  destruct (select_for_worker_distinct _ _ _ _ _ _ Hstep Hsel) as (Hsel1 & Hl1 & _ & Ha1).
  apply IH; [done|lia| |done]. by rewrite Ha1.
Qed.

Lemma task_weight_selection_returns fuel s candidate_weights :
  selection_weights s = Ret candidate_weights →
  NoDup candidate_weights →
  (length (agents s) ≤ length candidate_weights)%nat →
  zip (PerformanceBuffer.individuals (population s))
      (PerformanceBuffer.evaluations (population s)) ≠ [] →
  (∀ e w, e ∈ PerformanceBuffer.evaluations (population s) → w ∈ candidate_weights →
          ∃ r, predict_next_evaluation fuel (predictor s) w e = Ret r) →
  ∃ result, task_weight_selection fuel s = Ret result.
Proof.
  intros Hweights Hnd Hlen Hpop Hpred.
  unfold task_weight_selection, selection_prefix. rewrite Hweights. cbn.
  apply workers_loop_returns; cbn; try done.
  - apply NoDup_nil_2.
  - by rewrite length_seq.
  - apply Forall_forall. intros i [_ Hi]%elem_of_seq. lia.
Qed.

(** C5. In a selection generation that serves its [P] workers, the [P]
    pairs (prior evaluation, weight) recorded in [selected_tasks] are
    pairwise distinct, and worker [i] (counted from 0, the [i+1]-th
    worker) is scored against a speculative front of exactly the initial
    front's length plus [i]. *)
Theorem selected_tasks_pairwise_distinct :
  ∀ (fuel : nat) (s : t) (result : selection),
    task_weight_selection fuel s = Ret result →
    NoDup (selected_tasks result)
    ∧ length (selected_tasks result) = length (agents s)
    ∧ ∀ i : nat, (i < length (agents s))%nat →
        ∃ (candidate_weights : list vec) (before : selection),
          selection_weights s = Ret candidate_weights
          ∧ selection_prefix fuel s i = Ret before
          ∧ selection_prefix fuel s (S i)
            = select_for_worker fuel s candidate_weights i before
          ∧ length (current_front before)
            = (length (archive_evaluations s) + i)%nat.
Proof.
  intros fuel s result Hrun.
  unfold task_weight_selection, selection_prefix in *.
  inv_bind Hrun as candidate_weights Hweights.
  destruct (workers_loop_distinct _ _ _ _ _ _ Hrun) as (Hnd & Hlen & _).
  { apply NoDup_nil_2. }
  rewrite length_seq in Hlen. split; [done|]. split; [done|].
  intros i Hi.
  destruct (workers_loop_prefix _ _ _ _ i _ _ Hrun Hi) as (before & Hbefore & Hnext).
  exists candidate_weights, before. rewrite Hweights. cbn.
  split; [done|]. split; [done|]. split; [done|].
  destruct (workers_loop_distinct _ _ _ _ _ _ Hbefore) as (_ & _ & Hfront & _).
  { apply NoDup_nil_2. }
  by rewrite length_seq in Hfront.
Qed.

(** C8. When worker [i] is served, the agent put in slot [i] is a new
    object, distinct from the archived winner (which stays as it was):
    a copy of the winner whose step counter is that of the agent it
    replaces in slot [i], whose identity is [i] and whose weight is the
    winning candidate weight. *)
Theorem installed_agent_is_fresh_copy :
  ∀ (fuel : nat) (s : t) (candidate_weights : list vec) (i : nat)
    (st st' : selection),
    allocated (sel_heap st) (sel_agents st) →
    allocated (sel_heap st) (PerformanceBuffer.individuals (population s)) →
    select_for_worker fuel s candidate_weights i st = Ret st' →
    ∃ (b : best) (previous copy : loc) (winner_obj previous_obj : MOPPO),
      best_over_population fuel s st candidate_weights
        (zip (PerformanceBuffer.individuals (population s))
             (PerformanceBuffer.evaluations (population s))) None
      = Ret (Some b)
      ∧ (best_candidate b).1 ∈ PerformanceBuffer.individuals (population s)
      ∧ (best_candidate b).2 ∈ candidate_weights
      ∧ sel_heap st !! (best_candidate b).1 = Some winner_obj
      ∧ sel_agents st !! i = Some previous
      ∧ sel_heap st !! previous = Some previous_obj
      ∧ sel_agents st' !! i = Some copy
      ∧ sel_heap st !! copy = None
      ∧ copy ≠ (best_candidate b).1
      ∧ sel_heap st' !! copy
        = Some {| id := i;
                  networks := networks winner_obj;
                  weights := (best_candidate b).2;
                  global_step := global_step previous_obj |}
      ∧ sel_heap st' !! (best_candidate b).1 = Some winner_obj.
Proof.
  intros fuel s candidate_weights i st st' Hagents Hpop Hrun.
  apply select_for_worker_spec in Hrun as (b & Hbest & _ & _ & Hinstall).
  assert (Hwinner : (best_candidate b).1 ∈ PerformanceBuffer.individuals (population s)
                    ∧ (best_candidate b).2 ∈ candidate_weights).
  { eapply (best_over_population_chosen _ _ _ _ _ _ _
              (λ c, c.1 ∈ PerformanceBuffer.individuals (population s)
                    ∧ c.2 ∈ candidate_weights)); [| |exact Hbest|done].
    - intros c e w Hin Hw. split; [by apply elem_of_zip_l in Hin|done].
    - done. }
  destruct Hwinner as [Hwinner Hweight].
  apply install_spec in Hinstall as (previous & Hprev & Hags & Hcopy & Hrest).
  set (copy := fresh (dom (sel_heap st))) in *.
  assert (Hfresh : sel_heap st !! copy = None).
  { apply not_elem_of_dom, is_fresh. }
  destruct (proj1 (Forall_forall _ _) Hpop _ Hwinner) as [winner_obj Hwo].
  destruct (proj1 (Forall_forall _ _) Hagents previous) as [previous_obj Hpo].
  { by eapply list_elem_of_lookup_2. }
  assert (copy ≠ (best_candidate b).1) as Hne1 by congruence.
  assert (copy ≠ previous) as Hne2 by congruence.
  exists b, previous, copy, winner_obj, previous_obj.
  repeat split; try done.
  - rewrite Hags. apply list_lookup_insert_eq. by eapply lookup_lt_Some.
  - rewrite Hcopy. rewrite lookup_total_insert_ne by done.
    by rewrite (lookup_total_correct _ _ _ Hwo), (lookup_total_correct _ _ _ Hpo).
  - by rewrite Hrest.
Qed.

(** Serving a worker keeps every agent and every archived individual
    allocated, so the two premises above hold all along a generation. *)
Lemma select_for_worker_allocated fuel s candidate_weights i st st' :
  allocated (sel_heap st) (sel_agents st) →
  allocated (sel_heap st) (PerformanceBuffer.individuals (population s)) →
  select_for_worker fuel s candidate_weights i st = Ret st' →
  allocated (sel_heap st') (sel_agents st')
  ∧ allocated (sel_heap st') (PerformanceBuffer.individuals (population s)).
Proof.
  intros Hagents Hpop Hrun.
  apply select_for_worker_spec in Hrun as (b & _ & _ & _ & Hinstall).
  apply install_spec in Hinstall as (previous & Hprev & Hags & Hcopy & Hrest).
  assert (Hkeep : ∀ l, is_Some (sel_heap st !! l) → is_Some (sel_heap st' !! l)).
  { intros l Hl. destruct (decide (l = fresh (dom (sel_heap st)))) as [->|Hne].
    - by rewrite Hcopy.
    - by rewrite Hrest. }
  split.
  - rewrite Hags. apply Forall_insert; [|by rewrite Hcopy].
    eapply Forall_impl; [exact Hagents|]. apply Hkeep.
  - eapply Forall_impl; [exact Hpop|]. apply Hkeep.
Qed.

End selection.

Lemma selected_tasks_witness :
  NoDup (PGMORL.selected_tasks sample_result)
  ∧ length (PGMORL.selected_tasks sample_result) = length (PGMORL.agents sample_state)
  ∧ ∀ i : nat, (i < length (PGMORL.agents sample_state))%nat →
      ∃ (candidate_weights : list vec) (before : PGMORL.selection),
        PGMORL.selection_weights (H := scripted) sample_state = Ret candidate_weights
        ∧ PGMORL.selection_prefix (H := scripted) 5 sample_state i = Ret before
        ∧ PGMORL.selection_prefix (H := scripted) 5 sample_state (S i)
          = PGMORL.select_for_worker (H := scripted) 5 sample_state candidate_weights i before
        ∧ length (PGMORL.current_front before)
          = (length (PGMORL.archive_evaluations sample_state) + i)%nat.
Proof.
  apply (selected_tasks_pairwise_distinct (H := scripted) 5 sample_state sample_result).
  by vm_compute.
Defined.

Lemma installed_agent_witness :
  ∃ (b : PGMORL.best) (previous copy : loc) (winner_obj previous_obj : MOPPO),
    PGMORL.best_over_population (H := scripted) 5 sample_state
      (PGMORL.selection_start sample_state) sample_weights
      (zip (PerformanceBuffer.individuals (PGMORL.population sample_state))
           (PerformanceBuffer.evaluations (PGMORL.population sample_state))) None
    = Ret (Some b)
    ∧ (PGMORL.best_candidate b).1
      ∈ PerformanceBuffer.individuals (PGMORL.population sample_state)
    ∧ (PGMORL.best_candidate b).2 ∈ sample_weights
    ∧ PGMORL.sel_heap (PGMORL.selection_start sample_state) !! (PGMORL.best_candidate b).1
      = Some winner_obj
    ∧ PGMORL.sel_agents (PGMORL.selection_start sample_state) !! 0%nat = Some previous
    ∧ PGMORL.sel_heap (PGMORL.selection_start sample_state) !! previous = Some previous_obj
    ∧ PGMORL.sel_agents sample_first_worker !! 0%nat = Some copy
    ∧ PGMORL.sel_heap (PGMORL.selection_start sample_state) !! copy = None
    ∧ copy ≠ (PGMORL.best_candidate b).1
    ∧ PGMORL.sel_heap sample_first_worker !! copy
      = Some {| id := 0;
                networks := networks winner_obj;
                weights := (PGMORL.best_candidate b).2;
                global_step := global_step previous_obj |}
    ∧ PGMORL.sel_heap sample_first_worker !! (PGMORL.best_candidate b).1
      = Some winner_obj.
Proof.
  apply (installed_agent_is_fresh_copy (H := scripted) 5 sample_state sample_weights 0
           (PGMORL.selection_start sample_state) sample_first_worker).
  - unfold allocated. apply (bool_decide_unpack _). by vm_compute.
  - unfold allocated. apply (bool_decide_unpack _). by vm_compute.
  - by vm_compute.
Defined.

(** * Further properties

    The weight generator, the neighbour search, the archive, the
    constructor, the selection and the scheduler's passes, beyond the
    properties above. *)

(** ** generate_weights, continued *)

Section more_weights.

(** [int] of a non-negative number is its floor. *)
Lemma py_int_floor (x : Qc) : 0 ≤ x → py_int x = Qfloor (this x).
Proof.
  intros Hx. unfold py_int. destruct x as [[n d] Hc]. cbn in *.
  apply Z.quot_div_nonneg; [|lia].
  unfold Qcle, Qle in Hx. cbn in Hx.
  change (Qnum (Qred 0)) with 0%Z in Hx. lia.
Qed.

Lemma py_int_lower (z : Z) (x : Qc) : 0 ≤ x → Qc_of_Z z ≤ x → (z ≤ py_int x)%Z.
Proof.
  intros Hx Hz. rewrite py_int_floor by done.
  rewrite <- (Qfloor_Z z). by apply Qfloor_resp_le.
Qed.

Lemma py_int_le (x : Qc) : 0 ≤ x → Qc_of_Z (py_int x) ≤ x.
Proof. intros Hx. rewrite py_int_floor by done. apply Qfloor_le. Qed.

Lemma py_int_upper (z : Z) (x : Qc) : 0 ≤ x → x < Qc_of_Z z → (py_int x < z)%Z.
Proof.
  intros Hx Hz.
  destruct (decide (py_int x < z)%Z) as [|Hge]; [done|]. exfalso.
  apply (Qclt_not_le _ _ Hz). eapply Qcle_trans; [|by apply py_int_le].
  apply (proj1 (Z2Qc_inj_le z (py_int x))). lia.
Qed.

Lemma Qc_inv_nonneg (d : Qc) : 0 < d → 0 < 1 / d.
Proof. intros. unfold Qcdiv. rewrite Qcmult_1_l. by apply Qcinv_pos. Qed.

Lemma Qc_inv_lt_1 (d : Qc) : 1 < d → 1 / d < 1.
Proof.
  intros Hd. assert (0 < d) as Hpos by (eapply Qclt_trans; [|done]; done).
  unfold Qcdiv. rewrite Qcmult_1_l.
  rewrite <- (Qcmult_inv_r d) by (by apply not_eq_sym, Qclt_not_eq).
  rewrite <- (Qcmult_1_l (/ d)) at 1.
  apply Qcmult_lt_compat_r; [by apply Qcinv_pos|done].
Qed.

Lemma vec2_ext (a b a' b' : Qc) : a = a' → b = b' → [a; b] = [a'; b'].
Proof. by intros -> ->. Qed.

Lemma generate_weights_coarse (d : Qc) :
  1 < d → generate_weights d = Ret ([0; 1] :: []).
Proof.
  intros Hd. assert (0 < d) as Hpos by (eapply Qclt_trans; [|done]; done).
  unfold generate_weights.
  rewrite decide_False by (by apply not_eq_sym, Qclt_not_eq).
  assert (py_int (1 / d) = 0%Z) as ->.
  { pose proof (py_int_lower 0 (1 / d) (Qclt_le_weak _ _ (Qc_inv_nonneg d Hpos))
                  (Qclt_le_weak _ _ (Qc_inv_nonneg d Hpos))).
    pose proof (py_int_upper 1 (1 / d) (Qclt_le_weak _ _ (Qc_inv_nonneg d Hpos))
                  (Qc_inv_lt_1 d Hd)). lia. }
  unfold linspace. change (0 + 1)%Z with 1%Z.
  rewrite decide_False by lia. change (Z.to_nat 1) with 1%nat.
  rewrite decide_False by lia. cbn.
  change (Qc_of_nat 0) with (Qc_of_Z 0). rewrite Z2Qc_inj_0.
  apply (f_equal Ret), (f_equal (λ v : vec, v :: [])), vec2_ext; ring.
Qed.


Lemma interpolate_inj div i j :
  div ≠ 0 → interpolate div i = interpolate div j → i = j.
Proof.
  intros Hdiv Heq. apply (f_equal (λ v : vec, default 0 (head v))) in Heq.
  change (Qc_of_nat i / div = Qc_of_nat j / div) in Heq. unfold Qcdiv in Heq.
  apply (f_equal (λ x, x * div)) in Heq.
  rewrite <- !Qcmult_assoc, (Qcmult_comm (/ div)), Qcmult_inv_r, !Qcmult_1_r in Heq by done.
  apply Z2Qc_inj in Heq. lia.
Qed.

Lemma Qc_of_nat_le (n m : nat) : (n ≤ m)%nat → Qc_of_nat n ≤ Qc_of_nat m.
Proof. intros. apply (proj1 (Z2Qc_inj_le (Z.of_nat n) (Z.of_nat m))). lia. Qed.

Lemma interpolate_simplex (n i : nat) :
  (0 < n)%nat → (i ≤ n)%nat →
  ∃ a b, interpolate (Qc_of_nat n) i = [a; b] ∧ 0 ≤ a ∧ 0 ≤ b ∧ a + b = 1.
Proof.
  intros Hn Hi. eexists _, _. split; [reflexivity|].
  pose proof (Qc_of_nat_pos n Hn) as Hpos.
  assert (0 ≤ Qc_of_nat i / Qc_of_nat n) as H0.
  { unfold Qcdiv. rewrite <- (Qcmult_0_l (/ Qc_of_nat n)).
    apply Qcmult_le_compat_r; [|by apply Qclt_le_weak, Qcinv_pos].
    apply (Qc_of_nat_le 0 i). lia. }
  assert (Qc_of_nat i / Qc_of_nat n ≤ 1) as H1.
  { unfold Qcdiv. rewrite <- (Qcmult_inv_r (Qc_of_nat n)) by (by apply Qc_of_nat_nonzero).
    apply Qcmult_le_compat_r; [|by apply Qclt_le_weak, Qcinv_pos].
    by apply Qc_of_nat_le. }
  split; [done|]. split; [|ring].
  apply (proj1 (Qcle_minus_iff _ _)) in H1.
  by replace (1 + - (Qc_of_nat i / Qc_of_nat n)) with (1 - Qc_of_nat i / Qc_of_nat n) in H1 by ring.
Qed.

Lemma generate_weights_Ret d :
  (∃ ws, generate_weights d = Ret ws) ↔ d ≠ 0 ∧ (0 ≤ py_int (1 / d) + 1)%Z.
Proof.
  unfold generate_weights, linspace. split.
  - intros [ws Hws]. case_decide; [done|]. case_decide; [done|]. split; [done|lia].
  - intros [Hd Hn]. rewrite decide_False by done. rewrite decide_False by lia. eauto.
Qed.

Lemma generate_weights_NoDup (d : Qc) (ws : list vec) :
  0 < d → generate_weights d = Ret ws → NoDup ws.
Proof.
  intros Hpos Hgen.
  destruct (Qclt_le_dec 1 d) as [Hbig|Hle].
  - rewrite generate_weights_coarse in Hgen by done. injection Hgen as <-.
    apply NoDup_singleton.
  - destruct (generate_weights_unit d Hpos Hle) as (n & Hn & _ & Hgen').
    rewrite Hgen' in Hgen. injection Hgen as <-.
    pose proof (Qc_of_nat_nonzero (n - 1) ltac:(lia)) as Hdiv.
    apply NoDup_fmap_2_strong; [|apply NoDup_seq].
    intros i j _ _. by apply interpolate_inj.
Qed.

Lemma half_spacing_nonzero (d : Qc) : d ≠ 0 → d / Qc_of_Z 2 ≠ 0.
Proof.
  intros Hd. unfold Qcdiv. intros Hz. apply Qcmult_integral in Hz as [?|Hz]; [done|].
  by apply (Qclt_not_eq _ _ (Qcinv_pos _ (eq_refl : 0 < Qc_of_Z 2))).
Qed.

(** Halving a spacing [0 < d ≤ 2] raises the truncated quotient. *)
Lemma half_spacing_counts (d : Qc) :
  0 < d → d ≤ Qc_of_Z 2 →
  (0 ≤ py_int (1 / d))%Z
  ∧ (py_int (1 / d) + 1 ≤ py_int (1 / (d / Qc_of_Z 2)))%Z.
Proof.
  intros Hpos Hle.
  assert (Hd0 : d ≠ 0) by (by apply not_eq_sym, Qclt_not_eq).
  assert (H2 : Qc_of_Z 2 ≠ 0) by done.
  assert (Hx : 0 < 1 / d) by (by apply Qc_inv_nonneg).
  assert (Hhalf : 1 / (d / Qc_of_Z 2) = Qc_of_Z 2 * (1 / d)) by (by field).
  assert (Hx2 : 0 < 1 / (d / Qc_of_Z 2)).
  { rewrite Hhalf. by apply Qcmult_pos_pos. }
  pose proof (py_int_lower 0 _ (Qclt_le_weak _ _ Hx) (Qclt_le_weak _ _ Hx)) as Hk0.
  pose proof (py_int_le _ (Qclt_le_weak _ _ Hx)) as Hk.
  assert (Hone : 1 ≤ Qc_of_Z 2 * (1 / d)).
  { unfold Qcdiv. rewrite Qcmult_1_l.
    rewrite <- (Qcmult_inv_r d) at 1 by done.
    apply Qcmult_le_compat_r; [done|]. by apply Qclt_le_weak, Qcinv_pos. }
  split; [done|].
  apply py_int_lower; [by apply Qclt_le_weak|]. rewrite Hhalf.
  destruct (decide (py_int (1 / d) = 0)%Z) as [Hz|Hnz].
  - rewrite Hz. exact Hone.
  - eapply Qcle_trans; [|apply Qcmult_le_mono_nonneg_l; [done|exact Hk]].
    rewrite <- Z2Qc_inj_mul. apply (proj1 (Z2Qc_inj_le _ _)). lia.
Qed.

(** The candidate weights of a selection, at half the spacing [d > 0] of
    the population's weights, are pairwise distinct and no fewer. *)
Lemma half_spacing_no_fewer (d : Qc) :
  0 < d →
  ∃ ws cs : list vec,
    generate_weights d = Ret ws
    ∧ generate_weights (d / Qc_of_Z 2) = Ret cs
    ∧ NoDup cs
    ∧ (length ws ≤ length cs)%nat.
Proof.
  intros Hpos.
  assert (Hhalf : 0 < d / Qc_of_Z 2).
  { unfold Qcdiv. apply Qcmult_pos_pos; [done|]. by apply Qcinv_pos. }
  destruct (Qclt_le_dec (Qc_of_Z 2) d) as [Hbig|Hle].
  - exists ([0; 1] :: []), ([0; 1] :: []).
    split; [apply generate_weights_coarse; by eapply Qclt_trans; [|exact Hbig]|].
    split.
    { apply generate_weights_coarse.
      replace 1 with (Qc_of_Z 2 / Qc_of_Z 2) by (by field).
      unfold Qcdiv. apply Qcmult_lt_compat_r; [by apply Qcinv_pos|done]. }
    split; [apply NoDup_singleton|done].
  - assert (Hd0 : d ≠ 0) by (by apply not_eq_sym, Qclt_not_eq).
    destruct (half_spacing_counts d Hpos Hle) as [Hk0 Hmore].
    destruct (proj2 (generate_weights_Ret d)) as [ws Hws]; [split; [done|lia]|].
    destruct (proj2 (generate_weights_Ret (d / Qc_of_Z 2))) as [cs Hcs].
    { split; [by apply half_spacing_nonzero|lia]. }
    exists ws, cs. split; [done|]. split; [done|].
    split; [by apply (generate_weights_NoDup _ _ Hhalf)|].
    apply generate_weights_length in Hws, Hcs. lia.
Qed.

(** X1. For every positive spacing the generated weights are pairwise distinct
    points of the simplex: two non-negative components that sum to 1. *)
Theorem generate_weights_distinct_simplex :
  ∀ (d : Qc) (ws : list vec),
    0 < d → generate_weights d = Ret ws →
    NoDup ws
    ∧ Forall (λ w : vec, ∃ a b, w = [a; b] ∧ 0 ≤ a ∧ 0 ≤ b ∧ a + b = 1) ws.
Proof.
  intros d ws Hpos Hgen. split; [by apply (generate_weights_NoDup d)|].
  destruct (Qclt_le_dec 1 d) as [Hbig|Hle].
  - rewrite generate_weights_coarse in Hgen by done. injection Hgen as <-.
    apply Forall_singleton. exists 0, 1. repeat split; (done || ring).
  - destruct (generate_weights_unit d Hpos Hle) as (n & Hn & _ & Hgen').
    rewrite Hgen' in Hgen. injection Hgen as <-.
    apply Forall_fmap, Forall_forall. intros i [_ Hi]%elem_of_seq.
    apply interpolate_simplex; lia.
Qed.

(** X2. [__task_weight_selection] reads "Generates more weights than agents":
    for a spacing [0 < d ≤ 2], halving the spacing gives strictly more
    weight vectors. *)
Theorem half_spacing_gives_more_weights :
  ∀ d : Qc, 0 < d → d ≤ Qc_of_Z 2 →
    ∃ ws cs : list vec,
      generate_weights d = Ret ws
      ∧ generate_weights (d / Qc_of_Z 2) = Ret cs
      ∧ (length ws < length cs)%nat.
Proof.
  intros d Hpos Hle.
  assert (Hd0 : d ≠ 0) by (by apply not_eq_sym, Qclt_not_eq).
  destruct (half_spacing_counts d Hpos Hle) as [Hk0 Hmore].
  destruct (proj2 (generate_weights_Ret d)) as [ws Hws]; [split; [done|lia]|].
  destruct (proj2 (generate_weights_Ret (d / Qc_of_Z 2))) as [cs Hcs].
  { split; [by apply half_spacing_nonzero|lia]. }
  exists ws, cs. split; [done|]. split; [done|].
  apply generate_weights_length in Hws, Hcs. lia.
Qed.

End more_weights.

(** ** The neighbour search, continued *)

Section predictor_more.

Lemma forallb_lookup_false {A} (f : A → bool) (l : list A) i x :
  l !! i = Some x → f x = false → forallb f l = false.
Proof.
  intros Hi Hx. destruct (forallb f l) eqn:Hall; [|done].
  rewrite forallb_forall in Hall.
  rewrite <- Hx. symmetry. apply Hall, list_elem_of_In. by eapply list_elem_of_lookup_2.
Qed.

Lemma in_neighborhood_zero threshold previous_perf policy_eval j :
  policy_eval !! j = Some 0 → (j < length previous_perf)%nat →
  in_neighborhood threshold previous_perf policy_eval = false.
Proof.
  intros Hj Hlen. unfold in_neighborhood, vsub.
  destruct (lookup_lt_is_Some_2 previous_perf j Hlen) as [x Hx].
  eapply (forallb_lookup_false _ _ j (x - 0, 0)).
  - rewrite lookup_zip_with, lookup_zip_with, Hx.
    cbn [mbind option_bind]. by rewrite Hj.
  - cbn. apply bool_decide_eq_false_2.
    rewrite (Qcabs_pos 0) by apply Qcle_refl. rewrite Qcmult_0_r.
    apply Qcle_not_lt, Qcabs_nonneg.
Qed.

Lemma filter_neighbors_none threshold policy_eval p nb :
  Forall (λ previous_perf, in_neighborhood threshold previous_perf policy_eval = false)
         (previous_performance p) →
  filter_neighbors threshold policy_eval p nb = nb.
Proof.
  intros Hnone. unfold filter_neighbors.
  assert (Hall : ∀ x, x ∈ zip (zip (previous_performance p) (next_performance p))
                              (used_weight p) →
                      in_neighborhood threshold x.1.1 policy_eval = false).
  { intros [[a b] c] Hin. cbn.
    apply elem_of_zip_l, elem_of_zip_l in Hin.
    by apply (proj1 (Forall_forall _ _) Hnone). }
  revert Hall.
  generalize (zip (zip (previous_performance p) (next_performance p)) (used_weight p)).
  intros l. induction l as [|[[a b] c] l IH]; intros Hall; [done|].
  pose proof (Hall (a, b, c) ltac:(by left)) as Ha. cbn [fst snd] in Ha.
  cbn [foldl]. rewrite Ha. cbn [andb]. apply IH.
  intros x Hx. apply Hall. by right.
Qed.

Lemma expand_neighborhood_none fuel p policy_eval s threshold :
  (∀ thr, Forall (λ previous_perf, in_neighborhood thr previous_perf policy_eval = false)
                 (previous_performance p)) →
  expand_neighborhood fuel p policy_eval s threshold no_neighbors = Timeout.
Proof.
  intros Hnone. revert s threshold.
  induction fuel as [|fuel IH]; intros s threshold; cbn; [done|].
  rewrite filter_neighbors_none by done. apply IH.
Qed.

(** X3. An evaluation with a component equal to 0 has no neighbour at any
    threshold (the test [|prior - eval| < threshold * |eval|] is strict):
    when every prior on record has that component, the search widens
    forever and [predict_next_evaluation] never returns. *)
Theorem predict_zero_objective_never_returns `{Externals} :
  ∀ (fuel : nat) (p : t) (weight_candidate policy_eval : vec) (j : nat),
    policy_eval !! j = Some 0 →
    Forall (λ previous_perf : vec, (j < length previous_perf)%nat)
           (previous_performance p) →
    predict_next_evaluation fuel p weight_candidate policy_eval = Timeout.
Proof.
  intros fuel p w e j Hj Hlen. unfold predict_next_evaluation.
  rewrite expand_neighborhood_none; [done|].
  intros thr. eapply Forall_impl; [exact Hlen|].
  intros prev Hprev. by eapply in_neighborhood_zero.
Qed.


Lemma filter_neighbors_from_history threshold policy_eval p nb :
  neighbours_from_history p nb →
  neighbours_from_history p (filter_neighbors threshold policy_eval p nb).
Proof.
  unfold filter_neighbors.
  assert (Hsub : ∀ x, x ∈ zip (zip (previous_performance p) (next_performance p))
                            (used_weight p) →
                      x ∈ zip (zip (previous_performance p) (next_performance p))
                            (used_weight p)) by done.
  revert Hsub nb.
  generalize (zip (zip (previous_performance p) (next_performance p)) (used_weight p)) at 1 3.
  intros l. induction l as [|[[prev nx] w] l IH]; intros Hsub nb Hinv; [done|].
  cbn [foldl]. apply IH; [intros x Hx; apply Hsub; by right|].
  destruct (in_neighborhood _ _ _ && _); [|done].
  destruct Hinv as (Hwd & Hdn & Hall). split; [|split]; cbn.
  - rewrite !length_app. cbn. lia.
  - rewrite !length_app. cbn. lia.
  - rewrite !zip_with_app by (rewrite ?length_zip_with; lia). cbn.
    apply Forall_app. split; [done|]. apply Forall_singleton.
    exists prev. split; [|done]. apply Hsub. by left.
Qed.

Lemma expand_neighborhood_returns_inv fuel p policy_eval s threshold nb nb' s' :
  search_inv p nb → neighbours_from_history p nb →
  expand_neighborhood fuel p policy_eval s threshold nb = Ret (nb', s') →
  search_inv p nb' ∧ neighbours_from_history p nb'
  ∧ (4 ≤ length (neighbor_weights nb'))%nat
  ∧ ∃ k : nat, (k ≤ fuel)%nat ∧ s' = doubled k s
               ∧ ((length (neighbor_weights nb) < 4)%nat → (1 ≤ k)%nat).
Proof.
  revert s threshold nb.
  induction fuel as [|fuel IH]; intros s threshold nb Hinv Hhist; cbn.
  - case_bool_decide as Hguard; [done|]. intros [= <- <-].
    repeat split; [apply Hinv..|apply Hhist|apply Hhist|apply Hhist|lia|].
    exists 0%nat. repeat split; [lia|]. lia.
  - case_bool_decide as Hguard.
    + intros Hrun.
      apply IH in Hrun as (Hinv' & Hhist' & Hlen & k & Hk & -> & _);
        [|by apply filter_neighbors_inv|by apply filter_neighbors_from_history].
      split; [done|]. split; [done|]. split; [done|].
      exists (S k). split; [lia|]. split; [|lia].
      unfold doubled. by rewrite Nat.iter_succ_r.
    + intros [= <- <-].
      repeat split; [apply Hinv..|apply Hhist|apply Hhist|apply Hhist|lia|].
      exists 0%nat. repeat split; [lia|]. lia.
Qed.

Lemma neighbours_from_history_start p : neighbours_from_history p no_neighbors.
Proof. repeat split; cbn; [done..|]. apply Forall_nil_2. Qed.

(** X4. When [predict_next_evaluation] returns, the fit was made on at least
    four neighbours with pairwise distinct post-evaluations, all samples of
    the history, after [k ≥ 1] expansions and with the kernel width
    [sigma / 2 * 2^k]; the two results have one component per component of
    the weight, and the second is the first plus the policy's evaluation. *)
Theorem predict_returns_on_four_neighbours `{Externals} :
  ∀ (fuel : nat) (p : t) (weight_candidate policy_eval delta predicted : vec),
    predict_next_evaluation fuel p weight_candidate policy_eval = Ret (delta, predicted) →
    ∃ (nb : neighbors) (k : nat),
      (1 ≤ k ≤ fuel)%nat
      ∧ expand_neighborhood fuel p policy_eval (sigma p / Qc_of_Z 2)
          (neighborhood_threshold p / Qc_of_Z 2) no_neighbors
        = Ret (nb, doubled k (sigma p / Qc_of_Z 2))
      ∧ (4 ≤ length (neighbor_weights nb))%nat
      ∧ NoDup (neighbor_next_perf nb)
      ∧ neighbours_from_history p nb
      ∧ delta
        = (λ obj_num,
             build_model_and_predict (neighbor_weights nb) (neighbor_deltas nb)
               (neighbor_next_perf nb) obj_num policy_eval weight_candidate
               (doubled k (sigma p / Qc_of_Z 2)))
          <$> seq 0 (length weight_candidate)
      ∧ length delta = length weight_candidate
      ∧ predicted = vadd delta policy_eval.
Proof.
  intros fuel p w e delta predicted Hrun. unfold predict_next_evaluation in Hrun.
  inv_bind Hrun as [nb s'] Hexpand. injection Hrun as <- <-.
  pose proof Hexpand as Hexpand'.
  apply expand_neighborhood_returns_inv in Hexpand'
    as (Hinv & Hhist & Hlen & k & Hk & -> & Hk1);
    [|apply search_inv_start|apply neighbours_from_history_start].
  exists nb, k. split; [cbn in Hk1; lia|]. split; [done|]. split; [done|].
  split; [apply Hinv|]. split; [done|]. split; [done|].
  split; [by rewrite length_fmap, length_seq|done].
Qed.


(** *** Termination of the search *)

Lemma zip3_covers_middle (xs ys zs : list vec) y :
  length xs = length ys → length ys = length zs → y ∈ ys →
  ∃ x z, (x, y, z) ∈ zip (zip xs ys) zs.
Proof.
  intros Hxy Hyz [i Hi]%list_elem_of_lookup.
  pose proof (lookup_lt_Some _ _ _ Hi) as Hlt.
  destruct (lookup_lt_is_Some_2 xs i) as [x Hx]; [lia|].
  destruct (lookup_lt_is_Some_2 zs i) as [z Hz]; [lia|].
  exists x, z. apply list_elem_of_lookup. exists i.
  rewrite !lookup_zip_with, Hx. cbn [mbind option_bind]. rewrite Hi.
  cbn [mbind option_bind]. by rewrite Hz.
Qed.

(** A pass at a threshold that every sample meets collects every
    post-evaluation of the history. *)
Lemma filter_neighbors_covers threshold policy_eval p nb :
  length (previous_performance p) = length (next_performance p) →
  length (next_performance p) = length (used_weight p) →
  all_within p policy_eval threshold →
  ∀ y, y ∈ next_performance p →
       y ∈ neighbor_next_perf (filter_neighbors threshold policy_eval p nb).
Proof.
  intros Hpn Hnu Hall y Hy.
  destruct (zip3_covers_middle _ _ _ y Hpn Hnu Hy) as (x & z & Hin).
  unfold filter_neighbors.
  assert (Hnear : ∀ t, t ∈ zip (zip (previous_performance p) (next_performance p))
                             (used_weight p) →
                       in_neighborhood threshold t.1.1 policy_eval = true).
  { intros [[a b] c] Ht. cbn. apply elem_of_zip_l, elem_of_zip_l in Ht.
    by apply (proj1 (Forall_forall _ _) Hall). }
  revert Hin Hnear nb.
  generalize (zip (zip (previous_performance p) (next_performance p)) (used_weight p)).
  intros l Hin Hnear.
  assert (Hgoal : ∀ nb, (x, y, z) ∈ l ∨ y ∈ neighbor_next_perf nb →
            y ∈ neighbor_next_perf
                  (foldl (λ nb '(previous_perf, next_perf, neighb_w),
                            if in_neighborhood threshold previous_perf policy_eval
                               && bool_decide (next_perf ∉ neighbor_next_perf nb)
                            then {| neighbor_weights := neighbor_weights nb ++ [neighb_w];
                                    neighbor_deltas :=
                                      neighbor_deltas nb ++ [vsub next_perf previous_perf];
                                    neighbor_next_perf := neighbor_next_perf nb ++ [next_perf] |}
                            else nb) nb l)); [|by auto].
  clear Hin. induction l as [|[[a b] c] l IH]; intros nb Hor.
  - destruct Hor as [Hin|Hin]; [by apply elem_of_nil in Hin|done].
  - cbn [foldl]. apply IH; [intros t Ht; apply Hnear; by right|].
    pose proof (Hnear (a, b, c) ltac:(by left)) as Ha. cbn [fst snd] in Ha.
    rewrite Ha. cbn [andb].
    destruct Hor as [[[= <- <- <-]|Hin]%elem_of_cons|Hin].
    + right. case_bool_decide as Hnew; cbn.
      * apply elem_of_app. right. by left.
      * done.
    + by left.
    + right. case_bool_decide; cbn; [|done]. apply elem_of_app. by left.
Qed.

Lemma covers_enough p nb :
  search_inv p nb →
  (∀ y, y ∈ next_performance p → y ∈ neighbor_next_perf nb) →
  (distinct_posts p ≤ length (neighbor_weights nb))%nat.
Proof.
  intros (_ & _ & ->) Hcov. unfold distinct_posts.
  apply submseteq_length, NoDup_submseteq; [apply NoDup_remove_dups|].
  intros y Hy. apply Hcov. by apply (proj1 (elem_of_remove_dups _ _)).
Qed.

Lemma doubled_succ_r k x : doubled (S k) x = doubled k (x * Qc_of_Z 2).
Proof. unfold doubled. by rewrite Nat.iter_succ_r. Qed.

(** If every sample is within the threshold reached by [m ≥ 1] doublings,
    the search returns within [m] expansions. *)
Lemma expand_neighborhood_returns m p policy_eval s threshold nb :
  length (previous_performance p) = length (next_performance p) →
  length (next_performance p) = length (used_weight p) →
  (4 ≤ distinct_posts p)%nat →
  search_inv p nb →
  (m = 0%nat → ∀ y, y ∈ next_performance p → y ∈ neighbor_next_perf nb) →
  all_within p policy_eval (doubled m threshold) →
  ∃ r, expand_neighborhood m p policy_eval s threshold nb = Ret r.
Proof.
  intros Hpn Hnu Hfour. revert s threshold nb.
  induction m as [|m IH]; intros s threshold nb Hinv Hcov Hall; cbn.
  - rewrite bool_decide_eq_false_2; [eauto|].
    pose proof (covers_enough p nb Hinv (Hcov eq_refl)). lia.
  - case_bool_decide; [|eauto].
    rewrite doubled_succ_r in Hall.
    apply IH; [by apply filter_neighbors_inv| |done].
    intros ->. by apply filter_neighbors_covers.
Qed.

Lemma doubled_mult k x : doubled k x = x * Qc_of_Z (2 ^ Z.of_nat k).
Proof.
  induction k as [|k IH].
  - unfold doubled. cbn [Nat.iter nat_rect]. change (2 ^ Z.of_nat 0)%Z with 1%Z.
    rewrite Z2Qc_inj_1. ring.
  - unfold doubled in *. rewrite Nat.iter_succ, IH.
    rewrite Nat2Z.inj_succ, Z.pow_succ_r by lia.
    rewrite Z2Qc_inj_mul. ring.
Qed.

Lemma doubled_mono k k' x : (k ≤ k')%nat → 0 ≤ x → doubled k x ≤ doubled k' x.
Proof.
  intros Hk Hx. rewrite !doubled_mult.
  apply Qcmult_le_mono_nonneg_l; [done|].
  apply (proj1 (Z2Qc_inj_le _ _)). apply Z.pow_le_mono_r; lia.
Qed.

Lemma Qc_below_integer (x : Qc) : ∃ z : Z, (0 ≤ z)%Z ∧ x < Qc_of_Z z.
Proof.
  exists (Z.max 0 (Qfloor (this x) + 1)). split; [lia|].
  apply (Qclt_le_trans _ (Qc_of_Z (Qfloor (this x) + 1))); [exact (Qlt_floor (this x))|].
  apply (proj1 (Z2Qc_inj_le _ _)). lia.
Qed.

(** Doubling a positive number often enough exceeds any bound. *)
Lemma doubled_unbounded (a b : Qc) : 0 < b → ∃ k, a < doubled k b.
Proof.
  intros Hb. destruct (Qc_below_integer (a / b)) as (z & Hz & Hlt).
  exists (Z.to_nat z). rewrite doubled_mult, Z2Nat.id by done.
  assert (Hbne : b ≠ 0) by (by apply not_eq_sym, Qclt_not_eq).
  replace a with (b * (a / b)) by (by field).
  apply Qcmult_lt_mono_pos_l; [done|].
  eapply Qclt_trans; [exact Hlt|].
  apply (proj1 (Z2Qc_inj_lt _ _)). apply Z.pow_gt_lin_r; lia.
Qed.

Lemma exists_uniform {A} (Q : nat → A → Prop) (l : list A) :
  (∀ k k' x, (k ≤ k')%nat → Q k x → Q k' x) →
  (∀ x, x ∈ l → ∃ k, Q k x) →
  ∃ K, ∀ x, x ∈ l → Q K x.
Proof.
  intros Hmono. induction l as [|x l IH]; intros Hex.
  - exists 0%nat. by intros x ?%elem_of_nil.
  - destruct (Hex x) as [k Hk]; [by left|].
    destruct IH as [K HK]; [intros y Hy; apply Hex; by right|].
    exists (k `max` K)%nat. intros y [->|Hy]%elem_of_cons.
    + eapply Hmono; [|exact Hk]. lia.
    + eapply Hmono; [|by apply HK]. lia.
Qed.

Lemma in_neighborhood_mono thr thr' previous_perf policy_eval :
  thr ≤ thr' →
  in_neighborhood thr previous_perf policy_eval = true →
  in_neighborhood thr' previous_perf policy_eval = true.
Proof.
  intros Hle. unfold in_neighborhood. rewrite !forallb_forall.
  intros Hall [d e] Hin. specialize (Hall _ Hin). cbn in *.
  apply bool_decide_eq_true_1 in Hall. apply bool_decide_eq_true_2.
  eapply Qclt_le_trans; [exact Hall|].
  apply Qcmult_le_compat_r; [done|apply Qcabs_nonneg].
Qed.

Lemma Qcabs_pos_nonzero (x : Qc) : x ≠ 0 → 0 < Qcabs x.
Proof.
  intros Hx. destruct (Qcle_lt_or_eq _ _ (Qcabs_nonneg x)) as [|Heq]; [done|].
  symmetry in Heq. by apply Qcabs_null in Heq.
Qed.

Lemma in_neighborhood_eventually t0 previous_perf policy_eval :
  0 < t0 → Forall (λ e, e ≠ 0) policy_eval →
  ∃ K, in_neighborhood (doubled K t0) previous_perf policy_eval = true.
Proof.
  intros Ht0 Hnz. unfold in_neighborhood.
  destruct (exists_uniform
              (λ k (de : Qc * Qc), Qcabs de.1 < doubled k t0 * Qcabs de.2)
              (zip (vsub previous_perf policy_eval) policy_eval)) as [K HK].
  - intros k k' [d e] Hk Hlt. cbn in *.
    eapply Qclt_le_trans; [exact Hlt|].
    apply Qcmult_le_compat_r; [|apply Qcabs_nonneg].
    apply doubled_mono; [done|by apply Qclt_le_weak].
  - intros [d e] Hin. cbn.
    assert (e ≠ 0) as He.
    { apply elem_of_zip_r in Hin. by apply (proj1 (Forall_forall _ _) Hnz). }
    destruct (doubled_unbounded (Qcabs d) (t0 * Qcabs e)) as [k Hk].
    { apply Qcmult_pos_pos; [done|by apply Qcabs_pos_nonzero]. }
    exists k. rewrite doubled_mult in *.
    by replace (t0 * Qc_of_Z (2 ^ Z.of_nat k) * Qcabs e)
      with (t0 * Qcabs e * Qc_of_Z (2 ^ Z.of_nat k)) by ring.
  - exists K. apply forallb_forall. intros [d e] Hin%list_elem_of_In.
    apply bool_decide_eq_true_2. by apply (HK (d, e)).
Qed.

Lemma all_within_eventually p policy_eval t0 :
  0 < t0 → Forall (λ e, e ≠ 0) policy_eval →
  ∃ K, (1 ≤ K)%nat ∧ all_within p policy_eval (doubled K t0).
Proof.
  intros Ht0 Hnz.
  destruct (exists_uniform
              (λ k prev, in_neighborhood (doubled k t0) prev policy_eval = true)
              (previous_performance p)) as [K HK].
  - intros k k' prev Hk. apply in_neighborhood_mono, doubled_mono; [done|].
    by apply Qclt_le_weak.
  - intros prev _. by apply in_neighborhood_eventually.
  - exists (S K). split; [lia|]. apply Forall_forall. intros prev Hprev.
    eapply in_neighborhood_mono; [|by apply HK].
    apply doubled_mono; [lia|by apply Qclt_le_weak].
Qed.

(** X5. With a positive threshold, an evaluation none of whose components is 0,
    a candidate weight of the same shape, and a history of parallel lists
    of that shape holding at least four distinct post-evaluations, the
    search ends and [predict_next_evaluation] returns a delta and a
    prediction of that shape. *)
Theorem predict_returns_with_four_samples `{Externals} :
  ∀ (p : t) (weight_candidate policy_eval : vec),
    0 < neighborhood_threshold p →
    Forall (λ e, e ≠ 0) policy_eval →
    length weight_candidate = length policy_eval →
    well_shaped (length policy_eval) p →
    length (previous_performance p) = length (next_performance p) →
    length (next_performance p) = length (used_weight p) →
    (4 ≤ distinct_posts p)%nat →
    ∃ (fuel : nat) (delta predicted : vec),
      predict_next_evaluation fuel p weight_candidate policy_eval = Ret (delta, predicted)
      ∧ length delta = length policy_eval
      ∧ length predicted = length policy_eval.
Proof.
  intros p w e Hthr Hnz Hw _ Hpn Hnu Hfour.
  assert (Hhalf : 0 < neighborhood_threshold p / Qc_of_Z 2).
  { unfold Qcdiv. apply Qcmult_pos_pos; [done|]. by apply Qcinv_pos. }
  destruct (all_within_eventually p e _ Hhalf Hnz) as (K & HK1 & HK).
  destruct (expand_neighborhood_returns K p e (sigma p / Qc_of_Z 2)
              (neighborhood_threshold p / Qc_of_Z 2) no_neighbors)
    as [[nb s] Hrun]; [done|done|done|apply search_inv_start|lia|done|].
  exists K. unfold predict_next_evaluation. rewrite Hrun. cbn.
  eexists _, _. split; [reflexivity|].
  unfold vadd. rewrite length_zip_with, length_fmap, length_seq, Hw. lia.
Qed.

End predictor_more.

(** ** The performance buffer, continued *)

Section buffer_more.

Import PerformanceBuffer.
Context `{Externals}.

Lemma concat_insert {A} (ls : list (list A)) k (x y : list A) :
  ls !! k = Some x →
  concat ls = concat (take k ls) ++ x ++ concat (drop (S k) ls)
  ∧ concat (<[k := y]> ls) = concat (take k ls) ++ y ++ concat (drop (S k) ls).
Proof.
  intros Hk. pose proof (lookup_lt_Some _ _ _ Hk) as Hlt. split.
  - rewrite <- (take_drop_middle ls k x Hk) at 1. by rewrite concat_app, concat_cons.
  - rewrite insert_take_drop by done. by rewrite concat_app, concat_cons.
Qed.

(** What one [add] does to a well-formed archive, whatever the case: the
    sectors other than the target are untouched; in the target the
    individual and its evaluation are appended, or put in place of one
    occupant, or nothing happens; a change stores one new object, a copy
    of the candidate, and no existing object is modified. *)
Lemma add_cases σ b candidate evaluation σ' b' :
  buffer_wf b →
  add σ b candidate evaluation = Ret (σ', b') →
  (σ' = σ ∧ b' = b)
  ∨ ∃ (k : nat) (bin bin' : list loc) (evals evals' : list vec),
      let copy := fresh (dom σ) in
      angle_bin (num_bins b) (center_eval b evaluation) = Z.of_nat k
      ∧ bins b !! k = Some bin ∧ bins_evals b !! k = Some evals
      ∧ σ' = <[copy := σ !!! candidate]> σ
      ∧ b' = {| num_bins := num_bins b; max_size := max_size b; origin := origin b;
                bins := <[k := bin']> (bins b);
                bins_evals := <[k := evals']> (bins_evals b) |}
      ∧ ((length bin < max_size b)%nat
         ∧ bin' = bin ++ [copy] ∧ evals' = evals ++ [evaluation]
         ∨ (max_size b ≤ length bin)%nat
           ∧ ∃ (i : nat) (e : vec),
               list_find (weaker_than b evaluation) evals = Some (i, e)
               ∧ bin' = <[i := copy]> bin ∧ evals' = <[i := evaluation]> evals).
Proof.
  intros [Hlen Hbins]. unfold add.
  set (buffer_id := angle_bin _ _).
  case_decide as Hrange; [intros [= <- <-]; by left|].
  destruct (lookup_lt_is_Some_2 (bins b) (Z.to_nat buffer_id)) as [bin Hbin]; [lia|].
  destruct (Forall2_lookup_l _ _ _ _ _ Hbins Hbin) as (evals & Hevals & Hsame & Hcap).
  rewrite Hbin, Hevals.
  case_decide as Hspare.
  - unfold deepcopy, alloc. cbn. intros [= <- <-]. right.
    exists (Z.to_nat buffer_id), bin, (bin ++ [fresh (dom σ)]), evals, (evals ++ [evaluation]).
    cbn. split; [lia|]. repeat split; try done. left. done.
  - rewrite Hsame, first_weaker_find.
    destruct (list_find _ evals) as [[i e]|] eqn:Hfind; cbn; [|intros [= <- <-]; by left].
    unfold deepcopy, alloc. cbn. intros [= <- <-]. right.
    exists (Z.to_nat buffer_id), bin, (<[i := fresh (dom σ)]> bin), evals,
           (<[i := evaluation]> evals).
    cbn. split; [lia|]. repeat split; try done. right. split; [lia|]. by exists i, e.
Qed.


(** X6. [add] changes at most the target sector and never an existing object. *)
Theorem add_touches_only_its_bin :
  ∀ (σ σ' : store) (b b' : t) (candidate : loc) (evaluation : vec),
    buffer_wf b →
    add σ b candidate evaluation = Ret (σ', b') →
    (∀ l a, σ !! l = Some a → σ' !! l = Some a)
    ∧ (∀ l, σ !! l = None → is_Some (σ' !! l) →
            l = fresh (dom σ) ∧ σ' !! l = Some (σ !!! candidate))
    ∧ num_bins b' = num_bins b ∧ max_size b' = max_size b ∧ origin b' = origin b
    ∧ ∀ k : nat,
        Z.of_nat k ≠ angle_bin (num_bins b) (center_eval b evaluation) →
        bins b' !! k = bins b !! k ∧ bins_evals b' !! k = bins_evals b !! k.
Proof.
  intros σ σ' b b' candidate evaluation Hwf Hadd.
  destruct (add_cases _ _ _ _ _ _ Hwf Hadd)
    as [[-> ->]|(k & bin & bin' & evals & evals' & Hid & Hbin & Hevals & -> & -> & _)].
  - split; [done|]. split; [|done]. intros l Hnone [a Ha]. congruence.
  - assert (Hfresh : σ !! fresh (dom σ) = None) by apply not_elem_of_dom, is_fresh.
    cbn. split; [|split; [|split; [done|split; [done|split; [done|]]]]].
    + intros l a Hl. rewrite lookup_insert_ne; [done|]. congruence.
    + intros l Hnone Hsome.
      destruct (decide (fresh (dom σ) = l)) as [<-|Hne].
      * split; [done|]. by rewrite lookup_insert_eq.
      * rewrite lookup_insert_ne in Hsome by done. destruct Hsome. congruence.
    + intros k' Hk'. split; apply list_lookup_insert_ne; lia.
Qed.

Lemma list_find_insert_weaker b evaluation (evals : list vec) i e :
  list_find (weaker_than b evaluation) evals = Some (i, e) →
  ∀ e', e' ∈ <[i := evaluation]> evals →
        ∃ e0, e0 ∈ evals
              ∧ norm_sq (center_eval b e0) ≤ norm_sq (center_eval b e').
Proof.
  intros (Hi & Hweak & _)%list_find_Some e' [j Hj]%list_elem_of_lookup.
  destruct (decide (i = j)) as [<-|Hne].
  - rewrite list_lookup_insert_eq in Hj by (by eapply lookup_lt_Some). injection Hj as <-.
    exists e. split; [by eapply list_elem_of_lookup_2|]. by apply Qclt_le_weak.
  - rewrite list_lookup_insert_ne in Hj by done.
    exists e'. split; [by eapply list_elem_of_lookup_2|apply Qcle_refl].
Qed.

(** X7. A full bin never gets weaker: after [add] it has as many occupants as
    before, and each of them has a centred norm at least that of some
    occupant it had before (so the smallest norm in the bin cannot
    decrease). *)
Theorem full_bin_never_weaker :
  ∀ (σ σ' : store) (b b' : t) (candidate : loc) (evaluation : vec)
    (k : nat) (evals evals' : list vec),
    buffer_wf b →
    add σ b candidate evaluation = Ret (σ', b') →
    bins_evals b !! k = Some evals →
    bins_evals b' !! k = Some evals' →
    (max_size b ≤ length evals)%nat →
    length evals' = length evals
    ∧ ∀ e', e' ∈ evals' →
            ∃ e, e ∈ evals ∧ norm_sq (center_eval b e) ≤ norm_sq (center_eval b e').
Proof.
  intros σ σ' b b' candidate evaluation k evals evals' Hwf Hadd Hk Hk' Hfull.
  assert (Hsame : evals' = evals →
            length evals' = length evals
            ∧ ∀ e', e' ∈ evals' →
                ∃ e, e ∈ evals ∧ norm_sq (center_eval b e) ≤ norm_sq (center_eval b e')).
  { intros ->. split; [done|]. intros e' He'. exists e'. split; [done|apply Qcle_refl]. }
  destruct (add_cases _ _ _ _ _ _ Hwf Hadd)
    as [[-> ->]|(k0 & bin & bin' & evs & evs' & Hid & Hbin & Hevals & -> & -> & Hcase)].
  { apply Hsame. congruence. }
  cbn in Hk'. destruct (decide (k0 = k)) as [->|Hne].
  - rewrite list_lookup_insert_eq in Hk' by (by eapply lookup_lt_Some).
    injection Hk' as <-. rewrite Hk in Hevals. injection Hevals as <-.
    destruct Hwf as [_ Hbins].
    destruct (Forall2_lookup_lr _ _ _ _ _ _ Hbins Hbin Hk) as [Hlen _].
    destruct Hcase as [(Hspare & _ & _)|(_ & i & e & Hfind & _ & ->)]; [lia|].
    split; [apply length_insert|]. by eapply list_find_insert_weaker.
  - rewrite list_lookup_insert_ne in Hk' by done. apply Hsame. congruence.
Qed.

Lemma NoDup_replace_middle {A} (L1 B B' L2 : list A) (c : A) :
  NoDup (L1 ++ B ++ L2) → NoDup B' →
  (∀ x, x ∈ B' → x ∈ B ∨ x = c) →
  c ∉ L1 ++ B ++ L2 →
  NoDup (L1 ++ B' ++ L2).
Proof.
  intros Hnd HB' Hsub Hc.
  apply NoDup_app in Hnd as (H1 & H12 & Hnd).
  apply NoDup_app in Hnd as (HB & HB2 & H2).
  apply NoDup_app. split; [done|]. split.
  - intros x Hx [Hin|Hin]%elem_of_app.
    + destruct (Hsub x Hin) as [HinB| ->].
      * apply (H12 x Hx). apply elem_of_app. by left.
      * apply Hc. apply elem_of_app. by left.
    + apply (H12 x Hx). apply elem_of_app. by right.
  - apply NoDup_app. split; [done|]. split; [|done].
    intros x Hin Hx2. destruct (Hsub x Hin) as [HinB| ->].
    + by apply (HB2 x).
    + apply Hc. apply elem_of_app. right. apply elem_of_app. by right.
Qed.

Lemma elem_of_insert_inv {A} (l : list A) i c x :
  x ∈ <[i := c]> l → x ∈ l ∨ x = c.
Proof.
  revert i. induction l as [|a l IH]; intros [|i]; cbn; try by left.
  - intros [->|Hx]%elem_of_cons; [by right|left; by right].
  - intros [->|Hx]%elem_of_cons; [left; by left|].
    destruct (IH i Hx) as [?|?]; [left; by right|by right].
Qed.

Lemma NoDup_insert_fresh {A} (l : list A) i c :
  NoDup l → c ∉ l → NoDup (<[i := c]> l).
Proof.
  revert i. induction l as [|a l IH]; intros [|i] Hnd Hc; cbn; try done.
  - apply NoDup_cons in Hnd as [_ Hnd]. apply NoDup_cons. split; [|done].
    intros Hin. apply Hc. by right.
  - apply NoDup_cons in Hnd as [Ha Hnd]. apply NoDup_cons. split.
    + intros [Hin| ->]%elem_of_insert_inv; [done|]. apply Hc. by left.
    + apply IH; [done|]. intros Hin. apply Hc. by right.
Qed.

Lemma add_owns_copies σ0 σ b candidate evaluation σ' b' :
  buffer_wf b → archive_owns_copies σ0 σ b →
  add σ b candidate evaluation = Ret (σ', b') →
  archive_owns_copies σ0 σ' b'.
Proof.
  intros Hwf (Hsub & Hnd & Hall) Hadd.
  destruct (add_cases _ _ _ _ _ _ Hwf Hadd)
    as [[-> ->]|(k & bin & bin' & evals & evals' & Hid & Hbin & Hevals & -> & -> & Hcase)];
    [done|].
  set (copy := fresh (dom σ)) in *.
  assert (Hfresh : σ !! copy = None) by apply not_elem_of_dom, is_fresh.
  assert (Hfresh0 : σ0 !! copy = None) by (by eapply lookup_weaken_None).
  assert (Hnotin : copy ∉ individuals b).
  { intros Hin. destruct (proj1 (Forall_forall _ _) Hall _ Hin) as [[a Ha] _]. congruence. }
  destruct (concat_insert (bins b) k bin bin' Hbin) as [Hold Hnew].
  unfold archive_owns_copies, individuals in *. cbn [bins].
  rewrite Hnew. rewrite Hold in Hnd, Hnotin, Hall.
  assert (Hbin' : NoDup bin' ∧ ∀ x, x ∈ bin' → x ∈ bin ∨ x = copy).
  { assert (NoDup bin ∧ copy ∉ bin) as [Hndbin Hcbin].
    { pose proof Hnd as Hnd'. apply NoDup_app in Hnd' as (_ & _ & Hnd').
      apply NoDup_app in Hnd' as (Hnd' & _ & _). split; [done|].
      intros Hin. apply Hnotin. apply elem_of_app. right. apply elem_of_app. by left. }
    destruct Hcase as [(_ & -> & _)|(_ & i & e & Hfind & -> & _)].
    - split.
      + apply NoDup_app. split; [done|]. split; [|apply NoDup_singleton].
        by intros x Hx ->%list_elem_of_singleton.
      + intros x [Hx| ->%list_elem_of_singleton]%elem_of_app; auto.
    - split; [by apply NoDup_insert_fresh|apply elem_of_insert_inv]. }
  destruct Hbin' as [Hndbin' Hsubbin'].
  split; [by apply insert_subseteq_r|]. split.
  - by eapply NoDup_replace_middle.
  - apply Forall_forall. intros x Hx.
    assert (x = copy ∨ x ∈ concat (take k (bins b)) ++ bin ++ concat (drop (S k) (bins b)))
      as [->|Hin].
    { apply elem_of_app in Hx as [Hx|Hx]; [right; apply elem_of_app; by left|].
      apply elem_of_app in Hx as [Hx|Hx].
      - destruct (Hsubbin' x Hx) as [?|?]; [right|by left].
        apply elem_of_app. right. apply elem_of_app. by left.
      - right. apply elem_of_app. right. apply elem_of_app. by right. }
    + split; [by rewrite lookup_insert_eq|done].
    + destruct (proj1 (Forall_forall _ _) Hall _ Hin) as [[a Ha] Hx0].
      split; [|done]. exists a. rewrite lookup_insert_ne; [done|]. congruence.
Qed.

Lemma concat_replicate_nil {A} n : concat (replicate n ([] : list A)) = [].
Proof. induction n as [|n IH]; [done|]. by cbn. Qed.

Lemma add_all_owns_copies σ0 σ b calls σ' b' :
  buffer_wf b → archive_owns_copies σ0 σ b →
  add_all σ b calls = Ret (σ', b') →
  archive_owns_copies σ0 σ' b'.
Proof.
  revert σ b. induction calls as [|[candidate evaluation] calls IH]; intros σ b Hwf Hown Hrun.
  - cbn in Hrun. by injection Hrun as <- <-.
  - cbn in Hrun. inv_bind Hrun as [σ1 b1] Hadd.
    destruct (add_wf σ b candidate evaluation Hwf) as (σ1' & b1' & Hadd' & Hwf1 & _).
    rewrite Hadd in Hadd'. injection Hadd' as <- <-.
    apply (IH σ1 b1); [done| |done].
    exact (add_owns_copies _ _ _ _ _ _ _ Hwf Hown Hadd).
Qed.

(** X8. The archive holds copies, never the agents themselves: after any
    sequence of [add] calls on a new archive, its individuals are pairwise
    distinct objects, all created by the calls (none was in the store
    before), and every object that was in the store before is unchanged. *)
Theorem archive_holds_distinct_copies :
  ∀ (num_bins max_size : nat) (ref_point : vec) (b0 b' : t) (σ0 σ' : store)
    (calls : list (loc * vec)),
    init num_bins max_size ref_point = Ret b0 →
    add_all σ0 b0 calls = Ret (σ', b') →
    NoDup (individuals b')
    ∧ (∀ l, l ∈ individuals b' → is_Some (σ' !! l) ∧ σ0 !! l = None)
    ∧ (∀ l a, σ0 !! l = Some a → σ' !! l = Some a).
Proof.
  intros n m ref b0 b' σ0 σ' calls Hinit Hrun.
  destruct (init_wf _ _ _ _ Hinit) as (Hwf0 & _ & _).
  assert (Hown0 : archive_owns_copies σ0 σ0 b0).
  { unfold init in Hinit. case_decide; [done|]. injection Hinit as <-.
    unfold archive_owns_copies, individuals. cbn. rewrite concat_replicate_nil.
    split; [done|]. split; [apply NoDup_nil_2|apply Forall_nil_2]. }
  destruct (add_all_owns_copies _ _ _ _ _ _ Hwf0 Hown0 Hrun) as (Hsub & Hnd & Hall).
  split; [done|]. split.
  - intros l Hl. by apply (proj1 (Forall_forall _ _) Hall).
  - intros l a Hl. by eapply lookup_weaken.
Qed.

Lemma concat_lengths (ls : list (list loc)) (es : list (list vec)) m :
  Forall2 (λ bin evals, length bin = length evals ∧ (length bin ≤ m)%nat) ls es →
  length (concat ls) = length (concat es) ∧ (length (concat ls) ≤ length ls * m)%nat.
Proof.
  induction 1 as [|bin evals ls es [Hsame Hcap] _ [IH1 IH2]]; cbn; [done|].
  rewrite !length_app. lia.
Qed.

(** X9. The flattened views stay parallel and bounded: after any sequence of
    [add] calls on a new archive, [individuals] and [evaluations] have the
    same length, at most [num_bins * max_size]. *)
Theorem population_parallel_and_bounded :
  ∀ (num_bins max_size : nat) (ref_point : vec) (b0 b' : t) (σ0 σ' : store)
    (calls : list (loc * vec)),
    init num_bins max_size ref_point = Ret b0 →
    add_all σ0 b0 calls = Ret (σ', b') →
    length (individuals b') = length (evaluations b')
    ∧ (length (individuals b') ≤ num_bins * max_size)%nat.
Proof.
  intros n m ref b0 b' σ0 σ' calls Hinit Hrun.
  destruct (init_wf _ _ _ _ Hinit) as (Hwf0 & Hn0 & Hm0).
  destruct (add_all_wf σ0 b0 calls Hwf0) as (σ1 & b1 & Hrun' & [Hlen Hbins] & Hn & Hm).
  rewrite Hrun in Hrun'. injection Hrun' as <- <-.
  destruct (concat_lengths _ _ _ Hbins) as [Hsame Hbound].
  unfold individuals, evaluations. split; [done|].
  rewrite Hlen, Hn, Hn0, Hm, Hm0 in Hbound. done.
Qed.

End buffer_more.

(** ** The constructor, continued *)

Section init_more.

Import PGMORL.

Lemma make_agents_spec nets weights indices σ ls σ' :
  make_agents nets weights indices σ = Ret (ls, σ') →
  σ ⊆ σ'
  ∧ NoDup ls
  ∧ Forall2 (λ i l, ∃ net w, nets !! i = Some net ∧ weights !! i = Some w
                             ∧ σ' !! l = Some (MOPPO_new i net w) ∧ σ !! l = None)
            indices ls
  ∧ ∀ l, is_Some (σ' !! l) → is_Some (σ !! l) ∨ l ∈ ls.
Proof.
  revert σ ls σ'. induction indices as [|i indices IH]; intros σ ls σ' Hrun; cbn in Hrun.
  - injection Hrun as <- <-. split; [done|]. split; [apply NoDup_nil_2|].
    split; [apply Forall2_nil_2|]. auto.
  - destruct (nets !! i) as [net|] eqn:Hnet; [|done].
    destruct (weights !! i) as [w|] eqn:Hw; [|done].
    unfold alloc in Hrun. cbn in Hrun.
    set (l := fresh (dom σ)) in *.
    assert (Hfresh : σ !! l = None) by apply not_elem_of_dom, is_fresh.
    inv_bind Hrun as [ls' σ''] Hrest. injection Hrun as <- <-.
    apply IH in Hrest as (Hsub & Hnd & Hall & Hdom).
    assert (Hl : σ'' !! l = Some (MOPPO_new i net w)).
    { eapply lookup_weaken; [|exact Hsub]. by rewrite lookup_insert_eq. }
    split; [|split; [|split]].
    + etrans; [|exact Hsub]. by apply insert_subseteq.
    + apply NoDup_cons. split; [|done]. intros Hin.
      apply list_elem_of_lookup in Hin as [j Hj].
      destruct (Forall2_lookup_r _ _ _ _ _ Hall Hj) as (i' & _ & net' & w' & _ & _ & _ & Hnone).
      by rewrite lookup_insert_eq in Hnone.
    + apply Forall2_cons. split; [by exists net, w|].
      eapply Forall2_impl; [exact Hall|]. cbn.
      intros i' l' (net' & w' & ? & ? & ? & Hnone). exists net', w'.
      repeat split; try done. eapply lookup_weaken_None; [exact Hnone|].
      by apply insert_subseteq.
    + intros l' Hsome. destruct (Hdom l' Hsome) as [Hin|Hin]; [|right; by right].
      destruct (decide (l = l')) as [<-|Hne]; [right; by left|].
      left. by rewrite lookup_insert_ne in Hin.
Qed.

Lemma make_agents_returns nets weights indices σ :
  Forall (λ i, (i < length nets)%nat ∧ (i < length weights)%nat) indices →
  ∃ r, make_agents nets weights indices σ = Ret r.
Proof.
  revert σ. induction indices as [|i indices IH]; intros σ Hall; cbn; [eauto|].
  apply Forall_cons in Hall as [[Hn Hw] Hall].
  destruct (lookup_lt_is_Some_2 nets i Hn) as [net ->].
  destruct (lookup_lt_is_Some_2 weights i Hw) as [w ->].
  unfold alloc. cbn. destruct (IH (<[fresh (dom σ) := MOPPO_new i net w]> σ) Hall) as [[ls σ'] ->].
  cbn. eauto.
Qed.

Lemma make_agents_fails nets weights indices σ r :
  make_agents nets weights indices σ = Ret r →
  Forall (λ i, (i < length nets)%nat) indices.
Proof.
  revert σ r. induction indices as [|i indices IH]; intros σ r Hrun; cbn in Hrun; [done|].
  destruct (nets !! i) as [net|] eqn:Hnet; [|done].
  destruct (weights !! i) as [w|] eqn:Hw; [|done].
  unfold alloc in Hrun. cbn in Hrun. inv_bind Hrun as [ls σ'] Hrest.
  apply Forall_cons. split; [by eapply lookup_lt_Some|by eapply IH].
Qed.

Lemma floordiv_Ret a b r : floordiv a b = Ret r ↔ b ≠ 0%Z ∧ r = (a `div` b)%Z.
Proof.
  unfold floordiv. case_decide; split.
  - done.
  - by intros [? _].
  - by intros [= <-].
  - by intros [_ ->].
Qed.

(** X10. The constructor succeeds exactly when the action space is a box, no
    divisor is zero, no environment object is passed, the spacing is not
    zero, and the number of generated weights, [int(1/delta_weight) + 1], is
    not negative and not above [pop_size], the number of networks built. *)
Theorem init_succeeds_iff :
  ∀ c : config,
    (∃ s, init c = Ret s)
    ↔ action_space_is_box c = true
      ∧ c_steps_per_iteration c ≠ 0%Z
      ∧ c_num_envs c ≠ 0%Z
      ∧ c_num_performance_buffer c ≠ 0%nat
      ∧ c_num_minibatches c ≠ 0%Z
      ∧ env_given c = false
      ∧ c_delta_weight c ≠ 0
      ∧ (0 ≤ py_int (1 / c_delta_weight c) + 1 ≤ 0 `max` c_pop_size c)%Z.
Proof.
  intros c. unfold init. split.
  - intros [s Hrun].
    destruct (action_space_is_box c); [cbn in Hrun|done].
    inv_bind Hrun as steps Hsteps. inv_bind Hrun as max_it Hmax.
    inv_bind Hrun as buffer Hbuffer. inv_bind Hrun as minibatch Hminibatch.
    destruct (env_given c); [done|].
    inv_bind Hrun as weights Hweights. inv_bind Hrun as [ls σ] Hagents.
    apply floordiv_Ret in Hsteps as [? _], Hmax as [? _], Hminibatch as [? _].
    unfold PerformanceBuffer.init in Hbuffer. case_decide; [done|].
    pose proof (proj1 (generate_weights_Ret _) (ex_intro _ _ Hweights)) as [? ?].
    apply generate_weights_length in Hweights.
    apply make_agents_fails in Hagents.
    repeat split; try done.
    destruct weights as [|w weights]; [cbn in Hweights; lia|].
    assert (length weights ∈ seq 0 (length (w :: weights))) as Hin.
    { apply elem_of_seq. cbn. lia. }
    pose proof (proj1 (Forall_forall _ _) Hagents _ Hin) as Hlt.
    rewrite length_seq in Hlt. cbn in Hweights. lia.
  - intros (-> & Hsteps & Henvs & Hbins & Hmini & -> & Hdelta & Hn0 & Hn).
    cbn. unfold floordiv, PerformanceBuffer.init.
    rewrite !decide_False by done. cbn.
    rewrite decide_False by done. cbn.
    destruct (proj2 (generate_weights_Ret (c_delta_weight c))) as [ws Hws]; [done|].
    rewrite Hws. cbn. apply generate_weights_length in Hws as Hlen.
    destruct (make_agents_returns (seq 0 (Z.to_nat (c_pop_size c))) ws
                (seq 0 (length ws)) ∅) as [[ls σ] ->].
    { apply Forall_forall. intros i [_ Hi]%elem_of_seq. rewrite length_seq. lia. }
    cbn. eauto.
Qed.

(** X11. After construction the agents are pairwise distinct objects, the only
    objects of the store; agent [i] has identity [i], the network [i] and
    the [i]-th generated weight; the iteration counter is 0, the archive
    and the predictor's history are empty, and [max_iterations] is
    [limit_env_steps // steps_per_iteration // num_envs]. *)
Theorem init_state :
  ∀ (c : config) (s : t),
    init c = Ret s →
    ∃ ws : list vec,
      generate_weights (c_delta_weight c) = Ret ws
      ∧ NoDup (agents s)
      ∧ length (agents s) = length ws
      ∧ (∀ (i : nat) (w : vec),
           ws !! i = Some w →
           ∃ (l : loc) (agent : MOPPO),
             agents s !! i = Some l ∧ heap s !! l = Some agent
             ∧ id agent = i ∧ networks agent = i ∧ weights agent = w)
      ∧ (∀ l, is_Some (heap s !! l) → l ∈ agents s)
      ∧ iteration s = 0%Z
      ∧ max_iterations s
        = ((c_limit_env_steps c `div` c_steps_per_iteration c) `div` c_num_envs c)%Z
      ∧ PerformanceBuffer.individuals (population s) = []
      ∧ PerformanceBuffer.evaluations (population s) = []
      ∧ archive_evaluations s = []
      ∧ predictor s = PerformancePredictor.init.
Proof.
  intros c s Hrun. unfold init in Hrun.
  destruct (action_space_is_box c); [cbn in Hrun|done].
  inv_bind Hrun as steps Hsteps. inv_bind Hrun as max_it Hmax.
  inv_bind Hrun as buffer Hbuffer. inv_bind Hrun as minibatch Hminibatch.
  destruct (env_given c); [done|].
  inv_bind Hrun as ws Hweights. inv_bind Hrun as [ls σ] Hagents.
  injection Hrun as <-. cbn.
  apply floordiv_Ret in Hsteps as [_ ->], Hmax as [_ ->].
  unfold PerformanceBuffer.init in Hbuffer. case_decide; [done|]. injection Hbuffer as <-.
  apply make_agents_spec in Hagents as (_ & Hnd & Hall & Hdom).
  exists ws. split; [done|]. split; [done|].
  split; [by rewrite <- (Forall2_length _ _ _ Hall), length_seq|].
  split; [|split].
  - intros i w Hw.
    assert (seq 0 (length ws) !! i = Some i) as Hi.
    { apply lookup_seq. split; [done|]. by eapply lookup_lt_Some. }
    destruct (Forall2_lookup_l _ _ _ _ _ Hall Hi) as (l & Hl & net & w' & Hnet & Hw' & Hobj & _).
    apply lookup_seq in Hnet as [-> _]. rewrite Hw in Hw'. injection Hw' as <-.
    by exists l, (MOPPO_new i i w).
  - intros l Hl. destruct (Hdom l Hl) as [Hin|Hin]; [|done].
    rewrite lookup_empty in Hin. by destruct Hin.
  - unfold PerformanceBuffer.individuals, PerformanceBuffer.evaluations. cbn.
    assert (∀ A n, concat (replicate n ([] : list A)) = []) as Hnil.
    { intros A n. induction n; [done|]. by cbn. }
    by rewrite !Hnil.
Qed.

End init_more.

(** ** Task and weight selection, continued *)

Section selection_more.

Import PerformancePredictor PGMORL.
Context `{Externals}.

Lemma mapM_Timeout {A B} (f : A → outcome B) (x : A) (l : list A) :
  f x = Timeout → mapM f (x :: l) = Timeout.
Proof. intros Hx. cbn. by rewrite Hx. Qed.

Lemma best_weight_for_needs_samples fuel s st candidate_weights e r :
  (distinct_posts (predictor s) < 4)%nat →
  best_weight_for fuel s st candidate_weights e ≠ Ret r.
Proof.
  intros Hfew. unfold best_weight_for.
  destruct (candidate_tuples _ _ _) as [|[e' w] tuples]; [done|].
  rewrite mapM_Timeout; [done|]. by apply predict_timeout.
Qed.

Lemma select_for_worker_needs_samples fuel s candidate_weights i st st' :
  (distinct_posts (predictor s) < 4)%nat →
  select_for_worker fuel s candidate_weights i st ≠ Ret st'.
Proof.
  intros Hfew. unfold select_for_worker.
  destruct (zip _ _) as [|[c e] pop]; [done|]. cbn.
  destruct (best_weight_for fuel s st candidate_weights e) as [r| |] eqn:Hbest; [|done..].
  by apply best_weight_for_needs_samples in Hbest.
Qed.

(** X12. With fewer than four pairwise-distinct post-evaluations recorded and at
    least one worker, [__task_weight_selection] never completes: it raises
    (empty archive, no candidate weight left, bad spacing) or runs forever
    in the predictor. *)
Theorem selection_needs_four_samples :
  ∀ (fuel : nat) (s : PGMORL.t) (result : selection),
    (distinct_posts (predictor s) < 4)%nat →
    agents s ≠ [] →
    task_weight_selection fuel s ≠ Ret result.
Proof.
  intros fuel s result Hfew Hagents Hrun.
  unfold task_weight_selection, selection_prefix in Hrun.
  inv_bind Hrun as cw Hcw.
  destruct (agents s) as [|a ags]; [done|]. cbn in Hrun.
  inv_bind Hrun as st1 Hstep. by apply select_for_worker_needs_samples in Hstep.
Qed.


(** *** The greedy choice *)

Lemma mapM_Ret_Forall2 {A B} (f : A → outcome B) (l : list A) (rs : list B) :
  mapM f l = Ret rs → Forall2 (λ x r, f x = Ret r) l rs.
Proof.
  revert rs. induction l as [|x l IH]; intros rs Hrun; cbn in Hrun.
  - injection Hrun as <-. apply Forall2_nil_2.
  - inv_bind Hrun as r Hr. inv_bind Hrun as rs' Hrs. injection Hrun as <-.
    apply Forall2_cons. split; [done|by apply IH].
Qed.

Lemma argmax_from_spec i cur l k m :
  argmax_from i cur l = (k, m) →
  (cur = (k, m) ∨ ∃ j, k = (i + j)%nat ∧ l !! j = Some m)
  ∧ cur.2 ≤ m
  ∧ ∀ x, x ∈ l → x ≤ m.
Proof.
  revert i cur. induction l as [|x l IH]; intros i cur Hrun; cbn in Hrun.
  - subst cur. split; [by left|]. split; [apply Qcle_refl|]. by intros x ?%elem_of_nil.
  - apply IH in Hrun as (Hwhere & Hcur & Hall).
    case_bool_decide as Hlt; cbn in *.
    + split; [|split].
      * right. destruct Hwhere as [[= <- <-]|(j & -> & Hj)].
        -- exists 0%nat. split; [lia|done].
        -- exists (S j). split; [lia|done].
      * eapply Qcle_trans; [by apply Qclt_le_weak|done].
      * intros y [->|Hy]%elem_of_cons; [done|by apply Hall].
    + split; [|split; [done|]].
      * destruct Hwhere as [->|(j & -> & Hj)]; [by left|].
        right. exists (S j). split; [lia|done].
      * intros y [->|Hy]%elem_of_cons; [|by apply Hall].
        eapply Qcle_trans; [by apply Qcnot_lt_le|done].
Qed.

Lemma argmax_spec l k m :
  argmax l = Some (k, m) → l !! k = Some m ∧ ∀ x, x ∈ l → x ≤ m.
Proof.
  destruct l as [|x l]; [done|]. cbn. intros [= Hrun].
  apply argmax_from_spec in Hrun as (Hwhere & Hcur & Hall). cbn in *. split.
  - destruct Hwhere as [[= <- <-]|(j & -> & Hj)]; done.
  - intros y [->|Hy]%elem_of_cons; [done|by apply Hall].
Qed.

(** The weight chosen for one archived evaluation: its prediction was made,
    its score is the returned score, and no candidate weight still free
    for that evaluation is predicted to score higher. *)
Lemma best_weight_for_optimal fuel s st candidate_weights e w pe m :
  best_weight_for fuel s st candidate_weights e = Ret (w, pe, m) →
  (∃ delta, predict_next_evaluation fuel (predictor s) w e = Ret (delta, pe))
  ∧ m = mixture_metric s st pe
  ∧ ∀ w' delta' pe',
      w' ∈ candidate_weights → (e, w') ∉ selected_tasks st →
      predict_next_evaluation fuel (predictor s) w' e = Ret (delta', pe') →
      mixture_metric s st pe' ≤ m.
Proof.
  unfold best_weight_for. intros Hrun.
  inv_bind Hrun as predictions Hpred.
  apply mapM_Ret_Forall2 in Hpred.
  destruct predictions as [|p0 predictions]; [done|].
  set (preds := p0 :: predictions) in *.
  destruct (argmax _) as [[k improv]|] eqn:Hmax; [|done].
  apply argmax_spec in Hmax as [Hk Hall].
  destruct (candidate_tuples _ _ _ !! k) as [[e' w']|] eqn:Htk; [|done].
  destruct (preds.*2 !! k) as [pe0|] eqn:Hpk; [|done]. injection Hrun as -> -> ->.
  rewrite list_lookup_fmap in Hpk.
  destruct (preds !! k) as [[d0 pe1]|] eqn:Hk'; [|done]. injection Hpk as ->.
  pose proof (Forall2_lookup_lr _ _ _ _ _ _ Hpred Htk Hk') as Hcall. cbn in Hcall.
  pose proof (list_elem_of_lookup_2 _ _ _ Htk) as Hin.
  apply candidate_tuples_unselected in Hin as (-> & _ & _).
  rewrite list_lookup_fmap, list_lookup_fmap, Hk' in Hk. cbn in Hk. injection Hk as <-.
  split; [by exists d0|]. split; [done|].
  intros w2 d2 pe2 Hw2 Hfree Hcall2.
  assert ((e, w2) ∈ candidate_tuples (selected_tasks st) e candidate_weights) as Hin2.
  { unfold candidate_tuples. apply list_elem_of_fmap. exists w2. split; [done|].
    by apply list_elem_of_filter. }
  apply list_elem_of_lookup in Hin2 as [j Hj].
  destruct (Forall2_lookup_l _ _ _ _ _ Hpred Hj) as (r & Hr & Hcall'). cbn in Hcall'.
  rewrite Hcall2 in Hcall'. injection Hcall' as <-.
  apply Hall. apply list_elem_of_lookup. exists j.
  by rewrite list_lookup_fmap, list_lookup_fmap, Hr.
Qed.

Lemma best_over_population_optimal fuel s st candidate_weights pop acc winner b
    (seen : list (loc * vec)) :
  (∀ b0, acc = Some b0 →
     (∃ delta, predict_next_evaluation fuel (predictor s) (best_candidate b0).2 (best_eval b0)
               = Ret (delta, best_predicted_eval b0))
     ∧ max_improv b0 = mixture_metric s st (best_predicted_eval b0)
     ∧ ((best_candidate b0).1, best_eval b0) ∈ seen) →
  (∀ b0 c e w' delta' pe',
     acc = Some b0 → (c, e) ∈ seen →
     w' ∈ candidate_weights → (e, w') ∉ selected_tasks st →
     predict_next_evaluation fuel (predictor s) w' e = Ret (delta', pe') →
     mixture_metric s st pe' ≤ max_improv b0) →
  (acc = None → seen = []) →
  best_over_population fuel s st candidate_weights pop acc = Ret winner →
  winner = Some b →
  ((∃ delta, predict_next_evaluation fuel (predictor s) (best_candidate b).2 (best_eval b)
             = Ret (delta, best_predicted_eval b))
   ∧ max_improv b = mixture_metric s st (best_predicted_eval b)
   ∧ ((best_candidate b).1, best_eval b) ∈ seen ++ pop)
  ∧ ∀ c e w' delta' pe',
      (c, e) ∈ seen ++ pop →
      w' ∈ candidate_weights → (e, w') ∉ selected_tasks st →
      predict_next_evaluation fuel (predictor s) w' e = Ret (delta', pe') →
      mixture_metric s st pe' ≤ max_improv b.
Proof.
  revert acc seen. induction pop as [|[c e] pop IH]; intros acc seen Hacc Hbest Hnone Hrun ->.
  - cbn in Hrun. injection Hrun as ->. rewrite app_nil_r.
    split; [by apply Hacc|]. intros. by eapply Hbest.
  - cbn in Hrun. inv_bind Hrun as [[w pe] m] Hstep.
    apply best_weight_for_optimal in Hstep as (Hcall & -> & Hopt).
    replace (seen ++ (c, e) :: pop) with ((seen ++ [(c, e)]) ++ pop)
      by (by rewrite <- app_assoc).
    eapply IH; [| | |exact Hrun|done].
    + intros b0 Hb0. destruct acc as [a|].
      * case_bool_decide as Hlt.
        -- injection Hb0 as <-. cbn. split; [done|]. split; [done|].
           apply elem_of_app. right. by left.
        -- injection Hb0 as <-. destruct (Hacc a eq_refl) as (? & ? & ?).
           split; [done|]. split; [done|]. apply elem_of_app. by left.
      * injection Hb0 as <-. cbn. split; [done|]. split; [done|].
        apply elem_of_app. right. by left.
    + intros b0 c' e' w' d' pe' Hb0 Hin Hw' Hfree Hcall'.
      apply elem_of_app in Hin as [Hin|[= -> ->]%list_elem_of_singleton].
      * destruct acc as [a|]; [|by rewrite (Hnone eq_refl) in Hin; apply elem_of_nil in Hin].
        pose proof (Hbest a c' e' w' d' pe' eq_refl Hin Hw' Hfree Hcall') as Hle.
        case_bool_decide as Hlt; injection Hb0 as <-; cbn; [|done].
        eapply Qcle_trans; [exact Hle|by apply Qclt_le_weak].
      * pose proof (Hopt w' d' pe' Hw' Hfree Hcall') as Hle.
        destruct acc as [a|]; [|by injection Hb0 as <-].
        case_bool_decide as Hlt; injection Hb0 as <-; cbn; [done|].
        eapply Qcle_trans; [exact Hle|by apply Qcnot_lt_le].
    + destruct acc; [by case_bool_decide|done].
Qed.

(** X13. The pair chosen for a worker is the best on offer: its predicted
    evaluation was computed by the predictor, its score is the largest
    among all pairs of an archived individual and a candidate weight not
    yet selected for that individual's evaluation, and the predicted
    evaluation is what the speculative front grows by. *)
Theorem selection_is_greedy :
  ∀ (fuel : nat) (s : PGMORL.t) (candidate_weights : list vec) (i : nat)
    (st st' : selection),
    select_for_worker fuel s candidate_weights i st = Ret st' →
    ∃ (candidate : loc) (e w delta pe : vec),
      (candidate, e)
      ∈ zip (PerformanceBuffer.individuals (population s))
            (PerformanceBuffer.evaluations (population s))
      ∧ w ∈ candidate_weights
      ∧ predict_next_evaluation fuel (predictor s) w e = Ret (delta, pe)
      ∧ selected_tasks st' = selected_tasks st ++ [(e, w)]
      ∧ current_front st' = current_front st ++ [pe]
      ∧ ∀ (c' : loc) (e' w' delta' pe' : vec),
          (c', e')
          ∈ zip (PerformanceBuffer.individuals (population s))
                (PerformanceBuffer.evaluations (population s)) →
          w' ∈ candidate_weights → (e', w') ∉ selected_tasks st →
          predict_next_evaluation fuel (predictor s) w' e' = Ret (delta', pe') →
          mixture_metric s st pe' ≤ mixture_metric s st pe.
Proof.
  intros fuel s cw i st st' Hrun.
  apply select_for_worker_spec in Hrun as (b & Hbest & Hsel & Hfront & _).
  set (pop := zip (PerformanceBuffer.individuals (population s))
                  (PerformanceBuffer.evaluations (population s))) in *.
  destruct (best_over_population_chosen fuel s st cw pop None (Some b) (λ c, c.2 ∈ cw))
    with (b := b) as [_ Hw]; [by intros|done|exact Hbest|done|].
  destruct (best_over_population_optimal fuel s st cw pop None (Some b) b [])
    as (([delta Hcall] & Hm & Hin) & Hopt); [done|done|done|exact Hbest|done|].
  cbn in Hin, Hopt.
  exists (best_candidate b).1, (best_eval b), (best_candidate b).2, delta,
         (best_predicted_eval b).
  split; [done|]. split; [done|]. split; [done|]. split; [done|]. split; [done|].
  intros c' e' w' d' pe' Hin' Hw' Hfree Hcall'. rewrite <- Hm. by eapply Hopt.
Qed.


(** *** A whole generation *)

Lemma generation_inv_step fuel s candidate_weights k st st' :
  allocated (heap s) (agents s) →
  allocated (heap s) (PerformanceBuffer.individuals (population s)) →
  (k < length (agents s))%nat →
  generation_inv s candidate_weights k st →
  select_for_worker fuel s candidate_weights k st = Ret st' →
  generation_inv s candidate_weights (S k) st'.
Proof.
  intros Hagents Hpop Hk (Hsub & Hlen & Hrest & Hnd & Hdone) Hrun.
  apply select_for_worker_spec in Hrun as (b & Hbest & _ & _ & Hinstall).
  set (pop := zip (PerformanceBuffer.individuals (population s))
                  (PerformanceBuffer.evaluations (population s))) in *.
  destruct (best_over_population_chosen fuel s st candidate_weights pop None (Some b)
              (λ c, c.1 ∈ PerformanceBuffer.individuals (population s)
                    ∧ c.2 ∈ candidate_weights))
    with (b := b) as [_ [Hwinner Hweight]]; [|done|exact Hbest|done|].
  { intros c e w Hin Hw. split; [by apply elem_of_zip_l in Hin|done]. }
  apply install_spec in Hinstall as (previous & Hprev & Hags & Hcopy & Hother).
  set (copy := fresh (dom (sel_heap st))) in *.
  assert (Hfresh : sel_heap st !! copy = None) by apply not_elem_of_dom, is_fresh.
  assert (Hfresh0 : heap s !! copy = None) by (by eapply lookup_weaken_None).
  rewrite Hrest in Hprev by lia.
  destruct (proj1 (Forall_forall _ _) Hagents previous) as [previous_obj Hpo];
    [by eapply list_elem_of_lookup_2|].
  destruct (proj1 (Forall_forall _ _) Hpop _ Hwinner) as [archived_obj Hao].
  pose proof (lookup_weaken _ _ _ _ Hpo Hsub) as Hpo'.
  pose proof (lookup_weaken _ _ _ _ Hao Hsub) as Hao'.
  assert (copy ≠ previous) as Hne by congruence.
  rewrite lookup_total_insert_ne in Hcopy by done.
  rewrite (lookup_total_correct _ _ _ Hpo'), (lookup_total_correct _ _ _ Hao') in Hcopy.
  assert (Hklen : (k < length (sel_agents st))%nat) by lia.
  split; [|split; [|split; [|split]]].
  - apply map_subseteq_spec. intros l a Hl. rewrite Hother by congruence.
    by eapply lookup_weaken.
  - by rewrite Hags, length_insert.
  - intros i Hi. rewrite Hags, list_lookup_insert_ne by lia. apply Hrest. lia.
  - rewrite Hags. rewrite take_insert_lt by lia.
    rewrite (take_S_r _ _ previous) by (rewrite Hrest by lia; done).
    rewrite insert_app_r_alt by (rewrite length_take; lia).
    rewrite length_take, Nat.min_l, Nat.sub_diag by lia. cbn.
    apply NoDup_app. split; [done|]. split; [|apply NoDup_singleton].
    intros x Hx ->%list_elem_of_singleton.
    apply list_elem_of_lookup in Hx as [i Hi].
    apply lookup_take_Some in Hi as [Hi Hik].
    destruct (lookup_lt_is_Some_2 (agents s) i) as [pi Hpi]; [lia|].
    destruct (proj1 (Forall_forall _ _) Hagents pi) as [pio Hpio];
      [by eapply list_elem_of_lookup_2|].
    destruct (Hdone i pi pio Hik Hpi Hpio) as (c & a & ao & w & Hc & _ & _ & _ & _ & Hobj).
    congruence.
  - intros i p po Hi Hp Hpoi.
    destruct (decide (i = k)) as [->|Hik].
    + rewrite Hprev in Hp. injection Hp as <-. rewrite Hpo in Hpoi. injection Hpoi as <-.
      exists copy, (best_candidate b).1, archived_obj, (best_candidate b).2.
      split; [rewrite Hags; by apply list_lookup_insert_eq|].
      split; [done|]. split; [done|]. split; [done|]. split; [done|]. done.
    + destruct (Hdone i p po ltac:(lia) Hp Hpoi)
        as (c & a & ao & w & Hc & Hc0 & Ha & Hao0 & Hw & Hobj).
      exists c, a, ao, w.
      split; [by rewrite Hags, list_lookup_insert_ne|].
      split; [done|]. split; [done|]. split; [done|]. split; [done|].
      rewrite Hother; [done|]. congruence.
Qed.

Lemma generation_inv_prefix fuel s candidate_weights k st :
  allocated (heap s) (agents s) →
  allocated (heap s) (PerformanceBuffer.individuals (population s)) →
  (k ≤ length (agents s))%nat →
  workers_loop fuel s candidate_weights (seq 0 k) (selection_start s) = Ret st →
  generation_inv s candidate_weights k st.
Proof.
  intros Hagents Hpop. revert st. induction k as [|k IH]; intros st Hk Hrun.
  - cbn in Hrun. injection Hrun as <-. cbn.
    split; [done|]. split; [done|]. split; [done|]. split; [apply NoDup_nil_2|].
    intros i ? ? Hi. lia.
  - rewrite seq_S, workers_loop_app in Hrun. inv_bind Hrun as before Hbefore.
    cbn in Hrun. inv_bind Hrun as st1 Hstep. injection Hrun as <-.
    eapply generation_inv_step; [done|done|lia| |exact Hstep].
    apply IH; [lia|done].
Qed.

(** X14. A completed generation replaces every worker by a new object and
    changes nothing else: the objects that were in the store (the previous
    agents, the archived individuals) are as before; the new agents are
    pairwise distinct; the agent in slot [i] is a copy of an archived
    individual, with identity [i], one of the candidate weights, and the
    step counter of the agent that was in slot [i]. *)
Theorem generation_replaces_every_worker :
  ∀ (fuel : nat) (s : PGMORL.t) (result : selection),
    allocated (heap s) (agents s) →
    allocated (heap s) (PerformanceBuffer.individuals (population s)) →
    task_weight_selection fuel s = Ret result →
    ∃ candidate_weights : list vec,
      selection_weights s = Ret candidate_weights
      ∧ (∀ l a, heap s !! l = Some a → sel_heap result !! l = Some a)
      ∧ length (sel_agents result) = length (agents s)
      ∧ NoDup (sel_agents result)
      ∧ ∀ (i : nat) (previous : loc) (previous_obj : MOPPO),
          agents s !! i = Some previous → heap s !! previous = Some previous_obj →
          ∃ (copy archived : loc) (archived_obj : MOPPO) (w : vec),
            sel_agents result !! i = Some copy
            ∧ heap s !! copy = None
            ∧ archived ∈ PerformanceBuffer.individuals (population s)
            ∧ heap s !! archived = Some archived_obj
            ∧ w ∈ candidate_weights
            ∧ sel_heap result !! copy
              = Some {| id := i; networks := networks archived_obj; weights := w;
                        global_step := global_step previous_obj |}.
Proof.
  intros fuel s result Hagents Hpop Hrun.
  unfold task_weight_selection, selection_prefix in Hrun.
  inv_bind Hrun as cw Hcw. exists cw. split; [done|].
  apply generation_inv_prefix in Hrun as (Hsub & Hlen & _ & Hnd & Hdone); [|done..].
  split; [intros l a Hl; by eapply lookup_weaken|]. split; [done|].
  split; [by rewrite <- Hlen, firstn_all in Hnd|].
  intros i p po Hp Hpo. apply (Hdone i p po); [|done..]. by eapply lookup_lt_Some.
Qed.

End selection_more.

(** ** When a generation completes, and when it cannot *)

Section completes.

Import PerformancePredictor PGMORL.
Context `{Externals}.

Lemma all_within_mono p policy_eval thr thr' :
  thr ≤ thr' → all_within p policy_eval thr → all_within p policy_eval thr'.
Proof.
  intros Hle Hall. unfold all_within in *. eapply Forall_impl; [exact Hall|].
  intros prev. by apply in_neighborhood_mono.
Qed.

(** Past some number of expansions the search answers, whatever the
    candidate weight. *)
Lemma predict_returns_from p policy_eval :
  0 < neighborhood_threshold p →
  Forall (λ e, e ≠ 0) policy_eval →
  length (previous_performance p) = length (next_performance p) →
  length (next_performance p) = length (used_weight p) →
  (4 ≤ distinct_posts p)%nat →
  ∃ K : nat, ∀ fuel, (K ≤ fuel)%nat → ∀ weight_candidate,
    ∃ r, predict_next_evaluation fuel p weight_candidate policy_eval = Ret r.
Proof.
  intros Hthr Hnz Hpn Hnu Hfour.
  assert (Hhalf : 0 < neighborhood_threshold p / Qc_of_Z 2).
  { unfold Qcdiv. apply Qcmult_pos_pos; [done|]. by apply Qcinv_pos. }
  destruct (all_within_eventually p policy_eval _ Hhalf Hnz) as (K & HK1 & HK).
  exists K. intros fuel Hfuel w.
  destruct (expand_neighborhood_returns fuel p policy_eval (sigma p / Qc_of_Z 2)
              (neighborhood_threshold p / Qc_of_Z 2) no_neighbors)
    as [[nb s] Hrun]; [done|done|done|apply search_inv_start|lia| |].
  { eapply all_within_mono; [|exact HK].
    apply doubled_mono; [done|by apply Qclt_le_weak]. }
  unfold predict_next_evaluation. rewrite Hrun. cbn. eauto.
Qed.

(** X15. A generation completes.  The candidate weights at half the spacing are
    pairwise distinct and no fewer than the weights the population was
    built from (the comment in the code: more weights than agents), so
    with a population of at most that size no worker runs out of
    candidates; with a non-empty archive whose evaluations have two
    components, none of them 0, a positive threshold and a history of
    two-component evaluations and weights with at least four distinct
    post-evaluations, every neighbour search ends and the selection
    returns. *)
Theorem generation_completes :
  ∀ (s : PGMORL.t) (ws : list vec),
    (∀ l : list vec, shuffle l ≡ₚ l) →
    0 < delta_weight s →
    generate_weights (delta_weight s) = Ret ws →
    (length (agents s) ≤ length ws)%nat →
    zip (PerformanceBuffer.individuals (population s))
        (PerformanceBuffer.evaluations (population s)) ≠ [] →
    (∀ e, e ∈ PerformanceBuffer.evaluations (population s) →
          length e = 2%nat ∧ Forall (λ x, x ≠ 0) e) →
    0 < neighborhood_threshold (predictor s) →
    well_shaped 2 (predictor s) →
    length (previous_performance (predictor s)) = length (next_performance (predictor s)) →
    length (next_performance (predictor s)) = length (used_weight (predictor s)) →
    (4 ≤ distinct_posts (predictor s))%nat →
    ∃ (fuel : nat) (result : selection), task_weight_selection fuel s = Ret result.
Proof.
  intros s ws Hperm Hpos Hws Hagents Hpop Hnz Hthr _ Hpn Hnu Hfour.
  destruct (half_spacing_no_fewer _ Hpos) as (ws' & cs & Hws' & Hcs & Hnd & Hle).
  rewrite Hws in Hws'. injection Hws' as <-.
  destruct (exists_uniform
              (λ K e, ∀ fuel, (K ≤ fuel)%nat → ∀ w,
                 ∃ r, predict_next_evaluation fuel (predictor s) w e = Ret r)
              (PerformanceBuffer.evaluations (population s))) as [K HK].
  { intros k k' e Hk Hq fuel Hfuel. apply Hq. lia. }
  { intros e He. apply predict_returns_from; auto. by apply Hnz. }
  exists K. apply (task_weight_selection_returns K s (shuffle cs)).
  - unfold selection_weights. by rewrite Hcs.
  - by rewrite Hperm.
  - rewrite Hperm. lia.
  - done.
  - intros e w He _. by apply (HK e He K).
Qed.

(** X16. With nothing in the population archive the first worker finds no
    winner: [best_eval] is still [None] and [tuple(best_eval)] raises
    [TypeError], whatever the predictor holds. *)
Theorem selection_on_empty_population_raises :
  ∀ (fuel : nat) (s : PGMORL.t),
    delta_weight s ≠ 0 →
    (0 ≤ py_int (1 / (delta_weight s / Qc_of_Z 2)) + 1)%Z →
    agents s ≠ [] →
    zip (PerformanceBuffer.individuals (population s))
        (PerformanceBuffer.evaluations (population s)) = [] →
    task_weight_selection fuel s = Raise TypeError.
Proof.
  intros fuel s Hd Hn Hagents Hpop.
  unfold task_weight_selection, selection_prefix, selection_weights.
  unfold generate_weights, linspace.
  rewrite decide_False.
  2:{ unfold Qcdiv. intros Hz. apply Qcmult_integral in Hz as [?|Hz]; [done|].
      by apply (Qclt_not_eq _ _ (Qcinv_pos _ (eq_refl : 0 < Qc_of_Z 2))). }
  rewrite decide_False by lia. cbn [mbind outcome_bind mret outcome_ret].
  destruct (agents s) as [|a ags]; [done|].
  cbn [length seq workers_loop]. unfold select_for_worker. by rewrite Hpop.
Qed.

End completes.

(** ** The scheduler's passes and [train] *)

Section scheduler.

Import PGMORL Scheduler.
Context {world : Type} `{Externals} `{Collaborators world}.

Lemma same_settings_refl s : same_settings s s.
Proof. by repeat split. Qed.

Lemma same_settings_trans s1 s2 s3 :
  same_settings s1 s2 → same_settings s2 s3 → same_settings s1 s3.
Proof. unfold same_settings. intros (?&?&?&?&?) (?&?&?&?&?). repeat split; congruence. Qed.

Lemma train_agents_keeps ls s w s' w' :
  train_agents ls s w = (s', w') →
  same_settings s s' ∧ agents s' = agents s ∧ predictor s' = predictor s
  ∧ population s' = population s ∧ archive_evaluations s' = archive_evaluations s
  ∧ iteration s' = iteration s.
Proof.
  revert s w. induction ls as [|l ls IH]; intros s w Hrun; cbn in Hrun.
  - injection Hrun as <- <-. split; [apply same_settings_refl|done].
  - destruct (agent_train _ _ _ _) as [a w1]. apply IH in Hrun. cbn in Hrun.
    destruct Hrun as (Hs & ? & ? & ? & ? & ?). split; [|done].
    destruct Hs as (?&?&?&?&?). by repeat split.
Qed.

Lemma train_iterations_keeps n s w s' w' :
  train_iterations n s w = (s', w') →
  same_settings s s' ∧ agents s' = agents s ∧ predictor s' = predictor s
  ∧ population s' = population s ∧ archive_evaluations s' = archive_evaluations s
  ∧ iteration s' = run_iterations n (iteration s).
Proof.
  unfold train_iterations, run_iterations.
  revert s' w'. induction (Z.to_nat n) as [|k IH]; intros s' w' Hrun.
  - cbn in Hrun. injection Hrun as <- <-. split; [apply same_settings_refl|done].
  - rewrite Nat.iter_succ in Hrun.
    destruct (Nat.iter k _ (s, w)) as [s1 w1] eqn:Hk.
    destruct (IH s1 w1 eq_refl) as (Hs & Ha & Hp & Hpop & Har & Hit).
    unfold train_all_agents in Hrun.
    destruct (train_agents (agents s1) s1 w1) as [s2 w2] eqn:Htrain.
    injection Hrun as <- <-.
    apply train_agents_keeps in Htrain as (Hs2 & ? & ? & ? & ? & Hit2).
    split; [|split; [|split; [|split; [|split]]]]; cbn [agents predictor population
      archive_evaluations iteration update]; try congruence.
    + eapply same_settings_trans; [exact Hs|].
      destruct Hs2 as (?&?&?&?&?). by repeat split.
    + rewrite Nat.iter_succ, <- Hit, Hit2. lia.
Qed.


Lemma train_agents_heap ls s w s' w' (l : loc) :
  train_agents ls s w = (s', w') → l ∉ ls → heap s' !! l = heap s !! l.
Proof.
  revert s w. induction ls as [|a ls IH]; intros s w Hrun Hl; cbn in Hrun.
  - by injection Hrun as <- <-.
  - apply not_elem_of_cons in Hl as [Hne Hl].
    destruct (agent_train _ _ _ _) as [trained w1]. apply IH in Hrun; [|done].
    cbn in Hrun. by rewrite lookup_insert_ne in Hrun.
Qed.

Lemma train_iterations_heap n s w s' w' (l : loc) :
  train_iterations n s w = (s', w') → l ∉ agents s → heap s' !! l = heap s !! l.
Proof.
  unfold train_iterations.
  revert s' w'. induction (Z.to_nat n) as [|k IH]; intros s' w' Hrun Hl.
  - cbn in Hrun. by injection Hrun as <- <-.
  - rewrite Nat.iter_succ in Hrun.
    destruct (Nat.iter k _ (s, w)) as [s1 w1] eqn:Hk.
    pose proof (IH s1 w1 eq_refl Hl) as Hheap.
    assert (Hags : agents s1 = agents s).
    { pose proof (train_iterations_keeps (Z.of_nat k) s w s1 w1) as Hkeep.
      unfold train_iterations in Hkeep. rewrite Nat2Z.id in Hkeep.
      by destruct (Hkeep Hk) as (_ & ? & _). }
    unfold train_all_agents in Hrun.
    destruct (train_agents (agents s1) s1 w1) as [s2 w2] eqn:Htrain.
    injection Hrun as <- <-. cbn.
    rewrite (train_agents_heap _ _ _ _ _ l Htrain); [done|]. by rewrite Hags.
Qed.

(** X17. A burst of [n] training iterations ([__train_all_agents] and
    [self.iteration += 1], [n] times) adds [max(0, n)] to the iteration
    counter and touches nothing but the objects of the current agents: the
    list of agents, the archive, the predictor and every other object of
    the store, the archived copies among them, are as before. *)
Theorem training_touches_only_the_agents :
  ∀ (n : Z) (s s' : PGMORL.t) (w w' : world),
    train_iterations n s w = (s', w') →
    iteration s' = (iteration s + 0 `max` n)%Z
    ∧ agents s' = agents s
    ∧ population s' = population s
    ∧ predictor s' = predictor s
    ∧ archive_evaluations s' = archive_evaluations s
    ∧ ∀ l : loc, l ∉ agents s → heap s' !! l = heap s !! l.
Proof.
  intros n s s' w w' Hrun.
  pose proof (train_iterations_keeps _ _ _ _ _ Hrun) as (_ & Ha & Hp & Hpop & Har & Hit).
  rewrite run_iterations_add in Hit.
  split; [done|]. split; [done|]. split; [done|]. split; [done|]. split; [done|].
  intros l Hl. by apply (train_iterations_heap n s w s' w').
Qed.

Lemma add_store_grows σ b candidate evaluation σ' b' :
  buffer_wf b →
  PerformanceBuffer.add σ b candidate evaluation = Ret (σ', b') →
  buffer_wf b' ∧ ∀ l a, σ !! l = Some a → σ' !! l = Some a.
Proof.
  intros Hwf Hadd.
  destruct (add_wf σ b candidate evaluation Hwf) as (σ1 & b1 & Hadd' & Hwf1 & _).
  rewrite Hadd in Hadd'. injection Hadd' as <- <-. split; [done|].
  destruct (add_cases _ _ _ _ _ _ Hwf Hadd)
    as [[-> _]|(k & bin & bin' & evals & evals' & _ & _ & _ & -> & _)]; [done|].
  assert (Hfresh : σ !! fresh (dom σ) = None) by apply not_elem_of_dom, is_fresh.
  intros l a Hl. rewrite lookup_insert_ne; [done|]. congruence.
Qed.

Lemma policy_evals_agree σ σ' ls (w : world) :
  Forall (λ l, σ' !!! l = σ !!! l) ls → policy_evals σ' ls w = policy_evals σ ls w.
Proof.
  revert w. induction ls as [|l ls IH]; intros w Hall; [done|].
  apply Forall_cons in Hall as [Hl Hall]. cbn. rewrite Hl.
  destruct (policy_eval w (σ !!! l)) as [r w1]. by rewrite IH.
Qed.

Lemma policy_evals_length σ ls (w : world) :
  length (policy_evals σ ls w).1 = length ls.
Proof.
  revert w. induction ls as [|l ls IH]; intros w; [done|]. cbn.
  destruct (policy_eval w (σ !!! l)) as [r w1]. specialize (IH w1).
  destruct (policy_evals σ ls w1) as [rs w2]. cbn in *. by rewrite IH.
Qed.

Lemma pareto_add_all_agree σ σ' front (calls : list (loc * vec)) :
  Forall (λ l, σ' !!! l = σ !!! l) calls.*1 →
  pareto_add_all σ' front calls = pareto_add_all σ front calls.
Proof.
  revert front. induction calls as [|[l r] calls IH]; intros front Hall; [done|].
  apply Forall_cons in Hall as [Hl Hall]. unfold pareto_add_all in *. cbn in *.
  rewrite Hl. by apply IH.
Qed.

(** One evaluation pass over the agents [ls], numbered from [k], when the
    list of previous evaluations is [pre ++ post] with [post] the entries
    of these agents. *)
Lemma eval_agents_spec (b : bool) ls k (pre post : list vec) s w s' w' evals' :
  length pre = k → length post = length ls →
  allocated (heap s) ls →
  buffer_wf (population s) →
  eval_agents b (zip (seq k (length ls)) ls) s w (pre ++ post) = Ret (s', w', evals') →
  same_settings s s' ∧ agents s' = agents s ∧ iteration s' = iteration s
  ∧ buffer_wf (population s')
  ∧ (∀ l a, heap s !! l = Some a → heap s' !! l = Some a)
  ∧ ∃ rewards : list vec,
      (rewards, w') = policy_evals (heap s) ls w
      ∧ evals' = pre ++ rewards
      ∧ add_all (heap s) (population s) (zip ls rewards) = Ret (heap s', population s')
      ∧ archive_evaluations s'
        = pareto_add_all (heap s) (archive_evaluations s) (zip ls rewards)
      ∧ if b then
          PerformancePredictor.previous_performance (predictor s')
          = PerformancePredictor.previous_performance (predictor s) ++ post
          ∧ PerformancePredictor.next_performance (predictor s')
            = PerformancePredictor.next_performance (predictor s) ++ rewards
          ∧ PerformancePredictor.used_weight (predictor s')
            = PerformancePredictor.used_weight (predictor s)
              ++ ((λ l, weights (heap s !!! l)) <$> ls)
        else predictor s' = predictor s.
Proof.
  revert k pre post s w.
  induction ls as [|l ls IH]; intros k pre post s w Hpre Hpost Halloc Hwf Hrun.
  - destruct post; [|done]. cbn in Hrun. injection Hrun as <- <- <-.
    split; [apply same_settings_refl|].
    split; [done|]. split; [done|]. split; [done|]. split; [done|].
    exists []. split; [done|]. split; [done|]. split; [done|]. split; [done|].
    destruct b; [|done]. by rewrite !app_nil_r.
  - destruct post as [|p0 post]; [done|]. cbn in Hpost.
    apply Forall_cons in Halloc as [[a Ha] Halloc].
    cbn [length seq zip zip_with eval_agents] in Hrun.
    destruct (policy_eval w (heap s !!! l)) as [reward w1] eqn:Heval.
    inv_bind Hrun as [σ pop] Hadd.
    destruct (add_store_grows _ _ _ _ _ _ Hwf Hadd) as [Hwf1 Hgrow].
    assert (Hobj : σ !!! l = a).
    { apply lookup_total_correct. by apply Hgrow. }
    assert (Hsame : Forall (λ l', σ !!! l' = heap s !!! l') ls).
    { eapply Forall_impl; [exact Halloc|]. intros l' [a' Ha']. cbn.
      by rewrite (lookup_total_correct _ _ _ Ha'),
                 (lookup_total_correct _ _ _ (Hgrow _ _ Ha')). }
    assert (Hlook : (pre ++ p0 :: post) !! k = Some p0).
    { rewrite lookup_app_r by lia. by rewrite Hpre, Nat.sub_diag. }
    inv_bind Hrun as pred Hpred.
    rewrite decide_True in Hrun by (rewrite length_app; cbn; lia).
    assert (Hins : <[k := reward]> (pre ++ p0 :: post) = (pre ++ [reward]) ++ post).
    { rewrite insert_app_r_alt by lia. rewrite Hpre, Nat.sub_diag. cbn.
      by rewrite <- app_assoc. }
    rewrite Hins in Hrun.
    apply IH in Hrun
      as (Hs & Hags & Hit & Hwf' & Hgrow' & rewards & Hrew & -> & Hall & Harch & Hb);
      [|rewrite length_app; cbn; lia|lia| |done].
    2:{ cbn. eapply Forall_impl; [exact Halloc|]. intros l' [a' Ha']. exists a'. by apply Hgrow. }
    cbn in Hs, Hags, Hit, Hgrow', Hrew, Hall, Harch, Hb.
    rewrite (policy_evals_agree (heap s) σ) in Hrew by done.
    assert (Hlen : length rewards = length ls).
    { pose proof (policy_evals_length (heap s) ls w1) as Hl. by rewrite <- Hrew in Hl. }
    split; [destruct Hs as (?&?&?&?&?); by repeat split|].
    split; [done|]. split; [done|]. split; [done|].
    split; [intros l' a' Hl'; by apply Hgrow', Hgrow|].
    exists (reward :: rewards).
    split; [cbn; by rewrite Heval, <- Hrew|].
    split; [by rewrite <- app_assoc|].
    split; [cbn; by rewrite Hadd|].
    split.
    { rewrite Harch, (pareto_add_all_agree (heap s) σ).
      - unfold pareto_add_all. cbn. by rewrite Hobj, (lookup_total_correct _ _ _ Ha).
      - rewrite fst_zip by lia. done. }
    destruct b.
    + rewrite Hlook in Hpred. injection Hpred as <-. cbn in Hb.
      destruct Hb as (Hprev & Hnext & Hused).
      rewrite Hprev, Hnext, Hused, <- !app_assoc. cbn.
      rewrite (lookup_total_correct _ _ _ Ha), Hobj.
      split; [done|]. split; [done|]. do 2 f_equal.
      apply (proj1 (Forall_fmap_ext _ _ _)). eapply Forall_impl; [exact Hsame|].
      intros l' Hl'. cbn. by rewrite Hl'.
    + injection Hpred as <-. done.
Qed.


(** What an evaluation pass keeps, whatever the lists it is given. *)
Lemma eval_agents_keeps (b : bool) indexed s w evals s' w' evals' :
  eval_agents b indexed s w evals = Ret (s', w', evals') →
  same_settings s s' ∧ agents s' = agents s ∧ iteration s' = iteration s
  ∧ if b then
      length (PerformancePredictor.next_performance (predictor s'))
      = (length (PerformancePredictor.next_performance (predictor s)) + length indexed)%nat
    else predictor s' = predictor s.
Proof.
  revert s w evals. induction indexed as [|[i l] indexed IH]; intros s w evals Hrun.
  - cbn in Hrun. injection Hrun as <- <- <-.
    split; [apply same_settings_refl|]. split; [done|]. split; [done|].
    destruct b; [cbn; lia|done].
  - cbn [eval_agents] in Hrun.
    destruct (policy_eval w (heap s !!! l)) as [reward w1].
    inv_bind Hrun as [σ pop] Hadd. inv_bind Hrun as pred Hpred.
    case_decide; [|done].
    apply IH in Hrun as (Hs & Hags & Hit & Hb). cbn in Hs, Hags, Hit, Hb.
    split; [destruct Hs as (?&?&?&?&?); by repeat split|].
    split; [done|]. split; [done|].
    destruct b.
    + destruct (evals !! i); [|done]. injection Hpred as <-. cbn in Hb.
      rewrite Hb, length_app. cbn. lia.
    + injection Hpred as <-. done.
Qed.

(** X18. An evaluation pass evaluates each agent once, in agent order and as
    the agent is when the pass starts, and replaces [current_evaluations]
    by these evaluations; the population buffer and the store are what the
    [add] calls for the pairs (agent, evaluation) give, and the archive
    what its [add] calls give; the agents, the iteration counter and the
    existing objects are as before.  With [add_to_prediction] set it
    records one sample per agent, in agent order: the agent's weight, its
    previous entry of [current_evaluations] as prior and its new
    evaluation as post; without it the predictor is untouched. *)
Theorem evaluation_pass_records_one_sample_per_agent :
  ∀ (add_to_prediction : bool) (s s' : PGMORL.t) (w w' : world)
    (current_evaluations evaluations' : list vec),
    length current_evaluations = length (agents s) →
    allocated (heap s) (agents s) →
    buffer_wf (population s) →
    eval_all_agents add_to_prediction s w current_evaluations
    = Ret (s', w', evaluations') →
    (evaluations', w') = policy_evals (heap s) (agents s) w
    ∧ length evaluations' = length current_evaluations
    ∧ agents s' = agents s
    ∧ iteration s' = iteration s
    ∧ add_all (heap s) (population s) (zip (agents s) evaluations')
      = Ret (heap s', population s')
    ∧ archive_evaluations s'
      = pareto_add_all (heap s) (archive_evaluations s) (zip (agents s) evaluations')
    ∧ (∀ l a, heap s !! l = Some a → heap s' !! l = Some a)
    ∧ buffer_wf (population s')
    ∧ if add_to_prediction then
        PerformancePredictor.previous_performance (predictor s')
        = PerformancePredictor.previous_performance (predictor s) ++ current_evaluations
        ∧ PerformancePredictor.next_performance (predictor s')
          = PerformancePredictor.next_performance (predictor s) ++ evaluations'
        ∧ PerformancePredictor.used_weight (predictor s')
          = PerformancePredictor.used_weight (predictor s)
            ++ ((λ l, weights (heap s !!! l)) <$> agents s)
      else predictor s' = predictor s.
Proof.
  intros b s s' w w' evals evals' Hlen Halloc Hwf Hrun.
  unfold eval_all_agents in Hrun.
  apply (eval_agents_spec b (agents s) 0 [] evals) in Hrun
    as (_ & Hags & Hit & Hwf' & Hgrow & rewards & Hrew & -> & Hall & Harch & Hb);
    [|done..].
  cbn in *.
  assert (Hrl : length rewards = length (agents s)).
  { pose proof (policy_evals_length (heap s) (agents s) w) as Hl.
    by rewrite <- Hrew in Hl. }
  split; [done|]. split; [lia|]. split; [done|]. split; [done|]. split; [done|].
  split; [done|]. split; [done|]. split; [done|]. done.
Qed.

Lemma evolution_loop_settings fuel s s' it :
  same_settings s s' → evolution_loop fuel s it = evolution_loop fuel s' it.
Proof.
  intros (Hm & Hw & He & _ & _). revert it.
  induction fuel as [|fuel IH]; intros it; cbn;
    unfold remaining_iterations; rewrite Hm, Hw, He; [done|].
  case_decide; [|done]. apply IH.
Qed.

Lemma generation_keeps pfuel s w evals s' w' evals' :
  generation pfuel s w evals = Ret (s', w', evals') →
  same_settings s s'
  ∧ iteration s' = run_iterations (evolutionary_iterations s) (iteration s).
Proof.
  unfold generation. intros Hrun. inv_bind Hrun as sel Hsel.
  destruct (train_iterations _ _ _) as [s1 w1] eqn:Htrain.
  apply train_iterations_keeps in Htrain as (Hs1 & _ & _ & _ & _ & Hit1).
  cbn in Hs1, Hit1.
  apply eval_agents_keeps in Hrun as (Hs2 & _ & Hit2 & _).
  split; [|congruence].
  eapply same_settings_trans; [|exact Hs2]. destruct Hs1 as (?&?&?&?&?). by repeat split.
Qed.

Lemma evolution_counter fuel pfuel s0 s w evals s' w' evals' :
  same_settings s0 s →
  evolution fuel pfuel (remaining_iterations s0) s w evals = Ret (s', w', evals') →
  evolution_loop fuel s0 (iteration s) = Ret (iteration s').
Proof.
  revert s w evals. induction fuel as [|fuel IH]; intros s w evals Hs Hrun; cbn in *.
  - case_decide; [done|]. by injection Hrun as <- <- <-.
  - case_decide; [|by injection Hrun as <- <- <-].
    inv_bind Hrun as [[s1 w1] evals1] Hgen.
    apply generation_keeps in Hgen as (Hs1 & Hit1).
    apply IH in Hrun; [|by eapply same_settings_trans].
    destruct Hs as (_ & _ & He & _ & _). by rewrite Hit1, He in Hrun.
Qed.

Lemma train_counter (fuel pfuel : nat) (s s' : PGMORL.t) (w w' : world)
    (evaluations : list vec) :
  Scheduler.train fuel pfuel s w = Ret (s', w', evaluations) →
  PGMORL.train fuel s = Ret (iteration s').
Proof.
  intros Hrun. unfold Scheduler.train in Hrun.
  inv_bind Hrun as [[s1 w1] ev1] Heval1.
  apply eval_agents_keeps in Heval1 as (Hs1 & _ & Hit1 & _).
  destruct (train_iterations _ _ _) as [s2 w2] eqn:Htrain.
  apply train_iterations_keeps in Htrain as (Hs2 & _ & _ & _ & _ & Hit2).
  inv_bind Hrun as [[s3 w3] ev3] Heval3.
  apply eval_agents_keeps in Heval3 as (Hs3 & _ & Hit3 & _).
  pose proof (same_settings_trans _ _ _ Hs1 (same_settings_trans _ _ _ Hs2 Hs3)) as Hs.
  apply (evolution_counter _ _ s3) in Hrun; [|apply same_settings_refl].
  unfold PGMORL.train. rewrite (evolution_loop_settings _ _ _ _ Hs).
  destruct Hs1 as (_ & Hw1 & _). by rewrite Hit3, Hit2, Hit1, Hw1 in Hrun.
Qed.

(** X19. The iteration counter of the whole of [train] is the counter of its
    loop skeleton: when [train] returns, [self.iteration] is the value the
    skeleton [PGMORL.train] computes with the same bound on the turns. *)
Theorem train_counter_is_skeleton :
  ∀ (fuel pfuel : nat) (s s' : PGMORL.t) (w w' : world) (evaluations : list vec),
    Scheduler.train fuel pfuel s w = Ret (s', w', evaluations) →
    PGMORL.train fuel s = Ret (iteration s').
Proof. intros fuel pfuel s s' w w' evaluations. apply train_counter. Qed.

Lemma evolution_loop_stuck fuel s iteration :
  (evolutionary_iterations s ≤ 0)%Z →
  (iteration < remaining_iterations s)%Z →
  evolution_loop fuel s iteration = Timeout.
Proof.
  intros Hevo Hguard. induction fuel as [|fuel IH]; cbn;
    rewrite decide_True by done; [done|].
  rewrite run_iterations_add. by replace (iteration + 0 `max` _)%Z with iteration by lia.
Qed.

(** X20. With [evolutionary_iterations ≤ 0] a generation trains nothing and
    leaves the iteration counter where it is: once the loop of [train] is
    entered its guard stays true, and [train] never returns. *)
Theorem train_without_progress_never_ends :
  ∀ (fuel pfuel : nat) (s : PGMORL.t) (w : world) (r : PGMORL.t * world * list vec),
    (evolutionary_iterations s ≤ 0)%Z →
    (run_iterations (warmup_iterations s) (iteration s) < remaining_iterations s)%Z →
    Scheduler.train fuel pfuel s w ≠ Ret r.
Proof.
  intros fuel pfuel s w [[s' w'] evaluations] Hevo Henter Hrun.
  apply train_counter in Hrun. unfold PGMORL.train in Hrun.
  by rewrite evolution_loop_stuck in Hrun.
Qed.

Lemma evolution_loop_bounds fuel s iteration n :
  (0 < evolutionary_iterations s)%Z →
  evolution_loop fuel s iteration = Ret n →
  (remaining_iterations s `max` iteration ≤ n)%Z
  ∧ (n < (remaining_iterations s + evolutionary_iterations s) `max` (iteration + 1))%Z
  ∧ ∃ generations : nat,
      n = (iteration + Z.of_nat generations * evolutionary_iterations s)%Z.
Proof.
  intros Hevo. revert iteration.
  induction fuel as [|fuel IH]; intros iteration Hrun; cbn in Hrun.
  - case_decide; [done|]. injection Hrun as <-.
    split; [lia|]. split; [lia|]. exists 0%nat. lia.
  - case_decide as Hguard.
    + apply IH in Hrun as (Hge & Hlt & g & Hn).
      rewrite run_iterations_add in Hge, Hlt, Hn.
      split; [lia|]. split; [lia|]. exists (S g). lia.
    + injection Hrun as <-. split; [lia|]. split; [lia|]. exists 0%nat. lia.
Qed.

(** Past the number of turns the guard allows, more fuel for the loop
    changes nothing. *)
Lemma evolution_enough_fuel fuel fuel' pfuel s0 s w current_evaluations :
  same_settings s0 s →
  (0 < evolutionary_iterations s0)%Z →
  (remaining_iterations s0 - iteration s ≤ Z.of_nat fuel)%Z →
  (remaining_iterations s0 - iteration s ≤ Z.of_nat fuel')%Z →
  evolution fuel pfuel (remaining_iterations s0) s w current_evaluations
  = evolution fuel' pfuel (remaining_iterations s0) s w current_evaluations.
Proof.
  intros Hs Hevo. revert fuel' s w current_evaluations Hs.
  induction fuel as [|fuel IH]; intros fuel' s w evals Hs Hfuel Hfuel'.
  - destruct fuel'; cbn; repeat case_decide; (done || lia).
  - destruct fuel' as [|fuel'].
    { cbn. repeat case_decide; (done || lia). }
    cbn. case_decide as Hguard; [|done].
    destruct (generation pfuel s w evals) as [[[s1 w1] evals1]| |] eqn:Hgen; [|done..].
    cbn. apply generation_keeps in Hgen as (Hs1 & Hit1).
    rewrite run_iterations_add in Hit1.
    destruct Hs as (Hm & Hw & He & Hd & Hr).
    apply IH; [by eapply same_settings_trans; [|exact Hs1]|lia|lia].
Qed.

(** X21. With [evolutionary_iterations > 0] the loop of [train] takes at most
    [remaining_iterations - (iteration + max(0, warmup_iterations))]
    turns: with that bound on the turns or any larger one the outcome of
    [train] is the same, so only a pass that does not return (a selection
    that raises, a neighbour search that never ends) keeps [train] from
    returning.  When [train] returns, [self.iteration] is the value after
    the warm-up plus a whole number of generations, not below
    [remaining_iterations], and less than one generation above it if the
    loop was entered. *)
Theorem train_takes_boundedly_many_generations :
  ∀ (fuel pfuel : nat) (s : PGMORL.t) (w : world),
    (0 < evolutionary_iterations s)%Z →
    (remaining_iterations s - (iteration s + 0 `max` warmup_iterations s)
     ≤ Z.of_nat fuel)%Z →
    (∀ fuel' : nat,
       (remaining_iterations s - (iteration s + 0 `max` warmup_iterations s)
        ≤ Z.of_nat fuel')%Z →
       Scheduler.train fuel' pfuel s w = Scheduler.train fuel pfuel s w)
    ∧ ∀ (s' : PGMORL.t) (w' : world) (evaluations : list vec),
        Scheduler.train fuel pfuel s w = Ret (s', w', evaluations) →
        (remaining_iterations s `max` (iteration s + 0 `max` warmup_iterations s)
         ≤ iteration s')%Z
        ∧ (iteration s'
           < (remaining_iterations s + evolutionary_iterations s)
             `max` (iteration s + 0 `max` warmup_iterations s + 1))%Z
        ∧ ∃ generations : nat,
            iteration s'
            = (iteration s + 0 `max` warmup_iterations s
               + Z.of_nat generations * evolutionary_iterations s)%Z.
Proof.
  intros fuel pfuel s w Hevo Hfuel. split.
  - intros fuel' Hfuel'. unfold Scheduler.train.
    destruct (eval_all_agents false s w _) as [[[s1 w1] ev1]| |] eqn:Heval1; [|done..].
    cbn. apply eval_agents_keeps in Heval1 as (Hs1 & _ & Hit1 & _).
    destruct (train_iterations _ _ _) as [s2 w2] eqn:Htrain.
    apply train_iterations_keeps in Htrain as (Hs2 & _ & _ & _ & _ & Hit2).
    destruct (eval_all_agents true s2 w2 ev1) as [[[s3 w3] ev3]| |] eqn:Heval3; [|done..].
    cbn. apply eval_agents_keeps in Heval3 as (Hs3 & _ & Hit3 & _).
    pose proof (same_settings_trans _ _ _ Hs1 (same_settings_trans _ _ _ Hs2 Hs3))
      as (Hm & Hw & He & Hd & Hr).
    assert (Hrem : remaining_iterations s3 = remaining_iterations s).
    { unfold remaining_iterations. by rewrite Hm, Hw, He. }
    assert (Hstart : iteration s3 = (iteration s + 0 `max` warmup_iterations s)%Z).
    { destruct Hs1 as (_ & Hw1 & _).
      by rewrite Hit3, Hit2, run_iterations_add, Hit1, Hw1. }
    apply evolution_enough_fuel;
      [apply same_settings_refl|by rewrite He|rewrite Hrem, Hstart; lia..].
  - intros s' w' evaluations Hrun. apply train_counter in Hrun.
    unfold PGMORL.train in Hrun. rewrite run_iterations_add in Hrun.
    by apply evolution_loop_bounds in Hrun.
Qed.

Lemma remove_dups_length_le (l : list vec) : (length (remove_dups l) ≤ length l)%nat.
Proof.
  apply submseteq_length, NoDup_submseteq; [apply NoDup_remove_dups|].
  intros x. apply elem_of_remove_dups.
Qed.

Lemma task_weight_selection_needs_samples pfuel s result :
  (distinct_posts (predictor s) < 4)%nat → agents s ≠ [] →
  task_weight_selection pfuel s ≠ Ret result.
Proof.
  intros Hfew Hagents Hrun.
  unfold task_weight_selection, selection_prefix in Hrun.
  inv_bind Hrun as cw Hcw.
  destruct (agents s) as [|a ags]; [done|]. cbn in Hrun.
  inv_bind Hrun as st1 Hstep. by apply select_for_worker_needs_samples in Hstep.
Qed.

(** X22. A population of fewer than four agents cannot finish training: the one
    evaluation pass after the warm-up records one sample per agent, so the
    first selection finds fewer than four samples.  If the loop of [train]
    is entered at all, [train] never returns, whatever the bounds. *)
Theorem train_needs_four_agents :
  ∀ (fuel pfuel : nat) (s : PGMORL.t) (w : world) (r : PGMORL.t * world * list vec),
    agents s ≠ [] →
    (length (PerformancePredictor.next_performance (predictor s))
     + length (agents s) < 4)%nat →
    (run_iterations (warmup_iterations s) (iteration s) < remaining_iterations s)%Z →
    Scheduler.train fuel pfuel s w ≠ Ret r.
Proof.
  intros fuel pfuel s w [[s' w'] evals] Hagents Hfew Henter Hrun.
  unfold Scheduler.train in Hrun.
  inv_bind Hrun as [[s1 w1] ev1] Heval1.
  apply eval_agents_keeps in Heval1 as (Hs1 & Hag1 & Hit1 & Hp1).
  destruct (train_iterations _ _ _) as [s2 w2] eqn:Htrain.
  apply train_iterations_keeps in Htrain as (Hs2 & Hag2 & Hp2 & _ & _ & Hit2).
  inv_bind Hrun as [[s3 w3] ev3] Heval3.
  apply eval_agents_keeps in Heval3 as (Hs3 & Hag3 & Hit3 & Hp3).
  rewrite length_zip_with, length_seq, Nat.min_id in Hp3.
  pose proof (same_settings_trans _ _ _ Hs1 (same_settings_trans _ _ _ Hs2 Hs3))
    as (Hm & Hw & He & _ & _).
  assert (Hrem : remaining_iterations s3 = remaining_iterations s).
  { unfold remaining_iterations. by rewrite Hm, Hw, He. }
  assert (Hguard : (iteration s3 < remaining_iterations s3)%Z).
  { destruct Hs1 as (_ & Hw1 & _). rewrite Hrem, Hit3, Hit2, Hit1, Hw1. done. }
  assert (Hfew3 : (distinct_posts (predictor s3) < 4)%nat).
  { unfold distinct_posts.
    pose proof (remove_dups_length_le
                  (PerformancePredictor.next_performance (predictor s3))).
    rewrite Hp3, Hp2, Hp1, Hag2, Hag1 in *. lia. }
  destruct fuel as [|fuel]; cbn in Hrun; rewrite decide_True in Hrun by done; [done|].
  inv_bind Hrun as [[s4 w4] ev4] Hgen. unfold generation in Hgen.
  inv_bind Hgen as sel Hsel.
  apply task_weight_selection_needs_samples in Hsel; [done|done|].
  by rewrite Hag3, Hag2, Hag1.
Qed.

End scheduler.

(** ** Sample runs of the properties above *)

Lemma generate_weights_distinct_simplex_witness :
  NoDup third_weights
  ∧ Forall (λ w : vec, ∃ a b, w = [a; b] ∧ 0 ≤ a ∧ 0 ≤ b ∧ a + b = 1) third_weights.
Proof.
  apply (generate_weights_distinct_simplex (q 1 3) third_weights); by vm_compute.
Defined.

Lemma half_spacing_gives_more_weights_witness :
  ∃ ws cs : list vec,
    generate_weights (q 1 3) = Ret ws
    ∧ generate_weights (q 1 3 / Qc_of_Z 2) = Ret cs
    ∧ (length ws < length cs)%nat.
Proof.
  apply (half_spacing_gives_more_weights (q 1 3)); by vm_compute.
Defined.

Lemma predict_zero_objective_witness :
  PerformancePredictor.predict_next_evaluation (H := scripted) 50 four_samples
    [q 1 2; q 1 2] [0; q 10 1]
  = Timeout.
Proof.
  apply (predict_zero_objective_never_returns (H := scripted) 50 four_samples
           [q 1 2; q 1 2] [0; q 10 1] 0).
  - reflexivity.
  - apply (bool_decide_unpack _). by vm_compute.
Defined.

Lemma predict_returns_on_four_neighbours_witness :
  ∃ (nb : PerformancePredictor.neighbors) (k : nat),
    (1 ≤ k ≤ 6)%nat
    ∧ PerformancePredictor.expand_neighborhood 6 four_samples [q 10 1; q 10 1]
        (PerformancePredictor.sigma four_samples / Qc_of_Z 2)
        (PerformancePredictor.neighborhood_threshold four_samples / Qc_of_Z 2)
        PerformancePredictor.no_neighbors
      = Ret (nb, doubled k (PerformancePredictor.sigma four_samples / Qc_of_Z 2))
    ∧ (4 ≤ length (PerformancePredictor.neighbor_weights nb))%nat
    ∧ NoDup (PerformancePredictor.neighbor_next_perf nb)
    ∧ neighbours_from_history four_samples nb
    ∧ sample_prediction.1
      = (λ obj_num,
           build_model_and_predict (Externals := scripted)
             (PerformancePredictor.neighbor_weights nb)
             (PerformancePredictor.neighbor_deltas nb)
             (PerformancePredictor.neighbor_next_perf nb) obj_num [q 10 1; q 10 1]
             [q 1 2; q 1 2]
             (doubled k (PerformancePredictor.sigma four_samples / Qc_of_Z 2)))
        <$> seq 0 (length [q 1 2; q 1 2])
    ∧ length sample_prediction.1 = length [q 1 2; q 1 2]
    ∧ sample_prediction.2 = vadd sample_prediction.1 [q 10 1; q 10 1].
Proof.
  apply (predict_returns_on_four_neighbours (H := scripted) 6 four_samples
           [q 1 2; q 1 2] [q 10 1; q 10 1] sample_prediction.1 sample_prediction.2).
  by vm_compute.
Defined.

Lemma predict_returns_with_four_samples_witness :
  ∃ (fuel : nat) (delta predicted : vec),
    PerformancePredictor.predict_next_evaluation (H := scripted) fuel four_samples
      [q 1 2; q 1 2] [q 10 1; q 10 1]
    = Ret (delta, predicted)
    ∧ length delta = length [q 10 1; q 10 1]
    ∧ length predicted = length [q 10 1; q 10 1].
Proof.
  apply (predict_returns_with_four_samples (H := scripted) four_samples
           [q 1 2; q 1 2] [q 10 1; q 10 1]).
  - by vm_compute.
  - apply (bool_decide_unpack _). by vm_compute.
  - reflexivity.
  - apply (bool_decide_unpack _). by vm_compute.
  - reflexivity.
  - reflexivity.
  - vm_compute. lia.
Defined.

Lemma add_touches_only_its_bin_witness :
  (∀ l a, two_agents !! l = Some a → one_bin_added.1 !! l = Some a)
  ∧ (∀ l, two_agents !! l = None → is_Some (one_bin_added.1 !! l) →
          l = fresh (dom two_agents)
          ∧ one_bin_added.1 !! l = Some (two_agents !!! 1%positive))
  ∧ PerformanceBuffer.num_bins one_bin_added.2 = PerformanceBuffer.num_bins one_bin
  ∧ PerformanceBuffer.max_size one_bin_added.2 = PerformanceBuffer.max_size one_bin
  ∧ PerformanceBuffer.origin one_bin_added.2 = PerformanceBuffer.origin one_bin
  ∧ ∀ k : nat,
      Z.of_nat k
      ≠ angle_bin (Externals := scripted) (PerformanceBuffer.num_bins one_bin)
          (PerformanceBuffer.center_eval one_bin [q 3 1; q 4 1]) →
      PerformanceBuffer.bins one_bin_added.2 !! k = PerformanceBuffer.bins one_bin !! k
      ∧ PerformanceBuffer.bins_evals one_bin_added.2 !! k
        = PerformanceBuffer.bins_evals one_bin !! k.
Proof.
  apply (add_touches_only_its_bin (H := scripted) two_agents one_bin_added.1
           one_bin one_bin_added.2 1%positive [q 3 1; q 4 1]).
  - apply (bool_decide_unpack _). by vm_compute.
  - by vm_compute.
Defined.

Lemma full_bin_never_weaker_witness :
  length [[0; q 3 1]; [0; 1]] = length [[0; q 2 1]; [0; 1]]
  ∧ ∀ e', e' ∈ [[0; q 3 1]; [0; 1]] →
          ∃ e, e ∈ [[0; q 2 1]; [0; 1]]
               ∧ norm_sq (PerformanceBuffer.center_eval full_bin e)
                 ≤ norm_sq (PerformanceBuffer.center_eval full_bin e').
Proof.
  apply (full_bin_never_weaker (H := scripted) sample_heap full_bin_added.1
           full_bin full_bin_added.2 1%positive [0; q 3 1] 0).
  - apply (bool_decide_unpack _). by vm_compute.
  - by vm_compute.
  - reflexivity.
  - by vm_compute.
  - cbn. lia.
Defined.

Lemma archive_holds_distinct_copies_witness :
  NoDup (PerformanceBuffer.individuals constructed_bin_filled.2)
  ∧ (∀ l, l ∈ PerformanceBuffer.individuals constructed_bin_filled.2 →
          is_Some (constructed_bin_filled.1 !! l) ∧ two_agents !! l = None)
  ∧ (∀ l a, two_agents !! l = Some a → constructed_bin_filled.1 !! l = Some a).
Proof.
  apply (archive_holds_distinct_copies (H := scripted) 1 2 [0; Qc_of_Z (-5)]
           constructed_bin constructed_bin_filled.2 two_agents
           constructed_bin_filled.1 sample_calls); by vm_compute.
Defined.

Lemma population_parallel_and_bounded_witness :
  length (PerformanceBuffer.individuals constructed_bin_filled.2)
  = length (PerformanceBuffer.evaluations constructed_bin_filled.2)
  ∧ (length (PerformanceBuffer.individuals constructed_bin_filled.2) ≤ 1 * 2)%nat.
Proof.
  apply (population_parallel_and_bounded (H := scripted) 1 2 [0; Qc_of_Z (-5)]
           constructed_bin constructed_bin_filled.2 two_agents
           constructed_bin_filled.1 sample_calls); by vm_compute.
Defined.

Lemma init_state_witness :
  ∃ ws : list vec,
    generate_weights (PGMORL.c_delta_weight small_config) = Ret ws
    ∧ NoDup (PGMORL.agents small_scheduler)
    ∧ length (PGMORL.agents small_scheduler) = length ws
    ∧ (∀ (i : nat) (w : vec),
         ws !! i = Some w →
         ∃ (l : loc) (agent : MOPPO),
           PGMORL.agents small_scheduler !! i = Some l
           ∧ PGMORL.heap small_scheduler !! l = Some agent
           ∧ id agent = i ∧ networks agent = i ∧ weights agent = w)
    ∧ (∀ l, is_Some (PGMORL.heap small_scheduler !! l) → l ∈ PGMORL.agents small_scheduler)
    ∧ PGMORL.iteration small_scheduler = 0%Z
    ∧ PGMORL.max_iterations small_scheduler
      = ((PGMORL.c_limit_env_steps small_config
          `div` PGMORL.c_steps_per_iteration small_config)
         `div` PGMORL.c_num_envs small_config)%Z
    ∧ PerformanceBuffer.individuals (PGMORL.population small_scheduler) = []
    ∧ PerformanceBuffer.evaluations (PGMORL.population small_scheduler) = []
    ∧ PGMORL.archive_evaluations small_scheduler = []
    ∧ PGMORL.predictor small_scheduler = PerformancePredictor.init.
Proof.
  apply (init_state small_config small_scheduler). by vm_compute.
Defined.

Lemma selection_needs_four_samples_witness :
  (distinct_posts (PGMORL.predictor starved_state) < 4)%nat
  ∧ PGMORL.task_weight_selection (H := scripted) 50 starved_state
    ≠ Ret (PGMORL.selection_start starved_state).
Proof.
  split; [vm_compute; lia|].
  apply (selection_needs_four_samples (H := scripted) 50 starved_state
           (PGMORL.selection_start starved_state)).
  - vm_compute. lia.
  - by vm_compute.
Defined.

Lemma selection_is_greedy_witness :
  ∃ (candidate : loc) (e w delta pe : vec),
    (candidate, e)
    ∈ zip (PerformanceBuffer.individuals (PGMORL.population sample_state))
          (PerformanceBuffer.evaluations (PGMORL.population sample_state))
    ∧ w ∈ sample_weights
    ∧ PerformancePredictor.predict_next_evaluation (H := scripted) 5
        (PGMORL.predictor sample_state) w e = Ret (delta, pe)
    ∧ PGMORL.selected_tasks sample_first_worker
      = PGMORL.selected_tasks (PGMORL.selection_start sample_state) ++ [(e, w)]
    ∧ PGMORL.current_front sample_first_worker
      = PGMORL.current_front (PGMORL.selection_start sample_state) ++ [pe]
    ∧ ∀ (c' : loc) (e' w' delta' pe' : vec),
        (c', e')
        ∈ zip (PerformanceBuffer.individuals (PGMORL.population sample_state))
              (PerformanceBuffer.evaluations (PGMORL.population sample_state)) →
        w' ∈ sample_weights →
        (e', w') ∉ PGMORL.selected_tasks (PGMORL.selection_start sample_state) →
        PerformancePredictor.predict_next_evaluation (H := scripted) 5
          (PGMORL.predictor sample_state) w' e' = Ret (delta', pe') →
        mixture_metric (H := scripted) sample_state
          (PGMORL.selection_start sample_state) pe'
        ≤ mixture_metric (H := scripted) sample_state
            (PGMORL.selection_start sample_state) pe.
Proof.
  apply (selection_is_greedy (H := scripted) 5 sample_state sample_weights 0
           (PGMORL.selection_start sample_state) sample_first_worker).
  by vm_compute.
Defined.

Lemma generation_replaces_every_worker_witness :
  ∃ candidate_weights : list vec,
    PGMORL.selection_weights (H := scripted) sample_state = Ret candidate_weights
    ∧ (∀ l a, PGMORL.heap sample_state !! l = Some a →
              PGMORL.sel_heap sample_result !! l = Some a)
    ∧ length (PGMORL.sel_agents sample_result) = length (PGMORL.agents sample_state)
    ∧ NoDup (PGMORL.sel_agents sample_result)
    ∧ ∀ (i : nat) (previous : loc) (previous_obj : MOPPO),
        PGMORL.agents sample_state !! i = Some previous →
        PGMORL.heap sample_state !! previous = Some previous_obj →
        ∃ (copy archived : loc) (archived_obj : MOPPO) (w : vec),
          PGMORL.sel_agents sample_result !! i = Some copy
          ∧ PGMORL.heap sample_state !! copy = None
          ∧ archived ∈ PerformanceBuffer.individuals (PGMORL.population sample_state)
          ∧ PGMORL.heap sample_state !! archived = Some archived_obj
          ∧ w ∈ candidate_weights
          ∧ PGMORL.sel_heap sample_result !! copy
            = Some {| id := i; networks := networks archived_obj; weights := w;
                      global_step := global_step previous_obj |}.
Proof.
  apply (generation_replaces_every_worker (H := scripted) 5 sample_state sample_result).
  - unfold allocated. apply (bool_decide_unpack _). by vm_compute.
  - unfold allocated. apply (bool_decide_unpack _). by vm_compute.
  - by vm_compute.
Defined.

Lemma generation_completes_witness :
  ∃ (fuel : nat) (result : PGMORL.selection),
    PGMORL.task_weight_selection (H := scripted) fuel sample_state = Ret result.
Proof.
  apply (generation_completes (H := scripted) sample_state ([0; 1] :: [1; 0] :: [])).
  - intros l. apply reverse_Permutation.
  - by vm_compute.
  - by vm_compute.
  - cbn. lia.
  - by vm_compute.
  - apply (proj1 (Forall_forall
                    (λ e : vec, length e = 2%nat ∧ Forall (λ x, x ≠ 0) e) _)).
    apply (bool_decide_unpack _). by vm_compute.
  - by vm_compute.
  - apply (bool_decide_unpack _). by vm_compute.
  - reflexivity.
  - reflexivity.
  - vm_compute. lia.
Defined.

Lemma selection_on_empty_population_witness :
  PGMORL.task_weight_selection (H := scripted) 5 small_scheduler = Raise TypeError.
Proof.
  apply (selection_on_empty_population_raises (H := scripted) 5 small_scheduler).
  - by vm_compute.
  - by vm_compute.
  - by vm_compute.
  - reflexivity.
Defined.

Lemma evaluation_pass_witness :
  (small_evaluated.2, small_evaluated.1.2)
  = policy_evals (H := scripted_collaborators) (PGMORL.heap small_scheduler)
      (PGMORL.agents small_scheduler) 0%nat
  ∧ length small_evaluated.2 = length (replicate 4 ([0; 0] : vec))
  ∧ PGMORL.agents small_evaluated.1.1 = PGMORL.agents small_scheduler
  ∧ PGMORL.iteration small_evaluated.1.1 = PGMORL.iteration small_scheduler
  ∧ add_all (H := scripted) (PGMORL.heap small_scheduler)
      (PGMORL.population small_scheduler)
      (zip (PGMORL.agents small_scheduler) small_evaluated.2)
    = Ret (PGMORL.heap small_evaluated.1.1, PGMORL.population small_evaluated.1.1)
  ∧ PGMORL.archive_evaluations small_evaluated.1.1
    = pareto_add_all (H := scripted_collaborators) (PGMORL.heap small_scheduler)
        (PGMORL.archive_evaluations small_scheduler)
        (zip (PGMORL.agents small_scheduler) small_evaluated.2)
  ∧ (∀ l a, PGMORL.heap small_scheduler !! l = Some a →
            PGMORL.heap small_evaluated.1.1 !! l = Some a)
  ∧ buffer_wf (PGMORL.population small_evaluated.1.1)
  ∧ PerformancePredictor.previous_performance (PGMORL.predictor small_evaluated.1.1)
    = PerformancePredictor.previous_performance (PGMORL.predictor small_scheduler)
      ++ replicate 4 [0; 0]
  ∧ PerformancePredictor.next_performance (PGMORL.predictor small_evaluated.1.1)
    = PerformancePredictor.next_performance (PGMORL.predictor small_scheduler)
      ++ small_evaluated.2
  ∧ PerformancePredictor.used_weight (PGMORL.predictor small_evaluated.1.1)
    = PerformancePredictor.used_weight (PGMORL.predictor small_scheduler)
      ++ ((λ l, weights (PGMORL.heap small_scheduler !!! l))
          <$> PGMORL.agents small_scheduler).
Proof.
  apply (evaluation_pass_records_one_sample_per_agent
           (H := scripted) (H0 := scripted_collaborators) true
           small_scheduler small_evaluated.1.1 0%nat small_evaluated.1.2
           (replicate 4 [0; 0]) small_evaluated.2).
  - reflexivity.
  - unfold allocated. apply (bool_decide_unpack _). by vm_compute.
  - apply (bool_decide_unpack _). by vm_compute.
  - by vm_compute.
Defined.

Lemma train_counter_is_skeleton_witness :
  PGMORL.train 3 small_scheduler = Ret (PGMORL.iteration small_trained.1.1).
Proof.
  apply (train_counter_is_skeleton (H := scripted) (H0 := scripted_collaborators)
           3 10 small_scheduler small_trained.1.1 0%nat small_trained.1.2
           small_trained.2).
  by vm_compute.
Defined.

Lemma train_needs_four_agents_witness :
  length (PGMORL.agents narrow_scheduler) = 3%nat
  ∧ Scheduler.train (H := scripted) (H0 := scripted_collaborators)
      50 50 narrow_scheduler 0%nat
    ≠ Ret (narrow_scheduler, 0%nat, []).
Proof.
  split; [reflexivity|].
  apply (train_needs_four_agents (H := scripted) (H0 := scripted_collaborators)
           50 50 narrow_scheduler 0%nat (narrow_scheduler, 0%nat, [])).
  - by vm_compute.
  - vm_compute. lia.
  - by vm_compute.
Defined.

Lemma training_touches_only_the_agents_witness :
  PGMORL.iteration small_warmed.1 = (PGMORL.iteration small_scheduler + 0 `max` 2)%Z
  ∧ PGMORL.agents small_warmed.1 = PGMORL.agents small_scheduler
  ∧ PGMORL.population small_warmed.1 = PGMORL.population small_scheduler
  ∧ PGMORL.predictor small_warmed.1 = PGMORL.predictor small_scheduler
  ∧ PGMORL.archive_evaluations small_warmed.1 = PGMORL.archive_evaluations small_scheduler
  ∧ ∀ l : loc, l ∉ PGMORL.agents small_scheduler →
               PGMORL.heap small_warmed.1 !! l = PGMORL.heap small_scheduler !! l.
Proof.
  apply (training_touches_only_the_agents (H0 := scripted_collaborators) 2
           small_scheduler small_warmed.1 0%nat small_warmed.2).
  by vm_compute.
Defined.

Lemma train_without_progress_witness :
  PGMORL.evolutionary_iterations stalled_scheduler = 0%Z
  ∧ Scheduler.train (H := scripted) (H0 := scripted_collaborators)
      50 50 stalled_scheduler 0%nat
    ≠ Ret (stalled_scheduler, 0%nat, []).
Proof.
  split; [reflexivity|].
  apply (train_without_progress_never_ends (H := scripted) (H0 := scripted_collaborators)
           50 50 stalled_scheduler 0%nat (stalled_scheduler, 0%nat, [])).
  - by vm_compute.
  - by vm_compute.
Defined.

Lemma train_takes_boundedly_many_generations_witness :
  (∀ fuel' : nat,
     (PGMORL.remaining_iterations small_scheduler
      - (PGMORL.iteration small_scheduler
         + 0 `max` PGMORL.warmup_iterations small_scheduler)
      ≤ Z.of_nat fuel')%Z →
     Scheduler.train (H := scripted) (H0 := scripted_collaborators)
       fuel' 10 small_scheduler 0%nat
     = Scheduler.train (H := scripted) (H0 := scripted_collaborators)
         3 10 small_scheduler 0%nat)
  ∧ ∀ (s' : PGMORL.t) (w' : nat) (evaluations : list vec),
      Scheduler.train (H := scripted) (H0 := scripted_collaborators)
        3 10 small_scheduler 0%nat
      = Ret (s', w', evaluations) →
      (PGMORL.remaining_iterations small_scheduler
       `max` (PGMORL.iteration small_scheduler
              + 0 `max` PGMORL.warmup_iterations small_scheduler)
       ≤ PGMORL.iteration s')%Z
      ∧ (PGMORL.iteration s'
         < (PGMORL.remaining_iterations small_scheduler
            + PGMORL.evolutionary_iterations small_scheduler)
           `max` (PGMORL.iteration small_scheduler
                  + 0 `max` PGMORL.warmup_iterations small_scheduler + 1))%Z
      ∧ ∃ generations : nat,
          PGMORL.iteration s'
          = (PGMORL.iteration small_scheduler
             + 0 `max` PGMORL.warmup_iterations small_scheduler
             + Z.of_nat generations
               * PGMORL.evolutionary_iterations small_scheduler)%Z.
Proof.
  apply (train_takes_boundedly_many_generations
           (H := scripted) (H0 := scripted_collaborators) 3 10 small_scheduler 0%nat).
  - by vm_compute.
  - by vm_compute.
Defined.
